(** * Brainfuck interpreter (brainfuck/Base.py, Nice.py, Trolls.py,
      Brainfuck.py)

    A shallow embedding of [Interpreter.interpret] and of the methods it
    calls ([getChar], [putChar], [handleError], [reset], [setChars]), of
    [TrollInterpreter.execute] with the table of aliases and the
    directive it prints, of [ResetTrollInterpreter], and of the loop of
    the console with its commands, followed by the properties of the
    interpretation engine, of the troll interpreters and of the console.

    Python integers are modelled by [Z], the program text by a list of
    characters, the tape [self.array] by a list of integers, the
    dictionaries [jumps] and [aliases] by finite maps, and the two
    standard streams by the list of code points still to be read and the
    list of events already emitted. *)

From Stdlib Require Import ZArith Ascii String Lia.
From stdpp Require Import base option list gmap strings.

Local Open Scope Z_scope.

(** ** Python values and exceptions *)

(** The exceptions the embedded code can raise. *)
Inductive Exn :=
| ZeroDivisionError   (* [x % 0] *)
| IndexError          (* [l[i]] out of range *)
| TypeError           (* [ord('')], at the end of the input *)
| ValueError.         (* [chr(x)] outside [range(0x110000)] *)

(** Computations that either return a value or raise. *)
Inductive Py (A : Type) :=
| Ok (a : A)
| Raise (e : Exn).
Arguments Ok {A} a.
Arguments Raise {A} e.

Definition py_bind {A B} (m : Py A) (k : A -> Py B) : Py B :=
  match m with
  | Ok a => k a
  | Raise e => Raise e
  end.

Notation "'do' x <- m ; k" := (py_bind m (fun x => k))
  (at level 10, x name, m at level 100, k at level 200).

(** [len(l)] *)
Definition len {A} (l : list A) : Z := Z.of_nat (length l).

(** [l[i]]: a negative index counts from the end. *)
Definition py_getitem {A} (l : list A) (i : Z) : Py A :=
  let j := if i <? 0 then len l + i else i in
  if j <? 0 then Raise IndexError
  else match l !! Z.to_nat j with
       | Some x => Ok x
       | None => Raise IndexError
       end.

(** [l[i] = x] *)
Definition py_setitem {A} (l : list A) (i : Z) (x : A) : Py (list A) :=
  let j := if i <? 0 then len l + i else i in
  if (0 <=? j) && (j <? len l) then Ok (<[Z.to_nat j := x]> l)
  else Raise IndexError.

(** [a % b]: the result has the sign of the divisor, as [Z.modulo]. *)
Definition py_mod (a b : Z) : Py Z :=
  if b =? 0 then Raise ZeroDivisionError else Ok (a mod b).

(** ** The eight characters of an interpreter *)

Module Chars.
Record t := Make {
  gt : ascii;
  lt : ascii;
  plus : ascii;
  minus : ascii;
  period : ascii;
  comma : ascii;
  lbracket : ascii;
  rbracket : ascii;
}.
End Chars.

(** [NiceInterpreter.setChars] *)
Definition NiceInterpreter_setChars : Chars.t :=
  {| Chars.gt := ">"; Chars.lt := "<"; Chars.plus := "+"; Chars.minus := "-";
     Chars.period := "."; Chars.comma := ","; Chars.lbracket := "[";
     Chars.rbracket := "]" |}.

(** The alias lists [TrollInterpreter.setChars] draws from. *)
Definition gt_signs : list ascii := [">"; "a"; "b"; "c"; "1"]%char.
Definition lt_signs : list ascii := ["<"; "d"; "e"; "f"; "2"]%char.
Definition plus_signs : list ascii := ["+"; "g"; "h"; "i"; "3"]%char.
Definition minus_signs : list ascii := ["-"; "j"; "k"; "l"; "4"]%char.
Definition period_signs : list ascii := ["."; "m"; "n"; "o"; "5"]%char.
Definition comma_signs : list ascii := [","; "p"; "q"; "r"; "6"]%char.
Definition lbracket_signs : list ascii := ["["; "s"; "t"; "u"; "7"]%char.
Definition rbracket_signs : list ascii := ["]"; "v"; "w"; "x"; "8"]%char.

(** [TrollInterpreter.setChars] makes eight calls of [random.choice]; the
    outcome is any table whose entries are members of the alias lists. *)
Definition TrollInterpreter_setChars (cs : Chars.t) : Prop :=
  Chars.gt cs ∈ gt_signs ∧ Chars.lt cs ∈ lt_signs ∧
  Chars.plus cs ∈ plus_signs ∧ Chars.minus cs ∈ minus_signs ∧
  Chars.period cs ∈ period_signs ∧ Chars.comma cs ∈ comma_signs ∧
  Chars.lbracket cs ∈ lbracket_signs ∧ Chars.rbracket cs ∈ rbracket_signs.

(** ** The interpreter object and its environment *)

(** The argument [side] of [handleError]. *)
Inductive Side := side_left | side_right.

(** What the interpreter does to the outside: [putChar] prints a
    character, and [handleError], which [NiceInterpreter] and
    [TrollInterpreter] override with a method that prints a message and
    returns, is recorded with its argument. *)
Inductive Event :=
| PutChar (char : Z)
| HandleError (side : Side).

(** The attributes [array] and [ptr] of [self], the code points not yet
    read from STDIN and the events so far, oldest first.  The eight
    character attributes are passed separately ([cs]): [interpret] never
    assigns them. *)
Record State := MkState {
  array : list Z;
  ptr : Z;
  stdin : list Z;
  events : list Event;
}.

Definition set_ptr (s : State) (p : Z) : State :=
  {| array := array s; ptr := p; stdin := stdin s; events := events s |}.
Definition set_array (s : State) (a : list Z) : State :=
  {| array := a; ptr := ptr s; stdin := stdin s; events := events s |}.
Definition set_stdin (s : State) (i : list Z) : State :=
  {| array := array s; ptr := ptr s; stdin := i; events := events s |}.
Definition emit (s : State) (e : Event) : State :=
  {| array := array s; ptr := ptr s; stdin := stdin s;
     events := events s ++ [e] |}.

(** [Interpreter.reset] *)
Definition reset (s : State) : State :=
  set_array (set_ptr s 0) (replicate (Z.to_nat 30000) 0).

(** A method of the interpreter returns [None] or raises, and leaves the
    state its effects have led to. *)
Definition Method := State -> Py unit * State.

(** [Interpreter.getChar]: [self.array[self.ptr] = ord(stdin.read(1))].
    The right-hand side is evaluated first; at the end of the input
    [stdin.read(1)] is the empty string, on which [ord] raises. *)
Definition getChar : Method := fun s =>
  match stdin s with
  | [] => (Raise TypeError, s)
  | c :: rest =>
      let s := set_stdin s rest in
      match py_setitem (array s) (ptr s) c with
      | Ok a => (Ok tt, set_array s a)
      | Raise e => (Raise e, s)
      end
  end.

(** [Interpreter.putChar]: [chr] is that of Python 3. *)
Definition putChar : Method := fun s =>
  match py_getitem (array s) (ptr s) with
  | Ok char =>
      if (0 <=? char) && (char <? 1114112) then (Ok tt, emit s (PutChar char))
      else (Raise ValueError, s)
  | Raise e => (Raise e, s)
  end.

(** [handleError] as overridden in Nice.py and in [TrollInterpreter]. *)
Definition handleError (side : Side) (s : State) : State :=
  emit s (HandleError side).

(** ** [Interpreter.interpret] *)

(** The local variables of [interpret] that live across iterations of
    its main loop. *)
Record Locals := MkLocals {
  stdout : bool;
  jumps : gmap Z Z;
  index : Z;
}.

Definition set_index (l : Locals) (i : Z) : Locals :=
  {| stdout := stdout l; jumps := jumps l; index := i |}.

(** The outcome of a bracket search. *)
Inductive Scan :=
| Found (index : Z)
| Unmatched
| ScanRaise (e : Exn).

(** The common tail of both searches (lines 186-190 and 215-219). *)
Definition count_paren (cs : Chars.t) (char : ascii) (paren : Z) : Z :=
  if Ascii.eqb char (Chars.lbracket cs) then paren + 1
  else if Ascii.eqb char (Chars.rbracket cs) then paren - 1
  else paren.

(** The loop of lines 177-190, [n] iterations at most. *)
Fixpoint scan_right_loop (n : nat) (cs : Chars.t) (code : list ascii)
    (index paren : Z) : Scan :=
  if paren =? 0 then Found index
  else match n with
       | O => ScanRaise IndexError
       | S n =>
           let index := index + 1 in
           if index =? len code then Unmatched
           else match py_getitem code index with
                | Raise e => ScanRaise e
                | Ok char =>
                    scan_right_loop n cs code index (count_paren cs char paren)
                end
       end.

(** The loop runs while [index] grows towards [len(code)]. *)
Definition scan_right (cs : Chars.t) (code : list ascii) (index paren : Z)
    : Scan :=
  scan_right_loop (Z.to_nat (len code - index)) cs code index paren.

(** The loop of lines 206-219, [n] iterations that read a character at
    most. *)
Fixpoint scan_left_loop (n : nat) (cs : Chars.t) (code : list ascii)
    (index paren : Z) : Scan :=
  if paren =? 0 then Found index
  else match n with
       | O => Unmatched
       | S n =>
           let index := index - 1 in
           if index <? 0 then Unmatched
           else match py_getitem code index with
                | Raise e => ScanRaise e
                | Ok char =>
                    scan_left_loop n cs code index (count_paren cs char paren)
                end
       end.

(** The loop runs while [index] falls towards [0]. *)
Definition scan_left (cs : Chars.t) (code : list ascii) (index paren : Z)
    : Scan :=
  scan_left_loop (Z.to_nat index) cs code index paren.

(** One iteration of the main loop either goes on or leaves [interpret]. *)
Inductive Step :=
| Next (l : Locals) (s : State)
| Leave (r : Py bool) (s : State).

Definition advance (l : Locals) (s : State) : Step :=
  Next (set_index l (index l + 1)) s.

(** Lines 143-145. *)
Definition do_gt (l : Locals) (s : State) : Step :=
  match py_mod (ptr s + 1) (len (array s)) with
  | Raise e => Leave (Raise e) s
  | Ok p => advance l (set_ptr s p)
  end.

(** Lines 147-149. *)
Definition do_lt (l : Locals) (s : State) : Step :=
  match py_mod (ptr s - 1) (len (array s)) with
  | Raise e => Leave (Raise e) s
  | Ok p => advance l (set_ptr s p)
  end.

(** Lines 151-153 and 155-157, with [d] the amount added. *)
Definition do_add (d : Z) (l : Locals) (s : State) : Step :=
  match (do v <- py_getitem (array s) (ptr s);
         do r <- py_mod (v + d) 256;
         py_setitem (array s) (ptr s) r) with
  | Raise e => Leave (Raise e) s
  | Ok a => advance l (set_array s a)
  end.

Definition do_plus := do_add 1.
Definition do_minus := do_add (-1).

(** Lines 159-162. *)
Definition do_period (l : Locals) (s : State) : Step :=
  match putChar s with
  | (Raise e, s') => Leave (Raise e) s'
  | (Ok _, s') =>
      advance {| stdout := true; jumps := jumps l; index := index l |} s'
  end.

(** Lines 164-166. *)
Definition do_comma (l : Locals) (s : State) : Step :=
  match getChar s with
  | (Raise e, s') => Leave (Raise e) s'
  | (Ok _, s') => advance l s'
  end.

(** Lines 172-193 and 201-222: the jump, once the cell has been tested.
    [scan] is the search to run when [index] is not in [jumps]. *)
Definition do_jump (scan : Scan) (side : Side) (l : Locals) (s : State)
    : Step :=
  match jumps l !! index l with
  | Some target => advance (set_index l target) s
  | None =>
      let oldindex := index l in
      match scan with
      | ScanRaise e => Leave (Raise e) s
      | Unmatched => Leave (Ok (stdout l)) (handleError side s)
      | Found index =>
          advance {| stdout := stdout l;
                     jumps := <[index := oldindex]> (<[oldindex := index]> (jumps l));
                     index := index |} s
      end
  end.

(** Lines 168-195. *)
Definition do_lbracket (cs : Chars.t) (code : list ascii) (l : Locals)
    (s : State) : Step :=
  let paren := 1 in
  match py_getitem (array s) (ptr s) with
  | Raise e => Leave (Raise e) s
  | Ok cell =>
      if cell =? 0
      then do_jump (scan_right cs code (index l) paren) side_left l s
      else advance l s
  end.

(** Lines 197-224. *)
Definition do_rbracket (cs : Chars.t) (code : list ascii) (l : Locals)
    (s : State) : Step :=
  let paren := -1 in
  match py_getitem (array s) (ptr s) with
  | Raise e => Leave (Raise e) s
  | Ok cell =>
      if negb (cell =? 0)
      then do_jump (scan_left cs code (index l) paren) side_right l s
      else advance l s
  end.

(** The body of the main loop, lines 141-227. *)
Definition body (cs : Chars.t) (code : list ascii) (l : Locals) (s : State)
    : Step :=
  match py_getitem code (index l) with
  | Raise e => Leave (Raise e) s
  | Ok char =>
      if Ascii.eqb char (Chars.gt cs) then do_gt l s
      else if Ascii.eqb char (Chars.lt cs) then do_lt l s
      else if Ascii.eqb char (Chars.plus cs) then do_plus l s
      else if Ascii.eqb char (Chars.minus cs) then do_minus l s
      else if Ascii.eqb char (Chars.period cs) then do_period l s
      else if Ascii.eqb char (Chars.comma cs) then do_comma l s
      else if Ascii.eqb char (Chars.lbracket cs) then do_lbracket cs code l s
      else if Ascii.eqb char (Chars.rbracket cs) then do_rbracket cs code l s
      else advance l s
  end.

(** The main loop, lines 140-229, after at most [n] tests of its
    condition: [Next] when it is still running, [Leave] when
    [interpret] has returned or raised. *)
Fixpoint iterate (n : nat) (cs : Chars.t) (code : list ascii)
    (l : Locals) (s : State) : Step :=
  match n with
  | O => Next l s
  | S n =>
      if index l <? len code then
        match body cs code l s with
        | Next l' s' => iterate n cs code l' s'
        | Leave r s' => Leave r s'
        end
      else Leave (Ok (stdout l)) s
  end.

Definition state_of (st : Step) : State :=
  match st with
  | Next _ s => s
  | Leave _ s => s
  end.

(** Lines 136-138. *)
Definition entry : Locals := {| stdout := false; jumps := ∅; index := 0 |}.

(** [interpret] with a bound on the length of the run: the result and
    the final state, or [None] when the main loop is still running after
    [fuel] tests of its condition. *)
Definition interpret (fuel : nat) (cs : Chars.t) (code : list ascii)
    (s : State) : option (Py bool * State) :=
  match iterate fuel cs code entry s with
  | Leave r s' => Some (r, s')
  | Next _ _ => None
  end.

(** [Interpreter.execute] only calls [interpret]. *)
Definition execute := interpret.

(** Program texts are written as string literals. *)
Definition prog (s : string) : list ascii := list_ascii_of_string s.

(** A state with the given input, before anything was emitted. *)
Definition initial (input : list Z) : State :=
  reset {| array := []; ptr := 0; stdin := input; events := [] |}.

(** ** Reading the program text *)

(** The operation a character stands for when the main loop meets it:
    the first test of lines 143-197 it passes. *)
Inductive Op :=
| MoveRight | MoveLeft | Increment | Decrement
| Output | Input | LoopOpen | LoopClose.

Definition resolve (cs : Chars.t) (char : ascii) : option Op :=
  if Ascii.eqb char (Chars.gt cs) then Some MoveRight
  else if Ascii.eqb char (Chars.lt cs) then Some MoveLeft
  else if Ascii.eqb char (Chars.plus cs) then Some Increment
  else if Ascii.eqb char (Chars.minus cs) then Some Decrement
  else if Ascii.eqb char (Chars.period cs) then Some Output
  else if Ascii.eqb char (Chars.comma cs) then Some Input
  else if Ascii.eqb char (Chars.lbracket cs) then Some LoopOpen
  else if Ascii.eqb char (Chars.rbracket cs) then Some LoopClose
  else None.

(** What a character adds to [paren] when a search passes over it. *)
Definition delta (cs : Chars.t) (char : ascii) : Z :=
  if Ascii.eqb char (Chars.lbracket cs) then 1
  else if Ascii.eqb char (Chars.rbracket cs) then -1
  else 0.

(** The sum of a list of integers. *)
Definition total (ds : list Z) : Z := foldr Z.add 0 ds.

(** The nesting depth at the end of a piece of program text. *)
Definition depth (cs : Chars.t) (code : list ascii) : Z :=
  total (delta cs <$> code).

(** Properly nested brackets: starting at depth [d], the depth never
    falls below zero and ends at zero. *)
Fixpoint balanced_from (cs : Chars.t) (d : Z) (code : list ascii) : bool :=
  match code with
  | [] => d =? 0
  | char :: code =>
      let d := d + delta cs char in
      (0 <=? d) && balanced_from cs d code
  end.

Definition balanced (cs : Chars.t) (code : list ascii) : bool :=
  balanced_from cs 0 code.

(** [code[i:j]] for [0 <= i]. *)
Definition slice {A} (l : list A) (i j : Z) : list A :=
  take (Z.to_nat (j - i)) (drop (Z.to_nat i) l).

(** The bracket at [q] opens the loop that the bracket at [p] closes. *)
Definition matching (cs : Chars.t) (code : list ascii) (q p : Z) : Prop :=
  0 <= q < p /\
  (exists o, code !! Z.to_nat q = Some o /\ delta cs o = 1) /\
  (exists c, code !! Z.to_nat p = Some c /\ delta cs c = -1) /\
  balanced cs (slice code (q + 1) p) = true.

(** The eight characters are pairwise distinct. *)
Definition distinct (cs : Chars.t) : Prop :=
  NoDup [Chars.gt cs; Chars.lt cs; Chars.plus cs; Chars.minus cs;
         Chars.period cs; Chars.comma cs; Chars.lbracket cs;
         Chars.rbracket cs].

(** A state [reset] and the operations lead to. *)
Definition well_formed (s : State) : Prop :=
  len (array s) = 30000 /\ 0 <= ptr s < 30000.

(** No call of [handleError] among the events. *)
Definition is_PutChar (e : Event) : bool :=
  match e with
  | PutChar _ => true
  | HandleError _ => false
  end.

(** The number of elements of [ds] to add to [paren] until the sum is
    zero for the first time. *)
Fixpoint first_zero (ds : list Z) (paren : Z) : option nat :=
  match ds with
  | [] => None
  | d :: ds =>
      if paren + d =? 0 then Some 1%nat
      else S <$> first_zero ds (paren + d)
  end.

(** Counts that move by single steps. *)
Definition small (ds : list Z) : Prop := Forall (fun d => -1 <= d <= 1) ds.

(** The branch of the main loop taken for an operation. *)
Definition exec_op (cs : Chars.t) (code : list ascii) (op : option Op)
    (l : Locals) (s : State) : Step :=
  match op with
  | Some MoveRight => do_gt l s
  | Some MoveLeft => do_lt l s
  | Some Increment => do_plus l s
  | Some Decrement => do_minus l s
  | Some Output => do_period l s
  | Some Input => do_comma l s
  | Some LoopOpen => do_lbracket cs code l s
  | Some LoopClose => do_rbracket cs code l s
  | None => advance l s
  end.

(** The events [ev] extend [ev0] by printed characters only. *)
Definition only_output (ev0 ev : list Event) : Prop :=
  exists out : list Z, ev = ev0 ++ (PutChar <$> out).

(** What the main loop maintains when the text is balanced. *)
Definition quiet (ev0 : list Event) (l : Locals) (s : State) : Prop :=
  0 <= index l /\
  (forall k v, jumps l !! k = Some v -> 0 <= v) /\
  only_output ev0 (events s).

(** The engine of the tests: freshly reset, then [array[0] = v]. *)
Definition seeded (v : Z) (input : list Z) : State :=
  set_array (initial input) (<[0%nat := v]> (array (initial input))).

(** The characters of [NiceInterpreter]. *)
Definition nice : Chars.t := NiceInterpreter_setChars.

(** The condition of lines 180 and 209: the main loop is at a bracket, the
    current cell asks for a jump, [jumps] has no entry for the bracket,
    and the search leaves the program text. *)
Definition unmatched (cs : Chars.t) (code : list ascii) (l : Locals)
    (s : State) (side : Side) : Prop :=
  exists char cell,
    py_getitem code (index l) = Ok char /\
    py_getitem (array s) (ptr s) = Ok cell /\
    jumps l !! index l = None /\
    match side with
    | side_left =>
        resolve cs char = Some LoopOpen /\ cell = 0 /\
        scan_right cs code (index l) 1 = Unmatched
    | side_right =>
        resolve cs char = Some LoopClose /\ cell <> 0 /\
        scan_left cs code (index l) (-1) = Unmatched
    end.

(** Two states that differ in the recorded events at most. *)
Definition agree (s1 s2 : State) : Prop :=
  array s1 = array s2 /\ ptr s1 = ptr s2 /\ stdin s1 = stdin s2.

Definition step_agree (st1 st2 : Step) : Prop :=
  match st1, st2 with
  | Next l1 s1, Next l2 s2 => l1 = l2 /\ agree s1 s2
  | Leave r1 s1, Leave r2 s2 => r1 = r2 /\ agree s1 s2
  | _, _ => False
  end.

(** What a caller sees of the engine after a call: the result, the tape,
    the cursor and the rest of the input. *)
Definition engine_after (res : option (Py bool * State))
    : option (Py bool * list Z * Z * list Z) :=
  match res with
  | Some (r, s) => Some (r, array s, ptr s, stdin s)
  | None => None
  end.

(** What the main loop maintains about its flag: [stdout] says whether
    [putChar] has been called since the events [ev0]. *)
Definition flagged (ev0 : list Event) (l : Locals) (s : State) : Prop :=
  exists new, events s = ev0 ++ new /\ stdout l = existsb is_PutChar new.

Definition flagged_result (ev0 : list Event) (r : Py bool) (s : State)
    : Prop :=
  exists new, events s = ev0 ++ new /\
              forall b, r = Ok b -> b = existsb is_PutChar new.

(** The character of an operation. *)
Definition glyph (cs : Chars.t) (op : Op) : ascii :=
  match op with
  | MoveRight => Chars.gt cs
  | MoveLeft => Chars.lt cs
  | Increment => Chars.plus cs
  | Decrement => Chars.minus cs
  | Output => Chars.period cs
  | Input => Chars.comma cs
  | LoopOpen => Chars.lbracket cs
  | LoopClose => Chars.rbracket cs
  end.

(** What a character adds to the cursor when it is one of the two moves,
    in the order of the tests of lines 143 and 147. *)
Definition move (cs : Chars.t) (char : ascii) : Z :=
  if Ascii.eqb char (Chars.gt cs) then 1
  else if Ascii.eqb char (Chars.lt cs) then -1
  else 0.

Definition moves (cs : Chars.t) (code : list ascii) : Z :=
  total (move cs <$> code).

(** A program made of the two move characters only. *)
Definition only_moves (cs : Chars.t) (code : list ascii) : Prop :=
  Forall (fun char => char = Chars.gt cs \/ char = Chars.lt cs) code.

(** The search to the left with the counting the specification words:
    [paren] goes up on the closing character and down on the opening
    one.  For comparison with [scan_left]. *)
Definition spec_count_paren (cs : Chars.t) (char : ascii) (paren : Z) : Z :=
  if Ascii.eqb char (Chars.rbracket cs) then paren + 1
  else if Ascii.eqb char (Chars.lbracket cs) then paren - 1
  else paren.

Fixpoint spec_scan_left_loop (n : nat) (cs : Chars.t) (code : list ascii)
    (index paren : Z) : Scan :=
  if paren =? 0 then Found index
  else match n with
       | O => Unmatched
       | S n =>
           let index := index - 1 in
           if index <? 0 then Unmatched
           else match py_getitem code index with
                | Raise e => ScanRaise e
                | Ok char =>
                    spec_scan_left_loop n cs code index
                      (spec_count_paren cs char paren)
                end
       end.

Definition spec_scan_left (cs : Chars.t) (code : list ascii)
    (index paren : Z) : Scan :=
  spec_scan_left_loop (Z.to_nat index) cs code index paren.

(** The whole of what the main loop and the searches read in a program
    text: per character, the operation executed and the bracket count. *)
Definition reading (cs : Chars.t) (code : list ascii)
    : list (option Op * Z) :=
  (fun char => (resolve cs char, delta cs char)) <$> code.

(** The bracket count of an operation. *)
Definition op_delta (op : option Op) : Z :=
  match op with
  | Some LoopOpen => 1
  | Some LoopClose => -1
  | _ => 0
  end.

(** One of the tables [TrollInterpreter.setChars] can draw. *)
Definition troll : Chars.t :=
  {| Chars.gt := "a"; Chars.lt := "d"; Chars.plus := "g"; Chars.minus := "j";
     Chars.period := "m"; Chars.comma := "p"; Chars.lbracket := "s";
     Chars.rbracket := "v" |}.

(** No character of [l1] is in [l2]. *)
Definition apart (l1 l2 : list ascii) : bool :=
  forallb (fun a => forallb (fun b => negb (Ascii.eqb a b)) l2) l1.

(** A table that breaks distinctness: ">" is both [gt] and [lbracket]. *)
Definition shared : Chars.t :=
  {| Chars.gt := ">"; Chars.lt := "<"; Chars.plus := "+"; Chars.minus := "-";
     Chars.period := "."; Chars.comma := ","; Chars.lbracket := ">";
     Chars.rbracket := "]" |}.

(** The operations in the order of the tests of lines 143-197. *)
Definition ops : list Op :=
  [MoveRight; MoveLeft; Increment; Decrement; Output; Input; LoopOpen;
   LoopClose].

(** The tape with cell 0 set to [a] and cell 1 to [b], the cursor on
    cell 1. *)
Definition two_cells (a b : Z) (input : list Z) : State :=
  set_ptr (set_array (initial input)
             (<[1%nat := b]> (<[0%nat := a]> (array (initial input))))) 1.

(** The program text without its comments: the characters that stand
    for no operation are dropped. *)
Fixpoint strip (cs : Chars.t) (code : list ascii) : list ascii :=
  match code with
  | [] => []
  | char :: code =>
      match resolve cs char with
      | Some _ => char :: strip cs code
      | None => strip cs code
      end
  end.

(** The position in [strip cs code] that corresponds to position [i] of
    [code]: the number of operations before [i]. *)
Definition pos (cs : Chars.t) (code : list ascii) (i : Z) : Z :=
  len (strip cs (take (Z.to_nat i) code)).

(** Position [i] of [code] holds an operation. *)
Definition operation_at (cs : Chars.t) (code : list ascii) (i : Z) : Prop :=
  0 <= i /\
  exists char, code !! Z.to_nat i = Some char /\ resolve cs char <> None.

(** The local variables [l] of a run on [code] and [l'] of the run on
    [strip cs code] that goes with it. *)
Definition stripped (cs : Chars.t) (code : list ascii) (l l' : Locals)
    : Prop :=
  stdout l' = stdout l /\
  0 <= index l <= len code /\
  index l' = pos cs code (index l) /\
  (forall i t, jumps l !! i = Some t -> operation_at cs code t) /\
  (forall i, operation_at cs code i ->
     jumps l' !! pos cs code i = pos cs code <$> jumps l !! i).

(** The outcome [st'] of an iteration on [strip cs code] goes with the
    outcome [st] of an iteration on [code]. *)
Definition step_stripped (cs : Chars.t) (code : list ascii) (st st' : Step)
    : Prop :=
  match st with
  | Next l1 s1 => exists l1', st' = Next l1' s1 /\ stripped cs code l1 l1'
  | Leave r s1 => st' = Leave r s1
  end.

(** The sequence of operations a program text spells, comments left
    out. *)
Definition operations (cs : Chars.t) (code : list ascii) : list Op :=
  omap (resolve cs) code.

(** Every opening bracket has a closing bracket that matches it, and
    every closing bracket an opening one. *)
Definition paired (cs : Chars.t) (code : list ascii) : Prop :=
  (forall (q : nat) o, code !! q = Some o -> delta cs o = 1 ->
     exists p, matching cs code (Z.of_nat q) p) /\
  (forall (p : nat) c, code !! p = Some c -> delta cs c = -1 ->
     exists q, matching cs code q (Z.of_nat p)).

(** The move loop of the tests. *)
Definition move_code : list ascii := prog "[->+<]".

(** An engine seen from its first two cells: the tape is [a], [b] and
    then [rest], the cursor is at [p]. *)
Definition cells (rest input : list Z) (ev : list Event) (a b p : Z)
    : State :=
  {| array := a :: b :: rest; ptr := p; stdin := input; events := ev |}.

(** The local variables at position [i] of a text without output. *)
Definition at_index (J : gmap Z Z) (i : Z) : Locals :=
  {| stdout := false; jumps := J; index := i |}.

(** [jumps] once the brackets of [move_code] are paired. *)
Definition move_jumps : gmap Z Z := <[0 := 5]> (<[5 := 0]> ∅).

(** ** Bytes, straight-line texts and the dictionary [jumps] *)

(** The values [(x + 1) % 256] and [(x - 1) % 256] take, and the values
    of [ord] on a stream of bytes. *)
Definition byte (v : Z) : Prop := 0 <= v < 256.



(** What a character adds to the current cell when the main loop takes
    it for one of the two arithmetic operations. *)
Definition add (cs : Chars.t) (char : ascii) : Z :=
  match resolve cs char with
  | Some Increment => 1
  | Some Decrement => -1
  | _ => 0
  end.

Definition adds (cs : Chars.t) (code : list ascii) : Z :=
  total (add cs <$> code).

(** A program of increments and decrements only. *)
Definition only_adds (cs : Chars.t) (code : list ascii) : Prop :=
  Forall (fun char => resolve cs char = Some Increment \/
                      resolve cs char = Some Decrement) code.


(** The number of characters of the text taken for the operation
    Input. *)
Definition inputs (cs : Chars.t) (code : list ascii) : Z :=
  total ((fun char => match resolve cs char with
                      | Some Input => 1
                      | _ => 0
                      end) <$> code).

(** Every entry of [jumps] joins two brackets that match. *)
Definition paired_jumps (cs : Chars.t) (code : list ascii) (J : gmap Z Z)
    : Prop :=
  forall k v, J !! k = Some v -> matching cs code k v \/ matching cs code v k.

(** The events [ev] extend [ev0] by printed characters and then, at
    most, one call of [handleError]. *)
Definition output_then_error (ev0 ev : list Event) (r : Py bool) : Prop :=
  exists out : list Z,
    ev = ev0 ++ (PutChar <$> out) \/
    exists side b, r = Ok b /\
                   ev = ev0 ++ (PutChar <$> out) ++ [HandleError side].

(** ** [TrollInterpreter] (Base.py) and [ResetTrollInterpreter] (Trolls.py) *)

(** [self.aliases], as [TrollInterpreter.setChars] builds it from the
    table it has drawn: the items of a dictionary display are stored
    from left to right, a later one replacing an earlier one with the
    same key. *)
Definition aliases (cs : Chars.t) : gmap ascii ascii :=
  <[Chars.rbracket cs := "]"%char]>
    (<[Chars.lbracket cs := "["%char]>
       (<[Chars.comma cs := ","%char]>
          (<[Chars.period cs := "."%char]>
             (<[Chars.minus cs := "-"%char]>
                (<[Chars.plus cs := "+"%char]>
                   (<[Chars.lt cs := "<"%char]>
                      (<[Chars.gt cs := ">"%char]> ∅))))))).

(** [TrollInterpreter.printDirective]: the pairs [alias --> char] it
    prints between its two banners, one per line, in the order in which
    the dictionary enumerates its items, which is left open here. *)
Definition printDirective (cs : Chars.t) : list (ascii * ascii) :=
  map_to_list (aliases cs).

(** An object of a class derived from [TrollInterpreter]: the engine
    and the table [setChars] has drawn. *)
Record Troll := MkTroll {
  engine : State;
  chars : Chars.t;
}.

(** [TrollInterpreter.execute], with the method [troll] of the derived
    class as a parameter: the text "HELPPLZ!!!" prints the directive and
    returns [None]; any other text is interpreted, and [troll] is
    called when [interpret] has returned. *)
Definition TrollInterpreter_execute (troll : Troll -> Troll) (fuel : nat)
    (code : list ascii) (self : Troll) : option (Py (option bool) * Troll) :=
  if decide (code = prog "HELPPLZ!!!") then Some (Ok None, self)
  else match interpret fuel (chars self) code (engine self) with
       | None => None
       | Some (Raise e, s) =>
           Some (Raise e, {| engine := s; chars := chars self |})
       | Some (Ok stdout, s) =>
           Some (Ok (Some stdout), troll {| engine := s; chars := chars self |})
       end.

(** [ResetTrollInterpreter.troll] *)
Definition ResetTrollInterpreter_troll (self : Troll) : Troll :=
  {| engine := reset (engine self); chars := chars self |}.

Definition ResetTrollInterpreter_execute :=
  TrollInterpreter_execute ResetTrollInterpreter_troll.

(** What a caller sees of a troll interpreter after a call: the result,
    the tape, the cursor, the rest of the input and the table. *)
Definition troll_after (res : option (Py (option bool) * Troll))
    : option (Py (option bool) * list Z * Z * list Z * Chars.t) :=
  match res with
  | Some (r, self) =>
      Some (r, array (engine self), ptr (engine self), stdin (engine self),
            chars self)
  | None => None
  end.

(** ** The console (Brainfuck.py) *)

(** The console reads its lines with [raw_input], which Python 2 has
    and Python 3 has not, while the rest of the package runs on both.
    The one point of the console where the two differ is left open:
    [python2] says whether an integer literal that starts with 0 is
    written in octal, or is a syntax error unless it is zero. *)

(** [\d] *)
Definition is_digit (c : ascii) : bool :=
  (48 <=? nat_of_ascii c)%nat && (nat_of_ascii c <=? 57)%nat.

(** [\d*]: the longest run of digits at the front of a text, and what
    follows it. *)
Fixpoint digits (text : list ascii) : list ascii * list ascii :=
  match text with
  | c :: rest =>
      if is_digit c then let (ds, rest) := digits rest in (c :: ds, rest)
      else ([], text)
  | [] => ([], [])
  end.

(** [$]: the end of the text, or a newline that ends it. *)
Definition at_end (text : list ascii) : bool :=
  match text with
  | [] => true
  | [c] => Ascii.eqb c "010"
  | _ => false
  end.

(** What follows [prefix] in a text that starts with it. *)
Fixpoint after (prefix text : list ascii) : option (list ascii) :=
  match prefix, text with
  | [], _ => Some text
  | p :: prefix, c :: text =>
      if Ascii.eqb p c then after prefix text else None
  | _ :: _, [] => None
  end.

(** The argument of the command ARRPLZ: the digits on both sides of the
    colon, or the digits of an index. *)
Inductive Indices :=
| Slice (lower upper : list ascii)
| Item (i : list ascii).

(** [match('^ARRPLZ\[\d*:\d*\]$', code)], line 234. *)
Definition match_slice (code : list ascii) : option Indices :=
  match after (prog "ARRPLZ[") code with
  | None => None
  | Some rest =>
      let (lower, rest) := digits rest in
      match rest with
      | ":"%char :: rest =>
          let (upper, rest) := digits rest in
          match rest with
          | "]"%char :: rest =>
              if at_end rest then Some (Slice lower upper) else None
          | _ => None
          end
      | _ => None
      end
  end.

(** [match('^ARRPLZ\[\d+]$', code)], line 235. *)
Definition match_item (code : list ascii) : option Indices :=
  match after (prog "ARRPLZ[") code with
  | None => None
  | Some rest =>
      let (i, rest) := digits rest in
      match i, rest with
      | _ :: _, "]"%char :: rest => if at_end rest then Some (Item i) else None
      | _, _ => None
      end
  end.

(** The condition of lines 234-235. *)
Definition ARRPLZ (code : list ascii) : option Indices :=
  match match_slice code with
  | Some idx => Some idx
  | None => match_item code
  end.

(** The value of a digit, and of a run of digits in a base. *)
Definition digit_value (c : ascii) : Z := Z.of_nat (nat_of_ascii c) - 48.

Definition number (base : Z) (ds : list ascii) : Z :=
  foldl (fun n c => base * n + digit_value c) 0 ds.

Definition is_octal (c : ascii) : bool :=
  (48 <=? nat_of_ascii c)%nat && (nat_of_ascii c <=? 55)%nat.

(** An integer literal made of digits, [None] for a syntax error: a
    decimal number, unless it starts with 0; then it is an octal number
    in Python 2, where the digits 8 and 9 are an error, and in Python 3
    it is an error unless all its digits are 0.  The limit that recent
    versions of Python 3 put on the number of digits of a literal is
    left out. *)
Definition literal (python2 : bool) (ds : list ascii) : option Z :=
  match ds with
  | "0"%char :: rest =>
      if python2
      then if forallb is_octal rest then Some (number 8 rest) else None
      else if forallb (Ascii.eqb "0") rest then Some 0 else None
  | _ => Some (number 10 ds)
  end.

(** A bound of a slice: a literal, or nothing. *)
Definition bound (python2 : bool) (ds : list ascii) (default : Z)
    : option Z :=
  match ds with
  | [] => Some default
  | _ => literal python2 ds
  end.

(** What [print] shows for the commands PTRPLZ and ARRPLZ. *)
Inductive Shown :=
| ShowInt (n : Z)
| ShowList (cells : list Z).

(** The exceptions that end the console: [eval] of a text that is not
    an expression, and the exceptions of the engine. *)
Inductive Uncaught :=
| SyntaxError
| Raised (e : Exn).

(** [eval("interpreter.array" + indices)], lines 238-239, for the texts
    [indices = code[6:]] that the patterns let through: a slice never
    raises, its bounds are cut at the length of the list. *)
Definition subscript (python2 : bool) (idx : Indices) (array : list Z)
    : Uncaught + Shown :=
  match idx with
  | Slice lower upper =>
      match bound python2 lower 0, bound python2 upper (len array) with
      | Some a, Some b => inr (ShowList (slice array a b))
      | _, _ => inl SyntaxError
      end
  | Item i =>
      match literal python2 i with
      | None => inl SyntaxError
      | Some n =>
          match py_getitem array n with
          | Ok v => inr (ShowInt v)
          | Raise e => inl (Raised e)
          end
      end
  end.

(** How an iteration of the loop of line 210 ends: with [sys.exit], at
    the next prompt, with what the command has shown and the values of
    [stdout] and of the interpreter, or with an exception, since only
    [KeyboardInterrupt] is caught. *)
Inductive Turn (Self : Type) :=
| Exit (status : Z)
| Prompt (shown : option Shown) (stdout : option bool) (self : Self)
| Traceback (e : Uncaught) (self : Self).
Arguments Exit {Self} status.
Arguments Prompt {Self} shown stdout self.
Arguments Traceback {Self} e self.

(** The prompt of lines 215-219; [None] and [False] are both false. *)
Definition prompt (stdout : option bool) : string :=
  match stdout with
  | Some true => String "010" ">>> "
  | _ => ">>> "
  end.

Section Console.

(** The interpreter object of line 146-159: its method [execute] and
    its attributes [ptr] and [array]. *)
Context {Self : Type}.
Variable python2 : bool.
Variable interpreter_execute :
  nat -> list ascii -> Self -> option (Py (option bool) * Self).
Variable interpreter_ptr : Self -> Z.
Variable interpreter_array : Self -> list Z.

(** [args.interpreter == 'nice'] *)
Variable is_nice : bool.

(** Lines 221-242 for the line [code] read at the prompt; [lucky] is
    the outcome of [random() > 0.75]. *)
Definition turn (lucky : bool) (fuel : nat) (code : list ascii)
    (stdout : option bool) (self : Self) : option (Turn Self) :=
  if decide (code = prog "GMTFOH") then
    Some (if is_nice || lucky then Exit 0 else Prompt None stdout self)
  else if decide (code = prog "PTRPLZ") then
    Some (if is_nice || lucky
          then Prompt (Some (ShowInt (interpreter_ptr self))) stdout self
          else Prompt None stdout self)
  else
    match ARRPLZ code with
    | Some idx =>
        Some (if is_nice || lucky
              then match subscript python2 idx (interpreter_array self) with
                   | inr shown => Prompt (Some shown) stdout self
                   | inl e => Traceback e self
                   end
              else Prompt None stdout self)
    | None =>
        match interpreter_execute fuel code self with
        | None => None
        | Some (Ok r, self') => Some (Prompt None r self')
        | Some (Raise e, self') => Some (Traceback (Raised e) self')
        end
    end.

End Console.

(** [NiceInterpreter.execute] as the console calls it. *)
Definition NiceInterpreter_execute (fuel : nat) (code : list ascii)
    (self : State) : option (Py (option bool) * State) :=
  match execute fuel nice code self with
  | None => None
  | Some (Ok stdout, s) => Some (Ok (Some stdout), s)
  | Some (Raise e, s) => Some (Raise e, s)
  end.

(** The console of [NiceInterpreter]. *)
Definition nice_turn (python2 : bool) :=
  turn python2 NiceInterpreter_execute ptr array true.

(** The console of [ResetTrollInterpreter]. *)
Definition reset_turn (python2 : bool) :=
  turn python2 ResetTrollInterpreter_execute (fun self => ptr (engine self))
    (fun self => array (engine self)) false.

(** The lines that are commands of the console. *)
Definition special (code : list ascii) : bool :=
  bool_decide (code = prog "GMTFOH") || bool_decide (code = prog "PTRPLZ") ||
  match ARRPLZ code with Some _ => true | None => false end.

(** What stops a run of digits: the end of the text or a character that
    is not a digit. *)
Definition no_digit (text : list ascii) : Prop :=
  match text with
  | [] => True
  | c :: _ => is_digit c = false
  end.

(** ** A text inside a longer text *)

(** The result of a call on a text when [b0] says whether a character
    was printed before it. *)
Definition lift (b0 : bool) (r : Py bool) : Py bool :=
  match r with
  | Ok b => Ok (b0 || b)
  | Raise e => Raise e
  end.

(** The result of a search moved [d] characters to the right. *)
Definition shift (d : Z) (scan : Scan) : Scan :=
  match scan with
  | Found q => Found (d + q)
  | Unmatched => Unmatched
  | ScanRaise e => ScanRaise e
  end.

(** The local variables [la] of a run on a text and [lb] of the run
    that goes with it on a longer text in which the first one starts at
    position [d]: the positions correspond, [stdout] has gone through
    [lift], and both dictionaries hold matching pairs only. *)
Definition embedded (cs : Chars.t) (codeA codeB : list ascii) (d : Z)
    (b0 : bool) (la lb : Locals) : Prop :=
  index lb = d + index la /\
  stdout lb = b0 || stdout la /\
  0 <= index la <= len codeA /\
  paired_jumps cs codeA (jumps la) /\
  paired_jumps cs codeB (jumps lb).

(** How the searches on the longer text are related to those on the
    shorter one. *)
Definition searches_embedded (cs : Chars.t) (codeA codeB : list ascii)
    (d : Z) : Prop :=
  (forall i o, 0 <= i -> codeA !! Z.to_nat i = Some o -> delta cs o = 1 ->
     scan_right cs codeB (d + i) 1 = shift d (scan_right cs codeA i 1)) /\
  (forall i c, 0 <= i -> codeA !! Z.to_nat i = Some c -> delta cs c = -1 ->
     scan_left cs codeB (d + i) (-1) = shift d (scan_left cs codeA i (-1))).

(** The text [codeA] is the part of [codeB] that starts at position
    [d], and the searches of a run on [codeA] are those of the run on
    [codeB]. *)
Definition inside (cs : Chars.t) (codeA codeB : list ascii) (d : Z) : Prop :=
  0 <= d /\ d + len codeA <= len codeB /\
  (forall i, 0 <= i < len codeA ->
     codeB !! Z.to_nat (d + i) = codeA !! Z.to_nat i) /\
  searches_embedded cs codeA codeB d.

(** * Properties *)

(** Closed runs are evaluated by the virtual machine. *)
Ltac by_vm :=
  match goal with
  | |- ?lhs = ?rhs => vm_cast_no_check (eq_refl rhs)
  end.

(** ** Indexing *)

Lemma len_nonneg {A} (l : list A) : 0 <= len l.
Proof. unfold len. lia. Qed.

Lemma len_fmap {A B} (f : A -> B) (l : list A) : len (f <$> l) = len l.
Proof. unfold len. by rewrite length_fmap. Qed.

Lemma py_getitem_inside {A} (l : list A) (i : Z) :
  0 <= i < len l ->
  exists x, l !! Z.to_nat i = Some x /\ py_getitem l i = Ok x.
Proof.
  intros Hi. unfold py_getitem.
  destruct (Z.ltb_spec i 0) as [?|_]; [lia|].
  destruct (Z.ltb_spec i 0) as [?|_]; [lia|].
  destruct (lookup_lt_is_Some_2 l (Z.to_nat i)) as [x Hx].
  { unfold len in Hi. lia. }
  exists x. by rewrite Hx.
Qed.

Lemma py_getitem_lookup {A} (l : list A) (i : Z) (x : A) :
  0 <= i -> l !! Z.to_nat i = Some x -> py_getitem l i = Ok x.
Proof.
  intros Hi Hx. unfold py_getitem.
  destruct (Z.ltb_spec i 0) as [?|_]; [lia|].
  destruct (Z.ltb_spec i 0) as [?|_]; [lia|].
  by rewrite Hx.
Qed.

Lemma py_getitem_elem_of {A} (l : list A) (i : Z) (x : A) :
  py_getitem l i = Ok x -> x ∈ l.
Proof.
  unfold py_getitem. destruct (_ <? 0); [done|].
  destruct (l !! _) eqn:E; [|done]. intros [= <-].
  by eapply list_elem_of_lookup_2.
Qed.

Lemma py_getitem_beyond {A} (l : list A) (i : Z) :
  len l <= i -> py_getitem l i = Raise IndexError.
Proof.
  intros Hi. pose proof (len_nonneg l). unfold py_getitem.
  destruct (Z.ltb_spec i 0) as [?|_]; [lia|].
  destruct (Z.ltb_spec i 0) as [?|_]; [lia|].
  rewrite lookup_ge_None_2; [done|]. unfold len in Hi. lia.
Qed.

Lemma py_getitem_fmap {A B} (f : A -> B) (l : list A) (i : Z) :
  py_getitem (f <$> l) i =
  match py_getitem l i with
  | Ok x => Ok (f x)
  | Raise e => Raise e
  end.
Proof.
  unfold py_getitem. rewrite len_fmap.
  destruct (_ <? 0); [done|].
  rewrite list_lookup_fmap. by destruct (l !! _).
Qed.

Lemma py_setitem_len {A} (l l' : list A) (i : Z) (x : A) :
  py_setitem l i x = Ok l' -> len l' = len l.
Proof.
  unfold py_setitem. destruct (_ && _); [|discriminate].
  intros [= <-]. unfold len. by rewrite length_insert.
Qed.

(** ** The two searches *)

(** The searches satisfy the equations of the loops they embed: the
    bound on the number of iterations is never the reason to stop. *)
Lemma scan_right_eq cs code index paren :
  scan_right cs code index paren =
  if paren =? 0 then Found index
  else let index := index + 1 in
       if index =? len code then Unmatched
       else match py_getitem code index with
            | Raise e => ScanRaise e
            | Ok char => scan_right cs code index (count_paren cs char paren)
            end.
Proof.
  unfold scan_right.
  destruct (Z.le_gt_cases (len code) index) as [Hge|Hlt].
  - replace (Z.to_nat (len code - index)) with 0%nat by lia. simpl.
    destruct (paren =? 0); [done|].
    destruct (Z.eqb_spec (index + 1) (len code)); [lia|].
    rewrite py_getitem_beyond by lia. done.
  - replace (Z.to_nat (len code - index))
      with (S (Z.to_nat (len code - (index + 1)))) by lia.
    done.
Qed.

Lemma scan_left_eq cs code index paren :
  scan_left cs code index paren =
  if paren =? 0 then Found index
  else let index := index - 1 in
       if index <? 0 then Unmatched
       else match py_getitem code index with
            | Raise e => ScanRaise e
            | Ok char => scan_left cs code index (count_paren cs char paren)
            end.
Proof.
  unfold scan_left.
  destruct (Z.le_gt_cases index 0) as [Hle|Hgt].
  - replace (Z.to_nat index) with 0%nat by lia. simpl.
    destruct (paren =? 0); [done|].
    by destruct (Z.ltb_spec (index - 1) 0); [|lia].
  - replace (Z.to_nat index) with (S (Z.to_nat (index - 1))) by lia.
    done.
Qed.

Lemma count_paren_delta cs char paren :
  count_paren cs char paren = paren + delta cs char.
Proof.
  unfold count_paren, delta.
  destruct (Ascii.eqb _ _); [done|]. destruct (Ascii.eqb _ _); lia.
Qed.

Lemma delta_range cs char : -1 <= delta cs char <= 1.
Proof. unfold delta. repeat destruct (Ascii.eqb _ _); lia. Qed.

(** ** Sums of bracket counts *)

Lemma total_app (xs ys : list Z) : total (xs ++ ys) = total xs + total ys.
Proof. induction xs as [|x xs IH]; simpl; [done|]. rewrite IH. lia. Qed.

Lemma total_reverse (xs : list Z) : total (reverse xs) = total xs.
Proof.
  induction xs as [|x xs IH]; [done|].
  rewrite reverse_cons, total_app, IH. simpl. lia.
Qed.

Lemma small_delta cs code : small (delta cs <$> code).
Proof.
  apply Forall_fmap, Forall_forall. intros c _. apply delta_range.
Qed.

(** What [first_zero] returns, and when. *)
Lemma first_zero_spec ds paren k :
  first_zero ds paren = Some k ->
  (1 <= k <= length ds)%nat /\
  paren + total (take k ds) = 0 /\
  forall j, (1 <= j < k)%nat -> paren + total (take j ds) <> 0.
Proof.
  revert paren k. induction ds as [|d ds IH]; intros paren k; simpl; [done|].
  destruct (Z.eqb_spec (paren + d) 0) as [Hz|Hnz].
  - intros [= <-]. simpl. split; [lia|]. split; [rewrite ?take_0; simpl; lia|].
    intros j Hj. lia.
  - destruct (first_zero ds (paren + d)) as [k'|] eqn:E; [|done].
    intros [= <-]. destruct (IH _ _ E) as (Hk & Hsum & Hbefore).
    split; [lia|]. split; [simpl; lia|].
    intros j Hj. destruct j as [|j]; [lia|]. simpl.
    destruct (decide (j = 0%nat)) as [->|Hj0].
    + rewrite ?take_0. simpl. lia.
    + specialize (Hbefore j). lia.
Qed.

Lemma first_zero_intro ds paren k :
  (1 <= k <= length ds)%nat ->
  paren + total (take k ds) = 0 ->
  (forall j, (1 <= j < k)%nat -> paren + total (take j ds) <> 0) ->
  first_zero ds paren = Some k.
Proof.
  revert paren k. induction ds as [|d ds IH]; intros paren k Hk Hsum Hbefore;
    simpl in *; [lia|].
  destruct k as [|k]; [lia|]. simpl in Hsum.
  destruct (Z.eqb_spec (paren + d) 0) as [Hz|Hnz].
  - destruct k as [|k]; [done|].
    specialize (Hbefore 1%nat). simpl in Hbefore. rewrite ?take_0 in Hbefore.
    simpl in Hbefore. lia.
  - destruct k as [|k].
    { rewrite ?take_0 in Hsum. simpl in Hsum. lia. }
    rewrite (IH (paren + d) (S k)); [done|lia|lia|].
    intros j Hj. specialize (Hbefore (S j)). simpl in Hbefore. lia.
Qed.

(** A counter that starts below zero and moves by single steps reaches
    zero before it can be positive, and stays negative until then. *)
Lemma first_zero_below ds paren :
  small ds -> paren < 0 -> 0 <= paren + total ds ->
  exists k, first_zero ds paren = Some k.
Proof.
  intros Hs. revert paren. induction Hs as [|d ds Hd _ IH]; intros paren Hp Ht;
    simpl in *; [lia|].
  destruct (Z.eqb_spec (paren + d) 0); [by eexists|].
  destruct (IH (paren + d)) as [k Hk]; [lia|lia|].
  rewrite Hk. by eexists.
Qed.

Lemma first_zero_above ds paren :
  small ds -> 0 < paren -> paren + total ds <= 0 ->
  exists k, first_zero ds paren = Some k.
Proof.
  intros Hs. revert paren. induction Hs as [|d ds Hd _ IH]; intros paren Hp Ht;
    simpl in *; [lia|].
  destruct (Z.eqb_spec (paren + d) 0); [by eexists|].
  destruct (IH (paren + d)) as [k Hk]; [lia|lia|].
  rewrite Hk. by eexists.
Qed.

Lemma first_zero_negative ds paren k j :
  small ds -> paren < 0 -> first_zero ds paren = Some k ->
  (j < k)%nat -> paren + total (take j ds) < 0.
Proof.
  intros Hs. revert paren k j.
  induction Hs as [|d ds Hd _ IH]; intros paren k j Hp; simpl; [done|].
  destruct (Z.eqb_spec (paren + d) 0) as [Hz|Hnz].
  - intros [= <-] Hj. replace j with 0%nat by lia. simpl. lia.
  - destruct (first_zero ds (paren + d)) as [k'|] eqn:E; [|done].
    intros [= <-] Hj. destruct j as [|j]; simpl; [lia|].
    pose proof (IH (paren + d) k' j ltac:(lia) E ltac:(lia)). lia.
Qed.

Lemma first_zero_positive ds paren k j :
  small ds -> 0 < paren -> first_zero ds paren = Some k ->
  (j < k)%nat -> 0 < paren + total (take j ds).
Proof.
  intros Hs. revert paren k j.
  induction Hs as [|d ds Hd _ IH]; intros paren k j Hp; simpl; [done|].
  destruct (Z.eqb_spec (paren + d) 0) as [Hz|Hnz].
  - intros [= <-] Hj. replace j with 0%nat by lia. simpl. lia.
  - destruct (first_zero ds (paren + d)) as [k'|] eqn:E; [|done].
    intros [= <-] Hj. destruct j as [|j]; simpl; [lia|].
    pose proof (IH (paren + d) k' j ltac:(lia) E ltac:(lia)). lia.
Qed.

(** The search to the right passes over [code[index + 1:]], the search
    to the left over [code[:index]] read backwards; either stops at the
    first character that brings [paren] to zero. *)
Lemma scan_right_first_zero cs code index paren :
  -1 <= index < len code -> paren <> 0 ->
  scan_right cs code index paren =
  match first_zero (delta cs <$> drop (Z.to_nat (index + 1)) code) paren with
  | Some k => Found (index + Z.of_nat k)
  | None => Unmatched
  end.
Proof.
  remember (drop (Z.to_nat (index + 1)) code) as rest eqn:Hrest.
  revert index paren Hrest.
  induction rest as [|c rest IH]; intros index paren Hrest Hi Hp.
  - symmetry in Hrest. apply drop_nil_inv in Hrest.
    rewrite scan_right_eq. destruct (Z.eqb_spec paren 0); [done|]. simpl.
    unfold len in *. by destruct (Z.eqb_spec (index + 1) (Z.of_nat (length code))); [|lia].
  - assert (Hc : code !! Z.to_nat (index + 1) = Some c).
    { rewrite <- (Nat.add_0_r (Z.to_nat _)), <- lookup_drop, <- Hrest. done. }
    assert (Hlt : index + 1 < len code).
    { apply lookup_lt_Some in Hc. unfold len. lia. }
    rewrite scan_right_eq. destruct (Z.eqb_spec paren 0); [done|]. simpl.
    destruct (Z.eqb_spec (index + 1) (len code)); [lia|].
    rewrite (py_getitem_lookup _ _ c) by (done || lia).
    rewrite count_paren_delta.
    destruct (Z.eqb_spec (paren + delta cs c) 0) as [Hz|Hnz].
    + rewrite Hz, scan_right_eq. simpl. f_equal; lia.
    + assert (Hdrop : rest = drop (Z.to_nat (index + 1 + 1)) code).
      { replace (Z.to_nat (index + 1 + 1)) with (S (Z.to_nat (index + 1))) by lia.
        rewrite <- Nat.add_1_r, <- drop_drop, <- Hrest. done. }
      rewrite (IH (index + 1) (paren + delta cs c) Hdrop) by (lia || done).
      destruct (first_zero _ _); simpl; [f_equal; lia|done].
Qed.

Lemma scan_left_first_zero_nat cs code (n : nat) paren :
  (n <= length code)%nat -> paren <> 0 ->
  scan_left cs code (Z.of_nat n) paren =
  match first_zero (delta cs <$> reverse (take n code)) paren with
  | Some k => Found (Z.of_nat n - Z.of_nat k)
  | None => Unmatched
  end.
Proof.
  revert paren. induction n as [|n IH]; intros paren Hn Hp.
  - rewrite scan_left_eq. by destruct (Z.eqb_spec paren 0).
  - destruct (lookup_lt_is_Some_2 code n) as [c Hc]; [lia|].
    rewrite (take_S_r _ _ c), reverse_app by done. simpl.
    rewrite scan_left_eq. destruct (Z.eqb_spec paren 0); [done|]. simpl.
    destruct (Z.ltb_spec (Z.of_nat (S n) - 1) 0); [lia|].
    replace (Z.of_nat (S n) - 1) with (Z.of_nat n) by lia.
    rewrite (py_getitem_lookup _ _ c) by (lia || by rewrite Nat2Z.id).
    rewrite count_paren_delta.
    destruct (Z.eqb_spec (paren + delta cs c) 0) as [Hz|Hnz].
    + rewrite Hz, scan_left_eq. simpl. f_equal; lia.
    + rewrite IH by (lia || done).
      destruct (first_zero _ _); simpl; [f_equal; lia|done].
Qed.

Lemma scan_left_first_zero cs code index paren :
  0 <= index <= len code -> paren <> 0 ->
  scan_left cs code index paren =
  match first_zero (delta cs <$> reverse (take (Z.to_nat index) code)) paren with
  | Some k => Found (index - Z.of_nat k)
  | None => Unmatched
  end.
Proof.
  intros Hi Hp.
  pose proof (scan_left_first_zero_nat cs code (Z.to_nat index) paren) as H.
  rewrite Z2Nat.id in H by lia. apply H; [|done]. unfold len in Hi. lia.
Qed.

(** ** Nesting depth *)

Lemma depth_app cs xs ys : depth cs (xs ++ ys) = depth cs xs + depth cs ys.
Proof. unfold depth. by rewrite fmap_app, total_app. Qed.

Lemma depth_cons cs c xs : depth cs (c :: xs) = delta cs c + depth cs xs.
Proof. done. Qed.

Lemma depth_split cs code (n : nat) c :
  code !! n = Some c ->
  depth cs code = depth cs (take n code) + delta cs c + depth cs (drop (S n) code).
Proof.
  intros Hc. rewrite <- (take_drop_middle code n c) at 1 by done.
  rewrite depth_app, depth_cons. lia.
Qed.

(** [balanced_from] in terms of the depths of the prefixes. *)
Lemma balanced_from_spec cs d code :
  balanced_from cs d code = true <->
  (forall j, (1 <= j <= length code)%nat -> 0 <= d + depth cs (take j code)) /\
  d + depth cs code = 0.
Proof.
  revert d. induction code as [|c code IH]; intros d; simpl.
  - unfold depth. simpl. rewrite Z.eqb_eq. split; [|lia].
    intros ->. split; [intros; lia|lia].
  - rewrite andb_true_iff, Z.leb_le, IH, depth_cons. split.
    + intros (H0 & Hj & Ht). split; [|lia].
      intros [|j] Hlen; [lia|]. simpl. rewrite depth_cons.
      destruct j as [|j].
      * rewrite take_0. unfold depth. simpl. lia.
      * specialize (Hj (S j)). simpl in Hj. lia.
    + intros (Hj & Ht). split; [|split; [|lia]].
      * specialize (Hj 1%nat). simpl in Hj. rewrite take_0, depth_cons in Hj.
        unfold depth in Hj at 1. simpl in Hj. lia.
      * intros j Hlen. specialize (Hj (S j)). simpl in Hj.
        rewrite depth_cons in Hj. lia.
Qed.

Lemma balanced_prefix cs code (n : nat) :
  balanced cs code = true -> 0 <= depth cs (take n code).
Proof.
  intros [Hj Ht]%balanced_from_spec.
  destruct n as [|n]; [by rewrite take_0|].
  destruct (decide (S n <= length code)%nat) as [Hle|Hgt].
  - specialize (Hj (S n)). lia.
  - rewrite take_ge by lia. lia.
Qed.

Lemma balanced_total cs code : balanced cs code = true -> depth cs code = 0.
Proof. intros [_ Ht]%balanced_from_spec. lia. Qed.

(** In a balanced text the search to the right from an opening bracket
    and the search to the left from a closing bracket both succeed. *)
Lemma scan_right_balanced cs code (n : nat) c :
  balanced cs code = true -> code !! n = Some c -> delta cs c = 1 ->
  exists q, scan_right cs code (Z.of_nat n) 1 = Found q /\
            Z.of_nat n < q < len code.
Proof.
  intros Hb Hc Hd.
  pose proof (lookup_lt_Some _ _ _ Hc) as Hn.
  rewrite scan_right_first_zero by (unfold len; lia).
  replace (Z.to_nat (Z.of_nat n + 1)) with (S n) by lia.
  destruct (first_zero_above (delta cs <$> drop (S n) code) 1) as [k Hk].
  - apply small_delta.
  - lia.
  - pose proof (depth_split cs code n c Hc) as Hs.
    pose proof (balanced_prefix cs code n Hb).
    pose proof (balanced_total cs code Hb).
    unfold depth in *. lia.
  - rewrite Hk. eexists. split; [done|].
    apply first_zero_spec in Hk as (Hk & _).
    rewrite length_fmap, length_drop in Hk. unfold len. lia.
Qed.

Lemma scan_left_balanced cs code (n : nat) c :
  balanced cs code = true -> code !! n = Some c -> delta cs c = -1 ->
  exists q, scan_left cs code (Z.of_nat n) (-1) = Found q /\
            0 <= q < Z.of_nat n.
Proof.
  intros Hb Hc Hd.
  pose proof (lookup_lt_Some _ _ _ Hc) as Hn.
  rewrite scan_left_first_zero by (unfold len; lia).
  rewrite Nat2Z.id.
  destruct (first_zero_below (delta cs <$> reverse (take n code)) (-1)) as [k Hk].
  - apply small_delta.
  - lia.
  - pose proof (balanced_prefix cs code (S n) Hb) as Hp.
    rewrite (take_S_r _ _ c), depth_app in Hp by done.
    unfold depth in *. simpl in Hp.
    rewrite fmap_reverse, total_reverse. lia.
  - rewrite Hk. eexists. split; [done|].
    apply first_zero_spec in Hk as (Hk & _).
    rewrite length_fmap, length_reverse, length_take in Hk. lia.
Qed.

(** ** The main loop *)

(** The chain of tests of the main loop is a dispatch on [resolve]. *)
Lemma body_resolve cs code l s :
  body cs code l s =
  match py_getitem code (index l) with
  | Raise e => Leave (Raise e) s
  | Ok char => exec_op cs code (resolve cs char) l s
  end.
Proof.
  unfold body, resolve. destruct (py_getitem code (index l)); [|done].
  repeat (destruct (Ascii.eqb _ _); [done|]). done.
Qed.

Lemma resolve_glyph cs char op :
  resolve cs char = Some op -> char = glyph cs op.
Proof.
  unfold resolve.
  repeat match goal with
         | |- context [Ascii.eqb char ?x] =>
             destruct (Ascii.eqb_spec char x) as [->|?]; [by intros [= <-]|]
         end.
  done.
Qed.

Lemma resolve_LoopOpen cs char :
  resolve cs char = Some LoopOpen -> delta cs char = 1.
Proof.
  unfold resolve, delta.
  repeat (destruct (Ascii.eqb char _); [congruence|]). done.
Qed.

Lemma resolve_LoopClose cs char :
  resolve cs char = Some LoopClose -> delta cs char = -1.
Proof.
  unfold resolve, delta.
  repeat (destruct (Ascii.eqb char _); [congruence|]). done.
Qed.

Lemma iterate_S n cs code l s :
  iterate (S n) cs code l s =
  if index l <? len code then
    match body cs code l s with
    | Next l' s' => iterate n cs code l' s'
    | Leave r s' => Leave r s'
    end
  else Leave (Ok (stdout l)) s.
Proof. done. Qed.

(** Invariants of the main loop: [P] holds while the loop runs and [Q]
    when [interpret] is left. *)
Lemma iterate_inv cs code (P : Locals -> State -> Prop)
    (Q : Py bool -> State -> Prop) :
  (forall l s, P l s -> index l < len code ->
     match body cs code l s with
     | Next l' s' => P l' s'
     | Leave r s' => Q r s'
     end) ->
  (forall l s, P l s -> len code <= index l -> Q (Ok (stdout l)) s) ->
  forall n l s, P l s ->
    match iterate n cs code l s with
    | Next l' s' => P l' s'
    | Leave r s' => Q r s'
    end.
Proof.
  intros Hbody Hexit. induction n as [|n IH]; intros l s HP; simpl; [done|].
  destruct (Z.ltb_spec (index l) (len code)) as [Hlt|Hge].
  - specialize (Hbody l s HP Hlt).
    destruct (body cs code l s) as [l' s'|r s']; [by apply IH|done].
  - by apply Hexit.
Qed.

(** Once [interpret] is left, more fuel changes nothing. *)
Lemma iterate_Leave_more cs code n m l s r s' :
  iterate n cs code l s = Leave r s' -> (n <= m)%nat ->
  iterate m cs code l s = Leave r s'.
Proof.
  revert m l s. induction n as [|n IH]; intros m l s; simpl; [done|].
  intros H Hm. destruct m as [|m]; [lia|]. simpl.
  destruct (index l <? len code); [|done].
  destruct (body cs code l s); [|done]. apply IH; [done|lia].
Qed.

(** A result does not depend on the fuel, once there is enough. *)
Lemma interpret_more cs code n m s res :
  interpret n cs code s = Some res -> (n <= m)%nat ->
  interpret m cs code s = Some res.
Proof.
  unfold interpret. destruct (iterate n cs code entry s) as [|r s'] eqn:E;
    [done|].
  intros [= <-] Hm. by rewrite (iterate_Leave_more _ _ _ _ _ _ _ _ E Hm).
Qed.

Lemma only_output_refl ev : only_output ev ev.
Proof. exists []. simpl. by rewrite app_nil_r. Qed.

Lemma only_output_PutChar ev0 ev c :
  only_output ev0 ev -> only_output ev0 (ev ++ [PutChar c]).
Proof.
  intros [out ->]. exists (out ++ [c]). by rewrite fmap_app, app_assoc.
Qed.

(** In a balanced text an iteration adds no call of [handleError]. *)
Lemma body_quiet cs code ev0 l s :
  balanced cs code = true -> quiet ev0 l s -> index l < len code ->
  match body cs code l s with
  | Next l' s' => quiet ev0 l' s'
  | Leave r s' => only_output ev0 (events s')
  end.
Proof.
  intros Hb (Hi & Hj & Hev) Hlt. rewrite body_resolve.
  destruct (py_getitem_inside code (index l)) as (char & Hchar & ->); [lia|].
  destruct (resolve cs char) as [[]|] eqn:Hop; simpl.
  - unfold do_gt. destruct (py_mod _ _); simpl; [|done].
    repeat split; simpl; (lia || done).
  - unfold do_lt. destruct (py_mod _ _); simpl; [|done].
    repeat split; simpl; (lia || done).
  - unfold do_plus, do_add. destruct (py_bind _ _); simpl; [|done].
    repeat split; simpl; (lia || done).
  - unfold do_minus, do_add. destruct (py_bind _ _); simpl; [|done].
    repeat split; simpl; (lia || done).
  - unfold do_period, putChar.
    destruct (py_getitem (array s) (ptr s)); simpl; [|done].
    destruct (_ && _); simpl; [|done].
    repeat split; simpl; [lia|done|by apply only_output_PutChar].
  - unfold do_comma, getChar. destruct (stdin s); simpl; [done|].
    destruct (py_setitem _ _ _); simpl; [|done].
    repeat split; simpl; (lia || done).
  - unfold do_lbracket. destruct (py_getitem (array s) (ptr s)); [|done].
    destruct (_ =? 0); [|simpl; repeat split; simpl; (lia || done)].
    unfold do_jump. destruct (jumps l !! index l) as [target|] eqn:Hjump.
    { pose proof (Hj _ _ Hjump). simpl. repeat split; simpl; (lia || done). }
    apply resolve_LoopOpen in Hop.
    destruct (scan_right_balanced cs code _ char Hb Hchar Hop) as (q & Hq & ?).
    rewrite Z2Nat.id in Hq by lia. rewrite Hq. simpl.
    repeat split; simpl; [lia| |done].
    intros k v [[_ <-]|[_ [[_ <-]|[_ Hkv]]%lookup_insert_Some]]%lookup_insert_Some;
      [lia|lia|by eapply Hj].
  - unfold do_rbracket. destruct (py_getitem (array s) (ptr s)); [|done].
    destruct (negb _); [|simpl; repeat split; simpl; (lia || done)].
    unfold do_jump. destruct (jumps l !! index l) as [target|] eqn:Hjump.
    { pose proof (Hj _ _ Hjump). simpl. repeat split; simpl; (lia || done). }
    apply resolve_LoopClose in Hop.
    destruct (scan_left_balanced cs code _ char Hb Hchar Hop) as (q & Hq & ?).
    rewrite Z2Nat.id in Hq by lia. rewrite Hq. simpl.
    repeat split; simpl; [lia| |done].
    intros k v [[_ <-]|[_ [[_ <-]|[_ Hkv]]%lookup_insert_Some]]%lookup_insert_Some;
      [lia|lia|by eapply Hj].
  - repeat split; simpl; (lia || done).
Qed.

(** C2: while a program with properly nested brackets is executed,
    from any tape, cursor and input, [handleError] is never called:
    after any number of iterations of the main loop, finished or not,
    the events added so far are printed characters only; in particular
    so are those of a call that returns or raises. *)
Theorem balanced_never_handleError cs code s :
  balanced cs code = true ->
  (forall n, only_output (events s)
               (events (state_of (iterate n cs code entry s)))) /\
  (forall fuel r s', execute fuel cs code s = Some (r, s') ->
     only_output (events s) (events s')).
Proof.
  intros Hb.
  assert (Hn : forall n, only_output (events s)
                 (events (state_of (iterate n cs code entry s)))).
  { intros n.
    pose proof (iterate_inv cs code (quiet (events s))
                  (fun _ s' => only_output (events s) (events s'))) as Hinv.
    specialize (Hinv (fun l s0 H _ => body_quiet cs code _ l s0 Hb H ltac:(done))).
    specialize (Hinv (fun l s0 H _ => proj2 (proj2 H)) n entry s).
    destruct (iterate n cs code entry s); simpl; apply Hinv;
      (repeat split; simpl; [lia|done|apply only_output_refl]). }
  split; [done|].
  intros fuel r s'. unfold execute, interpret. specialize (Hn fuel).
  destruct (iterate fuel cs code entry s); [done|]. by intros [= <- <-].
Qed.

(** ** Runs of concrete programs *)

(** C1: on a freshly reset engine whose cell 0 is then set to 5, the
    program "[->+<]" returns with cell 0 = 0 and cell 1 = 5 (and nothing
    else changed); on a freshly reset engine, "+[->+<]" reaches the loop
    with cell 0 = 1 and returns with cell 0 = 0 and cell 1 = 1. *)
Theorem move_loop (input : list Z) :
  let s5 := set_array (initial input) (<[1%nat := 5]> (array (initial input))) in
  let s1 := set_array (initial input) (<[1%nat := 1]> (array (initial input))) in
  (execute 32 nice (prog "[->+<]") (seeded 5 input) = Some (Ok false, s5) /\
   array s5 !! 0%nat = Some 0 /\ array s5 !! 1%nat = Some 5) /\
  (iterate 1 nice (prog "+[->+<]") entry (initial input) =
     Next (set_index entry 1) (seeded 1 input) /\
   array (seeded 1 input) !! 0%nat = Some 1 /\
   execute 9 nice (prog "+[->+<]") (initial input) = Some (Ok false, s1) /\
   array s1 !! 0%nat = Some 0 /\ array s1 !! 1%nat = Some 1).
Proof.
  repeat split; by_vm.
Qed.

(** An instance of [balanced_never_handleError]. *)
Lemma balanced_never_handleError_witness :
  balanced nice (prog "+[->+<]>.") = true /\
  (forall n, only_output (events (initial []))
     (events (state_of (iterate n nice (prog "+[->+<]>.") entry (initial []))))) /\
  (forall fuel r s',
     execute fuel nice (prog "+[->+<]>.") (initial []) = Some (r, s') ->
     only_output (events (initial [])) (events s')).
Proof.
  split; [reflexivity|]. apply balanced_never_handleError. reflexivity.
Defined.

(** The three runs of lone brackets. *)
Lemma lone_lbracket_run (input : list Z) (n : nat) :
  execute (S n) nice (prog "[") (initial input) =
  Some (Ok false, handleError side_left (initial input)).
Proof. by_vm. Qed.

Lemma lone_rbracket_run (input : list Z) (n : nat) :
  execute (S (S n)) nice (prog "]") (initial input) =
  Some (Ok false, initial input).
Proof. by_vm. Qed.

Lemma plus_rbracket_run (input : list Z) (n : nat) :
  execute (S (S (S n))) nice (prog "+]") (initial input) =
  Some (Ok false, handleError side_right (seeded 1 input)).
Proof. by_vm. Qed.

(** C3, as stated, fails for "]": on a freshly reset engine the current
    cell is 0, the branch of lines 200-222 is skipped, and the call
    returns without any call of [handleError]. *)
Lemma lone_rbracket_not_reported :
  ~ exists fuel r s',
      execute fuel nice (prog "]") (initial []) = Some (r, s') /\
      HandleError side_right ∈ events s'.
Proof.
  intros (fuel & r & s' & Hrun & Hin).
  destruct fuel as [|[|fuel]]; [discriminate Hrun..|].
  rewrite lone_rbracket_run in Hrun. injection Hrun as <- <-.
  by apply elem_of_nil in Hin.
Qed.

(** C3, amended: on a freshly reset engine [NiceInterpreter] executes
    "[" by calling [handleError(side='left')] and returning; it executes
    "]" by returning without a call of the handler, the current cell
    being 0; and once the current cell is not 0, as in "+]", it executes
    "]" by calling [handleError(side='right')] and returning.  Tape and
    cursor are those reached before the bracket. *)
Theorem lone_brackets (input : list Z) (n : nat) :
  execute (S n) nice (prog "[") (initial input) =
    Some (Ok false, handleError side_left (initial input)) /\
  execute (S (S n)) nice (prog "]") (initial input) =
    Some (Ok false, initial input) /\
  execute (S (S (S n))) nice (prog "+]") (initial input) =
    Some (Ok false, handleError side_right (seeded 1 input)).
Proof.
  split; [apply lone_lbracket_run|].
  split; [apply lone_rbracket_run|apply plus_rbracket_run].
Qed.

(** ** The move loop, for every value *)

Section MoveLoop.

Variables (rest input : list Z) (ev : list Event).
Hypothesis Hrest : len rest = 29998.

Local Abbreviation tape := (cells rest input ev).

Lemma len_cells a b : len (a :: b :: rest) = 30000.
Proof. unfold len in *. simpl length. lia. Qed.

Lemma gt_cells l a b : do_gt l (tape a b 0) = advance l (tape a b 1).
Proof. unfold do_gt. simpl. by rewrite len_cells. Qed.

Lemma lt_cells l a b : do_lt l (tape a b 1) = advance l (tape a b 0).
Proof. unfold do_lt. simpl. by rewrite len_cells. Qed.

Lemma add_cell0 d l a b :
  do_add d l (tape a b 0) = advance l (tape ((a + d) mod 256) b 0).
Proof. unfold do_add, py_setitem. simpl. by rewrite ?len_cells. Qed.

Lemma add_cell1 d l a b :
  do_add d l (tape a b 1) = advance l (tape a ((b + d) mod 256) 1).
Proof.
  unfold do_add, py_setitem. cbn [py_getitem py_bind py_mod array ptr tape cells].
  simpl py_getitem. simpl py_bind. rewrite ?len_cells. done.
Qed.

Lemma rbracket_cells J a b :
  do_rbracket nice move_code (at_index J 5) (tape a b 0) =
  if a =? 0 then advance (at_index J 5) (tape a b 0)
  else do_jump (scan_left nice move_code 5 (-1)) side_right (at_index J 5)
         (tape a b 0).
Proof. unfold do_rbracket. simpl. by destruct (a =? 0). Qed.

Lemma lbracket_cells J a b :
  do_lbracket nice move_code (at_index J 0) (tape a b 0) =
  if a =? 0
  then do_jump (scan_right nice move_code 0 1) side_left (at_index J 0)
         (tape a b 0)
  else advance (at_index J 0) (tape a b 0).
Proof. unfold do_lbracket. simpl. by destruct (a =? 0). Qed.

(** One step of the main loop at a position of [move_code]. *)
Lemma move_step n J i s char :
  py_getitem move_code i = Ok char -> i < 6 ->
  iterate (S n) nice move_code (at_index J i) s =
  match exec_op nice move_code (resolve nice char) (at_index J i) s with
  | Next l' s' => iterate n nice move_code l' s'
  | Leave r s' => Leave r s'
  end.
Proof.
  intros Hchar Hi. rewrite iterate_S, body_resolve.
  change (index (at_index J i)) with i. change (len move_code) with 6.
  destruct (Z.ltb_spec i 6); [|lia]. by rewrite Hchar.
Qed.

(** One round of the loop: the body, and the test at the closing
    bracket. *)
Lemma move_round n J a b :
  J = ∅ \/ J = move_jumps -> 1 <= a < 256 ->
  iterate (5 + n) nice move_code (at_index J 1) (tape a b 0) =
  if a =? 1
  then iterate n nice move_code (at_index J 6) (tape 0 ((b + 1) mod 256) 0)
  else iterate n nice move_code (at_index move_jumps 1)
         (tape (a - 1) ((b + 1) mod 256) 0).
Proof.
  intros HJ Ha. change (5 + n)%nat with (S (S (S (S (S n))))).
  rewrite (move_step _ J 1 _ "-") by done. simpl exec_op.
  unfold do_minus. rewrite add_cell0. unfold advance. simpl set_index.
  fold (at_index J 2).
  rewrite (move_step _ J 2 _ ">") by done. simpl exec_op.
  rewrite gt_cells. unfold advance. simpl set_index. fold (at_index J 3).
  rewrite (move_step _ J 3 _ "+") by done. simpl exec_op.
  unfold do_plus. rewrite add_cell1. unfold advance. simpl set_index.
  fold (at_index J 4).
  rewrite (move_step _ J 4 _ "<") by done. simpl exec_op.
  rewrite lt_cells. unfold advance. simpl set_index. fold (at_index J 5).
  rewrite (move_step _ J 5 _ "]") by done. simpl exec_op.
  replace ((a + -1) mod 256) with (a - 1) by (rewrite Z.mod_small; lia).
  rewrite rbracket_cells.
  destruct (Z.eqb_spec a 1) as [->|Hne]; [done|].
  destruct (Z.eqb_spec (a - 1) 0); [lia|]. unfold do_jump.
  change (jumps (at_index J 5) !! index (at_index J 5)) with (J !! 5).
  destruct HJ as [-> | ->].
  - rewrite lookup_empty.
    by change (scan_left nice move_code 5 (-1)) with (Found 0).
  - by change (move_jumps !! 5) with (Some 0).
Qed.

(** The loop, entered with [a] in cell 0, ends with 0 there and [a]
    more in cell 1. *)
Lemma move_rounds (a : nat) J b :
  J = ∅ \/ J = move_jumps -> 1 <= Z.of_nat a < 256 ->
  exists n,
    iterate n nice move_code (at_index J 1) (tape (Z.of_nat a) b 0) =
    Leave (Ok false) (tape 0 ((b + Z.of_nat a) mod 256) 0).
Proof.
  revert J b. induction a as [|a IH]; intros J b HJ Ha; [lia|].
  destruct (Z.eqb_spec (Z.of_nat (S a)) 1) as [H1|Hne].
  - exists (5 + 1)%nat. rewrite move_round, H1 by done. done.
  - destruct (IH move_jumps ((b + 1) mod 256)) as [n Hn]; [by right|lia|].
    exists (5 + n)%nat. rewrite move_round by done.
    destruct (Z.eqb_spec (Z.of_nat (S a)) 1); [done|].
    replace (Z.of_nat (S a) - 1) with (Z.of_nat a) by lia.
    rewrite Hn.
    replace (((b + 1) mod 256 + Z.of_nat a) mod 256)
      with ((b + Z.of_nat (S a)) mod 256); [done|].
    rewrite Zplus_mod_idemp_l. f_equal. lia.
Qed.

Lemma move_loop_cells v w :
  0 <= v < 256 -> 0 <= w < 256 ->
  exists fuel,
    execute fuel nice move_code (tape v w 0) =
    Some (Ok false, tape 0 ((w + v) mod 256) 0).
Proof.
  intros Hv Hw. unfold execute, interpret. change entry with (at_index ∅ 0).
  destruct (Z.eqb_spec v 0) as [->|Hne].
  - exists 2%nat. rewrite (move_step _ ∅ 0 _ "[") by done. simpl exec_op.
    rewrite lbracket_cells. simpl. rewrite Z.add_0_r, Z.mod_small by done.
    done.
  - destruct (move_rounds (Z.to_nat v) ∅ w) as [n Hn]; [by left|lia|].
    rewrite Z2Nat.id in Hn by lia.
    exists (S n). rewrite (move_step _ ∅ 0 _ "[") by done. simpl exec_op.
    rewrite lbracket_cells. destruct (Z.eqb_spec v 0); [done|].
    unfold advance. change (set_index (at_index ∅ 0) _) with (at_index ∅ 1).
    by rewrite Hn.
Qed.

End MoveLoop.

(** X14: the move loop "[->+<]" on any engine of 30000 cells with the
    cursor on cell 0 and bytes [v] and [w] in the first two cells: for
    every such state the call returns, without output, with cell 0 at
    0 and cell 1 at [(w + v) mod 256], and nothing else changed. *)
Lemma move_loop_any s v w :
  well_formed s -> ptr s = 0 ->
  array s !! 0%nat = Some v -> array s !! 1%nat = Some w ->
  0 <= v < 256 -> 0 <= w < 256 ->
  exists fuel,
    execute fuel nice move_code s =
    Some (Ok false,
          set_array s (<[1%nat := (w + v) mod 256]> (<[0%nat := 0]> (array s)))).
Proof.
  destruct s as [[|a [|b rest]] p input ev]; simpl; intros [Hlen _] -> Ha Hb;
    try done.
  injection Ha as ->. injection Hb as ->.
  apply (move_loop_cells rest input ev). unfold len in *. simpl in Hlen. lia.
Qed.

(** An instance of [move_loop_any]: 200 moved onto 100. *)
Lemma move_loop_any_witness :
  let s := set_ptr (two_cells 200 100 []) 0 in
  (well_formed s /\ ptr s = 0 /\
   array s !! 0%nat = Some 200 /\ array s !! 1%nat = Some 100) /\
  exists fuel,
    execute fuel nice move_code s =
    Some (Ok false,
          set_array s (<[1%nat := (100 + 200) mod 256]>
                         (<[0%nat := 0]> (array s)))).
Proof.
  intros s.
  assert (Hwf : well_formed s) by (split; [by vm_compute|simpl; lia]).
  split; [by repeat split|].
  exact (move_loop_any s 200 100 Hwf eq_refl eq_refl eq_refl
           ltac:(lia) ltac:(lia)).
Defined.

(** ** Unmatched brackets *)

(** The events are written, never read. *)
Lemma body_agree cs code l s1 s2 :
  agree s1 s2 -> step_agree (body cs code l s1) (body cs code l s2).
Proof.
  destruct s1 as [a1 p1 i1 e1], s2 as [a2 p2 i2 e2].
  intros (Ha & Hp & Hi). simpl in *. subst a2 p2 i2.
  rewrite !body_resolve. destruct (py_getitem code (index l)); [|done].
  destruct (resolve cs a) as [[]|]; simpl;
    unfold do_gt, do_lt, do_plus, do_minus, do_add, do_period, do_comma,
      do_lbracket, do_rbracket, do_jump, putChar, getChar; simpl.
  - by destruct (py_mod _ _).
  - by destruct (py_mod _ _).
  - by destruct (py_bind _ _).
  - by destruct (py_bind _ _).
  - destruct (py_getitem a1 p1); simpl; [|done]. by destruct (_ && _).
  - destruct i1; [done|]. by destruct (py_setitem _ _ _).
  - destruct (py_getitem a1 p1); [|done]. destruct (_ =? 0); [|done].
    destruct (jumps l !! index l); [done|]. by destruct (scan_right _ _ _ _).
  - destruct (py_getitem a1 p1); [|done]. destruct (negb _); [|done].
    destruct (jumps l !! index l); [done|]. by destruct (scan_left _ _ _ _).
  - done.
Qed.

Lemma iterate_agree cs code n l s1 s2 :
  agree s1 s2 ->
  step_agree (iterate n cs code l s1) (iterate n cs code l s2).
Proof.
  revert l s1 s2. induction n as [|n IH]; intros l s1 s2 H; simpl; [done|].
  destruct (index l <? len code); [|done].
  pose proof (body_agree cs code l s1 s2 H) as Hb.
  destruct (body cs code l s1), (body cs code l s2); simpl in Hb; try done.
  destruct Hb as [<- Hb]. by apply IH.
Qed.

Lemma interpret_agree cs code fuel s1 s2 :
  agree s1 s2 ->
  engine_after (interpret fuel cs code s1) =
  engine_after (interpret fuel cs code s2).
Proof.
  intros H. unfold interpret.
  pose proof (iterate_agree cs code fuel entry s1 s2 H) as Hi.
  destruct (iterate fuel cs code entry s1), (iterate fuel cs code entry s2);
    simpl in *; try done.
  destruct Hi as (<- & -> & -> & ->). done.
Qed.

(** The body of the main loop returns only through lines 180-182 or
    209-211. *)
Lemma body_returns cs code l s b s' :
  body cs code l s = Leave (Ok b) s' ->
  exists side, unmatched cs code l s side /\
               b = stdout l /\ s' = handleError side s.
Proof.
  rewrite body_resolve. destruct (py_getitem code (index l)) as [char|] eqn:Hc;
    [|done].
  destruct (resolve cs char) as [[]|] eqn:Hop; simpl;
    unfold do_gt, do_lt, do_plus, do_minus, do_add, do_period, do_comma,
      do_lbracket, do_rbracket, do_jump.
  - by destruct (py_mod _ _).
  - by destruct (py_mod _ _).
  - by destruct (py_bind _ _).
  - by destruct (py_bind _ _).
  - by destruct (putChar s) as [[] ?].
  - by destruct (getChar s) as [[] ?].
  - destruct (py_getitem (array s) (ptr s)) as [cell|] eqn:Hcell; [|done].
    destruct (Z.eqb_spec cell 0) as [->|]; [|done].
    destruct (jumps l !! index l) eqn:Hj; [done|].
    destruct (scan_right cs code (index l) 1) eqn:Hs; [done| |done].
    intros [= <- <-]. exists side_left. by repeat eexists.
  - destruct (py_getitem (array s) (ptr s)) as [cell|] eqn:Hcell; [|done].
    destruct (Z.eqb_spec cell 0) as [->|]; simpl; [done|].
    destruct (jumps l !! index l) eqn:Hj; [done|].
    destruct (scan_left cs code (index l) (-1)) eqn:Hs; [done| |done].
    intros [= <- <-]. exists side_right. by repeat eexists.
  - done.
Qed.

(** C6: when the main loop detects an unmatched bracket, [handleError]
    is called and [interpret] returns at once the flag it has, whatever
    the fuel; the tape, the cursor and the pending input are those of
    the moment of the failure, and a later call on the engine behaves as
    it would have on the state at the failure. *)
Theorem unmatched_bracket_returns cs code l s side :
  index l < len code ->
  unmatched cs code l s side ->
  let s' := handleError side s in
  (forall n, iterate (S n) cs code l s = Leave (Ok (stdout l)) s') /\
  array s' = array s /\ ptr s' = ptr s /\ stdin s' = stdin s /\
  events s' = events s ++ [HandleError side] /\
  (forall fuel cs2 code2,
     engine_after (execute fuel cs2 code2 s') =
     engine_after (execute fuel cs2 code2 s)).
Proof.
  intros Hlt (char & cell & Hc & Hcell & Hj & Hside) s'.
  split; [|repeat split].
  - intros n. simpl. destruct (Z.ltb_spec (index l) (len code)); [|lia].
    rewrite body_resolve, Hc.
    destruct side; destruct Hside as (-> & Hz & Hs); simpl.
    + unfold do_lbracket, do_jump. subst cell. by rewrite Hcell, Hj, Hs.
    + unfold do_rbracket, do_jump. rewrite Hcell, Hj, Hs.
      by destruct (Z.eqb_spec cell 0).
  - intros fuel cs2 code2. by apply interpret_agree.
Qed.

(** An instance of [unmatched_bracket_returns]: the closing bracket of
    "+]". *)
Lemma unmatched_bracket_returns_witness :
  let l := set_index entry 1 in
  let s := seeded 1 [] in
  let s' := handleError side_right s in
  (index l < len (prog "+]") /\ unmatched nice (prog "+]") l s side_right) /\
  (forall n, iterate (S n) nice (prog "+]") l s = Leave (Ok (stdout l)) s') /\
  array s' = array s /\ ptr s' = ptr s /\ stdin s' = stdin s /\
  events s' = events s ++ [HandleError side_right] /\
  (forall fuel cs2 code2,
     engine_after (execute fuel cs2 code2 s') =
     engine_after (execute fuel cs2 code2 s)).
Proof.
  assert (Hu : unmatched nice (prog "+]") (set_index entry 1) (seeded 1 [])
                 side_right).
  { exists "]"%char, 1. repeat split; try reflexivity. discriminate. }
  split; [split; [reflexivity|exact Hu]|].
  apply (unmatched_bracket_returns nice (prog "+]") (set_index entry 1)
           (seeded 1 []) side_right); [reflexivity|exact Hu].
Defined.

(** ** The returned flag *)

(** The flag is raised by [putChar], and by nothing else. *)
Lemma body_flagged cs code ev0 l s :
  flagged ev0 l s ->
  match body cs code l s with
  | Next l' s' => flagged ev0 l' s'
  | Leave r s' => flagged_result ev0 r s'
  end.
Proof.
  intros (new & Hev & Hflag). rewrite body_resolve.
  assert (Hraise : forall e, flagged_result ev0 (Raise e) s).
  { intros e. exists new. split; [done|]. intros b [=]. }
  assert (Hsame : forall i, flagged ev0 (set_index l i) s).
  { intros i. by exists new. }
  destruct (py_getitem code (index l)) as [char|]; [|done].
  destruct (resolve cs char) as [[]|]; simpl.
  - unfold do_gt. destruct (py_mod _ _); [by exists new|done].
  - unfold do_lt. destruct (py_mod _ _); [by exists new|done].
  - unfold do_plus, do_add. destruct (py_bind _ _); [by exists new|done].
  - unfold do_minus, do_add. destruct (py_bind _ _); [by exists new|done].
  - unfold do_period, putChar.
    destruct (py_getitem (array s) (ptr s)) as [c|]; simpl; [|done].
    destruct (_ && _); simpl; [|done].
    exists (new ++ [PutChar c]). simpl. rewrite Hev, app_assoc.
    split; [done|]. rewrite existsb_app. simpl. by rewrite orb_true_r.
  - unfold do_comma, getChar. destruct (stdin s); simpl; [done|].
    destruct (py_setitem _ _ _); simpl; [by exists new|].
    exists new. split; [done|]. by intros b [=].
  - unfold do_lbracket. destruct (py_getitem (array s) (ptr s)); [|done].
    destruct (_ =? 0); [|by exists new]. unfold do_jump.
    destruct (jumps l !! index l); [by exists new|].
    destruct (scan_right _ _ _ _); [by exists new| |done].
    exists (new ++ [HandleError side_left]). simpl. rewrite Hev, app_assoc.
    split; [done|]. intros b [= <-]. rewrite existsb_app. simpl.
    by rewrite orb_false_r.
  - unfold do_rbracket. destruct (py_getitem (array s) (ptr s)); [|done].
    destruct (negb _); [|by exists new]. unfold do_jump.
    destruct (jumps l !! index l); [by exists new|].
    destruct (scan_left _ _ _ _); [by exists new| |done].
    exists (new ++ [HandleError side_right]). simpl. rewrite Hev, app_assoc.
    split; [done|]. intros b [= <-]. rewrite existsb_app. simpl.
    by rewrite orb_false_r.
  - by exists new.
Qed.

Lemma iterate_flagged cs code n s :
  match iterate n cs code entry s with
  | Next l' s' => flagged (events s) l' s'
  | Leave r s' => flagged_result (events s) r s'
  end.
Proof.
  apply (iterate_inv cs code (flagged (events s)) (flagged_result (events s))).
  - intros l s0 H _. by apply body_flagged.
  - intros l s0 (new & Hev & Hflag) _. exists new. split; [done|].
    by intros b [= <-].
  - exists []. by rewrite app_nil_r.
Qed.

(** Without the character [period] in the text the flag stays down. *)
Lemma body_no_period cs code l s :
  Chars.period cs ∉ code -> stdout l = false ->
  match body cs code l s with
  | Next l' s' => stdout l' = false
  | Leave r s' => r <> Ok true
  end.
Proof.
  intros Hnot Hflag. rewrite body_resolve.
  destruct (py_getitem code (index l)) as [char|] eqn:Hchar; [|done].
  apply py_getitem_elem_of in Hchar.
  destruct (resolve cs char) as [[]|] eqn:Hop; simpl.
  - unfold do_gt. by destruct (py_mod _ _).
  - unfold do_lt. by destruct (py_mod _ _).
  - unfold do_plus, do_add. by destruct (py_bind _ _).
  - unfold do_minus, do_add. by destruct (py_bind _ _).
  - apply resolve_glyph in Hop. by subst char.
  - unfold do_comma. by destruct (getChar s) as [[] ?].
  - unfold do_lbracket. destruct (py_getitem (array s) (ptr s)); [|done].
    destruct (_ =? 0); [|done]. unfold do_jump.
    destruct (jumps l !! index l); [done|].
    destruct (scan_right _ _ _ _); simpl; [done| |done]. by rewrite Hflag.
  - unfold do_rbracket. destruct (py_getitem (array s) (ptr s)); [|done].
    destruct (negb _); [|done]. unfold do_jump.
    destruct (jumps l !! index l); [done|].
    destruct (scan_left _ _ _ _); simpl; [done| |done]. by rewrite Hflag.
  - done.
Qed.

(** C5: the flag a call returns says whether [putChar] was called during
    the call: it is the disjunction of [is_PutChar] over the events the
    call added.  On a cell that holds a code point, "." returns [true];
    the empty program returns [false]; a program without the character
    [period] returns nothing but [false]. *)
Theorem stdout_flag :
  (forall cs code fuel s b s',
     execute fuel cs code s = Some (Ok b, s') ->
     exists new, events s' = events s ++ new /\
                 b = existsb is_PutChar new) /\
  (forall s v n,
     py_getitem (array s) (ptr s) = Ok v -> 0 <= v < 1114112 ->
     execute (S (S n)) nice (prog ".") s = Some (Ok true, emit s (PutChar v))) /\
  (forall cs s n, execute (S n) cs [] s = Some (Ok false, s)) /\
  (forall cs code fuel s r s',
     Chars.period cs ∉ code ->
     execute fuel cs code s = Some (r, s') -> r <> Ok true).
Proof.
  repeat split.
  - intros cs code fuel s b s'. unfold execute, interpret.
    pose proof (iterate_flagged cs code fuel s) as H.
    destruct (iterate fuel cs code entry s) as [|r s0]; [done|].
    intros [= -> ->]. destruct H as (new & Hev & Hb). exists new. eauto.
  - intros s v n Hv Hrange. unfold execute, interpret.
    rewrite iterate_S. change (index entry <? len (prog ".")) with true.
    rewrite body_resolve.
    change (py_getitem (prog ".") (index entry)) with (Ok "."%char).
    change (resolve nice ".") with (Some Output).
    unfold exec_op, do_period, putChar. rewrite Hv. simpl.
    destruct (Z.leb_spec 0 v); [|lia]. by destruct (Z.ltb_spec v 1114112); [|lia].
  - intros cs code fuel s r s' Hnot. unfold execute, interpret.
    pose proof (iterate_inv cs code (fun l _ => stdout l = false)
                  (fun r _ => r <> Ok true)) as Hinv.
    specialize (Hinv (fun l s0 H _ => body_no_period cs code l s0 Hnot H)).
    specialize (Hinv (fun l s0 H _ => ltac:(by rewrite H)) fuel entry s eq_refl).
    destruct (iterate fuel cs code entry s); [done|]. by intros [= <- <-].
Qed.

(** An instance of [stdout_flag]: "+." prints the character 1. *)
Lemma stdout_flag_witness :
  execute 3 nice (prog "+.") (initial []) =
    Some (Ok true, emit (seeded 1 []) (PutChar 1)) /\
  exists new, events (emit (seeded 1 []) (PutChar 1)) =
                events (initial []) ++ new /\
              true = existsb is_PutChar new.
Proof.
  split; [reflexivity|].
  apply (proj1 stdout_flag nice (prog "+.") 3%nat (initial [])). reflexivity.
Defined.

(** ** The cursor *)

Lemma well_formed_reset s : well_formed (reset s).
Proof. split; [by vm_compute|simpl; lia]. Qed.

Lemma do_gt_well_formed l s :
  well_formed s ->
  do_gt l s = advance l (set_ptr s ((ptr s + 1) mod 30000)) /\
  well_formed (set_ptr s ((ptr s + 1) mod 30000)).
Proof.
  intros [Hlen Hptr]. unfold do_gt, py_mod. rewrite Hlen. simpl.
  split; [done|]. split; [done|]. simpl. by apply Z.mod_pos_bound.
Qed.

Lemma do_lt_well_formed l s :
  well_formed s ->
  do_lt l s = advance l (set_ptr s ((ptr s - 1) mod 30000)) /\
  well_formed (set_ptr s ((ptr s - 1) mod 30000)).
Proof.
  intros [Hlen Hptr]. unfold do_lt, py_mod. rewrite Hlen. simpl.
  split; [done|]. split; [done|]. simpl. by apply Z.mod_pos_bound.
Qed.

(** No iteration changes the length of the tape or lets the cursor
    leave it. *)
Lemma body_well_formed cs code l s :
  well_formed s -> well_formed (state_of (body cs code l s)).
Proof.
  intros Hwf. rewrite body_resolve.
  destruct (py_getitem code (index l)) as [char|]; [|done].
  destruct (resolve cs char) as [[]|]; simpl.
  - destruct (do_gt_well_formed l s Hwf) as [-> ?]. done.
  - destruct (do_lt_well_formed l s Hwf) as [-> ?]. done.
  - unfold do_plus, do_add.
    destruct (py_getitem (array s) (ptr s)); simpl; [|done].
    destruct (py_setitem _ _ _) eqn:E; simpl; [|done].
    destruct Hwf. split; [|done]. simpl. by rewrite (py_setitem_len _ _ _ _ E).
  - unfold do_minus, do_add.
    destruct (py_getitem (array s) (ptr s)); simpl; [|done].
    destruct (py_setitem _ _ _) eqn:E; simpl; [|done].
    destruct Hwf. split; [|done]. simpl. by rewrite (py_setitem_len _ _ _ _ E).
  - unfold do_period, putChar.
    destruct (py_getitem (array s) (ptr s)); simpl; [|done].
    by destruct (_ && _).
  - unfold do_comma, getChar. destruct (stdin s); simpl; [done|].
    destruct (py_setitem _ _ _) eqn:E; simpl; [|done].
    destruct Hwf. split; [|done]. simpl. by rewrite (py_setitem_len _ _ _ _ E).
  - unfold do_lbracket. destruct (py_getitem (array s) (ptr s)); [|done].
    destruct (_ =? 0); [|done]. unfold do_jump.
    destruct (jumps l !! index l); [done|]. by destruct (scan_right _ _ _ _).
  - unfold do_rbracket. destruct (py_getitem (array s) (ptr s)); [|done].
    destruct (negb _); [|done]. unfold do_jump.
    destruct (jumps l !! index l); [done|]. by destruct (scan_left _ _ _ _).
  - done.
Qed.

Lemma iterate_well_formed cs code n l s :
  well_formed s -> well_formed (state_of (iterate n cs code l s)).
Proof.
  revert l s. induction n as [|n IH]; intros l s Hwf; simpl; [done|].
  destruct (index l <? len code); [|done].
  pose proof (body_well_formed cs code l s Hwf) as Hb.
  destruct (body cs code l s); [by apply IH|done].
Qed.

Lemma set_ptr_id s : set_ptr s (ptr s) = s.
Proof. by destruct s. Qed.

Lemma moves_cons cs char code :
  moves cs (char :: code) = move cs char + moves cs code.
Proof. done. Qed.

(** A run over move characters only, from the [k]-th character on. *)
Lemma iterate_moves cs code (m k : nat) l s :
  only_moves cs code -> well_formed s ->
  (k + m = length code)%nat -> index l = Z.of_nat k ->
  iterate (S m) cs code l s =
  Leave (Ok (stdout l))
        (set_ptr s ((ptr s + moves cs (drop k code)) mod 30000)).
Proof.
  intros Hmoves. revert k l s.
  induction m as [|m IH]; intros k l s Hwf Hk Hl; rewrite iterate_S.
  - destruct (Z.ltb_spec (index l) (len code)); [unfold len in *; lia|].
    rewrite drop_ge by lia. unfold moves. simpl.
    destruct Hwf as [_ Hp]. rewrite Z.add_0_r, Z.mod_small by done.
    by rewrite set_ptr_id.
  - destruct (Z.ltb_spec (index l) (len code)); [|unfold len in *; lia].
    destruct (lookup_lt_is_Some_2 code k) as [char Hchar]; [lia|].
    assert (Hmove : char = Chars.gt cs \/ char = Chars.lt cs).
    { eapply (proj1 (Forall_forall _ _) Hmoves), list_elem_of_lookup_2, Hchar. }
    rewrite (drop_S _ _ _ Hchar), moves_cons.
    unfold body. rewrite (py_getitem_lookup _ _ char) by (lia || by rewrite Hl, Nat2Z.id).
    unfold move.
    destruct (Ascii.eqb_spec char (Chars.gt cs)) as [_|Hgt].
    + destruct (do_gt_well_formed l s Hwf) as [-> Hwf']. unfold advance. cbv beta iota.
      rewrite (IH (S k)); [|done|lia|simpl; lia]. simpl. do 2 f_equal.
      by rewrite Zplus_mod_idemp_l, Z.add_assoc.
    + destruct Hmove as [? | ->]; [done|]. rewrite Ascii.eqb_refl.
      destruct (do_lt_well_formed l s Hwf) as [-> Hwf']. unfold advance. cbv beta iota.
      rewrite (IH (S k)); [|done|lia|simpl; lia]. simpl. do 2 f_equal.
      rewrite Zplus_mod_idemp_l. f_equal. lia.
Qed.

(** C7: the cursor of a well-formed engine (30000 cells, cursor in
    range) stays in range through any number of iterations of the main
    loop on any program; a move to the right adds one modulo 30000, so
    that 29999 is followed by 0, a move to the left subtracts one modulo
    30000, so that 0 is followed by 29999, and neither raises; a program
    of moves only, of any length, returns with the cursor moved by the
    sum of the moves modulo 30000. *)
Theorem cursor_wraps :
  (forall s, well_formed (reset s)) /\
  (forall cs code n l s,
     well_formed s ->
     let s' := state_of (iterate n cs code l s) in
     len (array s') = 30000 /\ 0 <= ptr s' < 30000) /\
  (forall l s,
     well_formed s ->
     do_gt l s = advance l (set_ptr s ((ptr s + 1) mod 30000)) /\
     do_lt l s = advance l (set_ptr s ((ptr s - 1) mod 30000)) /\
     (ptr s = 29999 -> do_gt l s = advance l (set_ptr s 0)) /\
     (ptr s = 0 -> do_lt l s = advance l (set_ptr s 29999))) /\
  (forall cs code s,
     well_formed s -> only_moves cs code ->
     execute (S (length code)) cs code s =
     Some (Ok false, set_ptr s ((ptr s + moves cs code) mod 30000))).
Proof.
  split; [apply well_formed_reset|]. split; [|split].
  - intros cs code n l s Hwf. by apply iterate_well_formed.
  - intros l s Hwf.
    destruct (do_gt_well_formed l s Hwf) as [Hgt _].
    destruct (do_lt_well_formed l s Hwf) as [Hlt _].
    repeat split; [done|done| |].
    + intros Hp. by rewrite Hgt, Hp.
    + intros Hp. by rewrite Hlt, Hp.
  - intros cs code s Hwf Hmoves. unfold execute, interpret.
    by rewrite (iterate_moves cs code (length code) 0 entry s).
Qed.

(** An instance of [cursor_wraps]: a move to the left from cell 0. *)
Lemma cursor_wraps_witness :
  well_formed (initial []) /\ only_moves nice (prog "<") /\
  execute 2 nice (prog "<") (initial []) =
    Some (Ok false, set_ptr (initial []) 29999).
Proof.
  assert (Hwf : well_formed (initial [])).
  { split; [vm_compute; reflexivity|simpl; lia]. }
  assert (Hmoves : only_moves nice (prog "<")).
  { constructor; [right; reflexivity|constructor]. }
  split; [exact Hwf|]. split; [exact Hmoves|].
  exact (proj2 (proj2 (proj2 cursor_wraps)) nice (prog "<") (initial [])
           Hwf Hmoves).
Defined.

(** ** The search for the opening bracket *)

Lemma depth_take_drop cs (n : nat) code :
  depth cs (take n code) + depth cs (drop n code) = depth cs code.
Proof. by rewrite <- depth_app, take_drop. Qed.

Lemma slice_drop_take {A} (l : list A) (i j : Z) :
  0 <= i <= j -> slice l i j = drop (Z.to_nat i) (take (Z.to_nat j) l).
Proof.
  intros Hij. unfold slice. rewrite take_drop_commute. do 2 f_equal. lia.
Qed.

(** The sums the search to the left goes through are the depths of the
    pieces of text that end where the search began. *)
Lemma total_take_reverse cs code (p j : nat) :
  (j <= p <= length code)%nat ->
  total (take j (delta cs <$> reverse (take p code))) =
  depth cs (drop (p - j) (take p code)).
Proof.
  intros Hj. rewrite <- fmap_take, take_reverse, length_take, fmap_reverse,
    total_reverse.
  by replace (p `min` length code)%nat with p by lia.
Qed.

Lemma seg_cons {A} (l : list A) (p q : nat) (x : A) :
  (q < p)%nat -> l !! q = Some x ->
  drop q (take p l) = x :: drop (S q) (take p l).
Proof.
  intros Hq Hx. apply drop_S. by rewrite lookup_take_lt.
Qed.

Lemma seg_depth cs code (p i j : nat) :
  depth cs (take j (drop i (take p code))) +
  depth cs (drop (i + j) (take p code)) =
  depth cs (drop i (take p code)).
Proof.
  rewrite <- (depth_take_drop cs j (drop i (take p code))).
  by rewrite drop_drop.
Qed.

(** The search to the left from position [p] stops after [k] steps
    exactly when the [k]-th character back is an opening one and the
    text in between is balanced. *)
Lemma first_zero_matching cs code (p k : nat) :
  (p <= length code)%nat ->
  first_zero (delta cs <$> reverse (take p code)) (-1) = Some k <->
  (1 <= k <= p)%nat /\
  (exists o, code !! (p - k)%nat = Some o /\ delta cs o = 1) /\
  balanced cs (drop (S (p - k)) (take p code)) = true.
Proof.
  intros Hp.
  set (D := delta cs <$> reverse (take p code)).
  assert (HD : length D = p).
  { unfold D. rewrite length_fmap, length_reverse, length_take. lia. }
  split.
  - intros Hk.
    pose proof (fun j => first_zero_negative D (-1) k j
                  (small_delta _ _) ltac:(lia) Hk) as Hneg.
    apply first_zero_spec in Hk as (Hrange & Hsum & _).
    rewrite HD in Hrange. split; [done|].
    unfold D in Hsum. rewrite total_take_reverse in Hsum by lia.
    destruct (lookup_lt_is_Some_2 code (p - k)) as [o Ho]; [lia|].
    rewrite (seg_cons code p (p - k) o) in Hsum by (lia || done).
    rewrite depth_cons in Hsum.
    assert (Hle : forall i, (p - k < i <= p)%nat ->
                    depth cs (drop i (take p code)) <= 0).
    { intros i Hi. specialize (Hneg (p - i)%nat ltac:(lia)).
      unfold D in Hneg. rewrite total_take_reverse in Hneg by lia.
      replace (p - (p - i))%nat with i in Hneg by lia. lia. }
    pose proof (Hle (S (p - k)) ltac:(lia)).
    pose proof (delta_range cs o).
    split; [exists o; split; [done|lia]|].
    apply balanced_from_spec. split; [|lia].
    intros j Hj. rewrite length_drop, length_take in Hj.
    pose proof (seg_depth cs code p (S (p - k)) j).
    specialize (Hle (S (p - k) + j)%nat ltac:(lia)). lia.
  - intros (Hrange & (o & Ho & Hdo) & [Hpre Htot]%balanced_from_spec).
    assert (Hseg : forall j, (j < k)%nat ->
                     depth cs (drop (p - j) (take p code)) <= 0).
    { intros j Hj.
      pose proof (seg_depth cs code p (S (p - k)) (k - j - 1)) as Hs.
      replace (S (p - k) + (k - j - 1))%nat with (p - j)%nat in Hs by lia.
      destruct (decide (k - j - 1 = 0)%nat) as [Hz|Hnz].
      - rewrite Hz, take_0 in Hs. unfold depth in Hs at 1. simpl in Hs. lia.
      - specialize (Hpre (k - j - 1)%nat).
        rewrite length_drop, length_take in Hpre. lia. }
    apply first_zero_intro.
    + lia.
    + unfold D. rewrite total_take_reverse by lia.
      rewrite (seg_cons code p (p - k) o) by (lia || done).
      rewrite depth_cons. lia.
    + intros j Hj. unfold D. rewrite total_take_reverse by lia.
      specialize (Hseg j ltac:(lia)). lia.
Qed.

Lemma scan_left_Found cs code (p q : Z) c :
  0 <= p -> code !! Z.to_nat p = Some c -> delta cs c = -1 ->
  scan_left cs code p (-1) = Found q <-> matching cs code q p.
Proof.
  intros Hp Hc Hd.
  pose proof (lookup_lt_Some _ _ _ Hc) as Hlen.
  rewrite scan_left_first_zero by (unfold len; lia).
  assert (Hfz := fun k => first_zero_matching cs code (Z.to_nat p) k
                      ltac:(lia)).
  split.
  - clear Hfz. destruct (first_zero _ _) as [k|] eqn:Hk; [|done]. intros [= <-].
    apply first_zero_matching in Hk as (Hrange & (o & Ho & Hdo) & Hb); [|lia].
    split; [lia|]. split; [|split].
    + exists o. split; [|done].
      by replace (Z.to_nat (p - Z.of_nat k)) with (Z.to_nat p - k)%nat by lia.
    + by exists c.
    + rewrite slice_drop_take by lia.
      by replace (Z.to_nat (p - Z.of_nat k + 1))
        with (S (Z.to_nat p - k)) by lia.
  - intros (Hq & (o & Ho & Hdo) & _ & Hb).
    rewrite slice_drop_take in Hb by lia.
    rewrite (proj2 (Hfz (Z.to_nat (p - q)))).
    + f_equal. lia.
    + split; [lia|]. split.
      * exists o. split; [|done].
        by replace (Z.to_nat p - Z.to_nat (p - q))%nat with (Z.to_nat q) by lia.
      * by replace (S (Z.to_nat p - Z.to_nat (p - q)))
          with (Z.to_nat (q + 1)) by lia.
Qed.

Lemma scan_left_no_raise cs code (p : Z) e :
  0 <= p <= len code -> scan_left cs code p (-1) <> ScanRaise e.
Proof.
  intros Hp. rewrite scan_left_first_zero by lia.
  by destruct (first_zero _ _).
Qed.

(** C4, as stated, fails: with the counting it describes (up on the
    closing character, down on the opening one) the search from the
    closing bracket of "[]" runs off the text, while the search of the
    source stops on the opening bracket. *)
Lemma spec_scan_left_differs :
  scan_left nice (prog "[]") 1 (-1) = Found 0 /\
  spec_scan_left nice (prog "[]") 1 (-1) = Unmatched /\
  scan_left nice (prog "[]") 1 (-1) <> spec_scan_left nice (prog "[]") 1 (-1).
Proof. repeat split; try reflexivity. discriminate. Qed.

(** C4, amended: when a closing bracket is executed with a non-zero
    current cell and no entry in [jumps], the search to the left keeps a
    counter seeded at -1 that goes up by one on each opening character
    and down by one on each closing character; it stops when the
    counter is 0, and that happens exactly at the opening bracket that
    matches; the search reports an unmatched bracket exactly when there
    is none, and the main loop goes on after the bracket found, with
    the pair recorded in [jumps]. *)
Theorem scan_left_matching cs code (p : Z) c :
  0 <= p -> code !! Z.to_nat p = Some c -> delta cs c = -1 ->
  (forall index paren,
     scan_left cs code index paren =
     if paren =? 0 then Found index
     else if index - 1 <? 0 then Unmatched
          else match py_getitem code (index - 1) with
               | Raise e => ScanRaise e
               | Ok char =>
                   scan_left cs code (index - 1) (paren + delta cs char)
               end) /\
  (forall q, scan_left cs code p (-1) = Found q <-> matching cs code q p) /\
  (scan_left cs code p (-1) = Unmatched <-> forall q, ~ matching cs code q p) /\
  (forall l s cell q,
     index l = p -> py_getitem (array s) (ptr s) = Ok cell -> cell <> 0 ->
     jumps l !! p = None -> matching cs code q p ->
     do_rbracket cs code l s =
     Next {| stdout := stdout l;
             jumps := <[q := p]> (<[p := q]> (jumps l));
             index := q + 1 |} s).
Proof.
  intros Hp Hc Hd.
  pose proof (fun q => scan_left_Found cs code p q c Hp Hc Hd) as Hfound.
  split; [|split; [done|split]].
  - intros index paren. rewrite scan_left_eq at 1. simpl.
    destruct (_ =? 0); [done|]. destruct (_ <? 0); [done|].
    destruct (py_getitem _ _); [|done]. by rewrite count_paren_delta.
  - split.
    + intros Hs q Hm. apply Hfound in Hm. congruence.
    + intros Hnone. destruct (scan_left cs code p (-1)) as [q| |e] eqn:Hs.
      * by apply (scan_left_Found cs code p q c Hp Hc Hd), Hnone in Hs.
      * done.
      * apply scan_left_no_raise in Hs; [done|].
        apply lookup_lt_Some in Hc. unfold len. lia.
  - intros l s cell q Hl Hcell Hnz Hj Hm. apply Hfound in Hm.
    unfold do_rbracket, do_jump. rewrite Hcell, Hl, Hj, Hm.
    by destruct (Z.eqb_spec cell 0).
Qed.

(** An instance of [scan_left_matching]: the closing bracket of
    "[->+<]". *)
Lemma scan_left_matching_witness :
  (0 <= 5 /\ prog "[->+<]" !! Z.to_nat 5 = Some "]"%char /\
   delta nice "]" = -1) /\
  (forall q, scan_left nice (prog "[->+<]") 5 (-1) = Found q <->
             matching nice (prog "[->+<]") q 5).
Proof.
  split; [repeat split; (lia || reflexivity)|].
  apply (scan_left_matching nice (prog "[->+<]") 5 "]"); (lia || reflexivity).
Defined.

(** ** The search for the closing bracket *)

(** The search to the right stops after [k] steps exactly when the
    [k]-th character is a closing one and the text before it is
    balanced. *)
Lemma first_zero_matching_right cs rest (k : nat) :
  first_zero (delta cs <$> rest) 1 = Some k <->
  (1 <= k <= length rest)%nat /\
  (exists c, rest !! (k - 1)%nat = Some c /\ delta cs c = -1) /\
  balanced cs (take (k - 1) rest) = true.
Proof.
  set (D := delta cs <$> rest).
  assert (HD : length D = length rest) by apply length_fmap.
  assert (Htake : forall j, total (take j D) = depth cs (take j rest)).
  { intros j. unfold D, depth. by rewrite fmap_take. }
  split.
  - intros Hk.
    pose proof (fun j => first_zero_positive D 1 k j
                  (small_delta _ _) ltac:(lia) Hk) as Hpos.
    apply first_zero_spec in Hk as (Hrange & Hsum & _).
    rewrite HD in Hrange. split; [done|].
    destruct (lookup_lt_is_Some_2 rest (k - 1)) as [c Hc]; [lia|].
    rewrite Htake in Hsum.
    replace k with (S (k - 1)) in Hsum by lia.
    rewrite (take_S_r _ _ c Hc), depth_app in Hsum.
    unfold depth at 2 in Hsum. simpl in Hsum.
    pose proof (Hpos (k - 1)%nat ltac:(lia)) as Hlast. rewrite Htake in Hlast.
    pose proof (delta_range cs c).
    split; [exists c; split; [done|lia]|].
    apply balanced_from_spec. split; [|lia].
    intros j Hj. rewrite length_take in Hj. rewrite take_take.
    replace (j `min` (k - 1))%nat with j by lia.
    specialize (Hpos j ltac:(lia)). rewrite Htake in Hpos. lia.
  - intros (Hrange & (c & Hc & Hdc) & [Hpre Htot]%balanced_from_spec).
    apply first_zero_intro.
    + by rewrite HD.
    + rewrite Htake. replace k with (S (k - 1)) at 1 by lia.
      rewrite (take_S_r _ _ c Hc), depth_app. unfold depth at 2. simpl. lia.
    + intros j Hj. rewrite Htake.
      destruct (decide (j = k - 1)%nat) as [->|Hne]; [lia|].
      specialize (Hpre j). rewrite length_take, take_take in Hpre.
      replace (j `min` (k - 1))%nat with j in Hpre by lia. lia.
Qed.

Lemma scan_right_Found cs code (q p : Z) o :
  0 <= q -> code !! Z.to_nat q = Some o -> delta cs o = 1 ->
  scan_right cs code q 1 = Found p <-> matching cs code q p.
Proof.
  intros Hq Ho Hd.
  pose proof (lookup_lt_Some _ _ _ Ho) as Hlen.
  rewrite scan_right_first_zero by (unfold len; lia).
  set (rest := drop (Z.to_nat (q + 1)) code).
  assert (Hrest : forall k, rest !! k = code !! (Z.to_nat (q + 1) + k)%nat).
  { intros k. unfold rest. by rewrite lookup_drop. }
  split.
  - destruct (first_zero _ _) as [k|] eqn:Hk; [|done]. intros [= <-].
    apply first_zero_matching_right in Hk as (Hrange & (c & Hc & Hdc) & Hb).
    split; [lia|]. split; [by exists o|]. split.
    + exists c. split; [|done]. rewrite Hrest in Hc.
      by replace (Z.to_nat (q + Z.of_nat k))
        with (Z.to_nat (q + 1) + (k - 1))%nat by lia.
    + unfold slice. fold rest.
      by replace (Z.to_nat (q + Z.of_nat k - (q + 1))) with (k - 1)%nat by lia.
  - intros (Hqp & _ & (c & Hc & Hdc) & Hb).
    rewrite (proj2 (first_zero_matching_right cs rest (Z.to_nat (p - q)))).
    + f_equal. lia.
    + pose proof (lookup_lt_Some _ _ _ Hc) as Hp.
      split; [unfold rest; rewrite length_drop; lia|]. split.
      * exists c. split; [|done]. rewrite Hrest. rewrite <- Hc. f_equal. lia.
      * unfold slice in Hb. fold rest in Hb.
        by replace (Z.to_nat (p - q) - 1)%nat with (Z.to_nat (p - (q + 1)))
          by lia.
Qed.

(** In a balanced text every bracket has its partner. *)
Lemma balanced_paired cs code : balanced cs code = true -> paired cs code.
Proof.
  intros Hb. split.
  - intros q o Ho Hd.
    destruct (scan_right_balanced cs code q o Hb Ho Hd) as (p & Hp & _).
    exists p. apply (scan_right_Found cs code _ _ o); [lia| |done..].
    by rewrite Nat2Z.id.
  - intros p c Hc Hd.
    destruct (scan_left_balanced cs code p c Hb Hc Hd) as (q & Hq & _).
    exists q. apply (scan_left_Found cs code _ _ c); [lia| |done..].
    by rewrite Nat2Z.id.
Qed.

(** A pair of matching brackets encloses a text of depth zero. *)
Lemma matching_depth cs code q p :
  matching cs code q p ->
  depth cs (take (Z.to_nat p) code) = depth cs (take (Z.to_nat q) code) + 1.
Proof.
  intros (Hqp & (o & Ho & Hdo) & _ & Hb%balanced_total).
  rewrite slice_drop_take in Hb by lia.
  rewrite <- (depth_take_drop cs (Z.to_nat (q + 1)) (take (Z.to_nat p) code)).
  rewrite Hb, take_take.
  replace (Z.to_nat (q + 1) `min` Z.to_nat p)%nat with (S (Z.to_nat q)) by lia.
  rewrite (take_S_r _ _ o Ho), depth_app. unfold depth at 2. simpl. lia.
Qed.

(** When every bracket has its partner, no prefix has a negative depth
    and no suffix a positive one. *)
Lemma paired_prefix cs code (j : nat) :
  paired cs code -> 0 <= depth cs (take j code).
Proof.
  intros [_ Hclose]. induction j as [j IH] using lt_wf_ind.
  destruct j as [|i]; [by rewrite take_0|].
  destruct (code !! i) as [c|] eqn:Hc.
  - rewrite (take_S_r _ _ c Hc), depth_app. unfold depth at 2. simpl.
    pose proof (delta_range cs c). pose proof (IH i ltac:(lia)).
    destruct (decide (delta cs c = -1)) as [Hd|]; [|lia].
    destruct (Hclose i c Hc Hd) as [q Hq].
    pose proof (matching_depth cs code q _ Hq) as Hm. rewrite Nat2Z.id in Hm.
    destruct Hq as (Hqi & _). pose proof (IH (Z.to_nat q) ltac:(lia)). lia.
  - apply lookup_ge_None in Hc. rewrite take_ge by lia.
    rewrite <- (take_ge code i) by lia. apply IH. lia.
Qed.

Lemma paired_suffix cs code (j : nat) :
  paired cs code -> depth cs (drop j code) <= 0.
Proof.
  intros [Hopen _]. remember (length code - j)%nat as m eqn:Hm.
  revert j Hm. induction m as [m IH] using lt_wf_ind. intros j Hm.
  destruct (code !! j) as [o|] eqn:Ho.
  - pose proof (lookup_lt_Some _ _ _ Ho) as Hj.
    rewrite (drop_S _ _ _ Ho), depth_cons.
    pose proof (delta_range cs o).
    pose proof (IH (length code - S j)%nat ltac:(lia) (S j) eq_refl).
    destruct (decide (delta cs o = 1)) as [Hd|]; [|lia].
    destruct (Hopen j o Ho Hd) as [p Hp].
    pose proof (matching_depth cs code _ p Hp) as Hdepth.
    rewrite Nat2Z.id in Hdepth.
    destruct Hp as (Hjp & _ & (c & Hc & Hdc) & _).
    pose proof (lookup_lt_Some _ _ _ Hc) as Hplen.
    pose proof (IH (length code - S (Z.to_nat p))%nat ltac:(lia)
                  (S (Z.to_nat p)) eq_refl) as Hafter.
    pose proof (depth_take_drop cs (S (Z.to_nat p)) code) as H1.
    rewrite (take_S_r _ _ c Hc), depth_app in H1. unfold depth at 2 in H1.
    simpl in H1.
    pose proof (depth_take_drop cs j code) as H2.
    rewrite (drop_S _ _ _ Ho), depth_cons in H2. lia.
  - apply lookup_ge_None in Ho. by rewrite drop_ge.
Qed.

(** The two readings of "balanced" agree: the depth never falls below
    zero and ends at zero exactly when every bracket has its partner. *)
Lemma balanced_iff_paired cs code : balanced cs code = true <-> paired cs code.
Proof.
  split; [apply balanced_paired|]. intros Hp.
  apply balanced_from_spec. split.
  - intros j _. pose proof (paired_prefix cs code j Hp). lia.
  - pose proof (paired_prefix cs code (length code) Hp) as H1.
    rewrite firstn_all in H1.
    pose proof (paired_suffix cs code 0 Hp) as H2. rewrite drop_0 in H2. lia.
Qed.

(** ** Dependence on the characters *)

Lemma py_getitem_fmap_eq {A B C} (f : A -> C) (g : B -> C)
    (l1 : list A) (l2 : list B) (i : Z) :
  f <$> l1 = g <$> l2 ->
  match py_getitem l1 i, py_getitem l2 i with
  | Ok x, Ok y => f x = g y
  | Raise e1, Raise e2 => e1 = e2
  | _, _ => False
  end.
Proof.
  intros H. pose proof (py_getitem_fmap f l1 i) as H1.
  pose proof (py_getitem_fmap g l2 i) as H2. rewrite H in H1.
  destruct (py_getitem l1 i), (py_getitem l2 i); congruence.
Qed.

Lemma fmap_eq_len {A B C} (f : A -> C) (g : B -> C)
    (l1 : list A) (l2 : list B) :
  f <$> l1 = g <$> l2 -> len l1 = len l2.
Proof.
  intros H. by rewrite <- (len_fmap f l1), <- (len_fmap g l2), H.
Qed.

Lemma reading_fst cs1 cs2 code1 code2 :
  reading cs1 code1 = reading cs2 code2 ->
  resolve cs1 <$> code1 = resolve cs2 <$> code2.
Proof.
  intros H. apply (f_equal (fmap fst)) in H.
  unfold reading in H. by rewrite <- !list_fmap_compose in H.
Qed.

Lemma reading_snd cs1 cs2 code1 code2 :
  reading cs1 code1 = reading cs2 code2 ->
  delta cs1 <$> code1 = delta cs2 <$> code2.
Proof.
  intros H. apply (f_equal (fmap snd)) in H.
  unfold reading in H. by rewrite <- !list_fmap_compose in H.
Qed.

(** The searches read the bracket counts of the characters only. *)
Lemma scan_right_loop_ext cs1 cs2 code1 code2 n index paren :
  delta cs1 <$> code1 = delta cs2 <$> code2 ->
  scan_right_loop n cs1 code1 index paren =
  scan_right_loop n cs2 code2 index paren.
Proof.
  intros H. revert index paren. induction n as [|n IH]; intros index paren;
    simpl; [done|].
  destruct (paren =? 0); [done|]. rewrite (fmap_eq_len _ _ _ _ H).
  destruct (_ =? len code2); [done|].
  pose proof (py_getitem_fmap_eq _ _ code1 code2 (index + 1) H) as Hc.
  destruct (py_getitem code1 _), (py_getitem code2 _); try done.
  - by rewrite !count_paren_delta, Hc, IH.
  - by subst.
Qed.

Lemma scan_left_loop_ext cs1 cs2 code1 code2 n index paren :
  delta cs1 <$> code1 = delta cs2 <$> code2 ->
  scan_left_loop n cs1 code1 index paren =
  scan_left_loop n cs2 code2 index paren.
Proof.
  intros H. revert index paren. induction n as [|n IH]; intros index paren;
    simpl; [done|].
  destruct (paren =? 0); [done|]. destruct (_ <? 0); [done|].
  pose proof (py_getitem_fmap_eq _ _ code1 code2 (index - 1) H) as Hc.
  destruct (py_getitem code1 _), (py_getitem code2 _); try done.
  - by rewrite !count_paren_delta, Hc, IH.
  - by subst.
Qed.

(** Two texts that read alike are executed alike. *)
Lemma body_ext cs1 cs2 code1 code2 l s :
  reading cs1 code1 = reading cs2 code2 ->
  body cs1 code1 l s = body cs2 code2 l s.
Proof.
  intros H. pose proof (reading_fst _ _ _ _ H) as Hop.
  pose proof (reading_snd _ _ _ _ H) as Hd.
  rewrite !body_resolve.
  pose proof (py_getitem_fmap_eq _ _ code1 code2 (index l) Hop) as Hc.
  destruct (py_getitem code1 _), (py_getitem code2 _); try done; [|by subst].
  rewrite Hc. destruct (resolve cs2 a0) as [[]|]; simpl; try done.
  - unfold do_lbracket, scan_right.
    by rewrite (fmap_eq_len _ _ _ _ Hd), (scan_right_loop_ext cs1 cs2 code1 code2).
  - unfold do_rbracket, scan_left.
    by rewrite (scan_left_loop_ext cs1 cs2 code1 code2).
Qed.

Lemma iterate_ext cs1 cs2 code1 code2 n l s :
  reading cs1 code1 = reading cs2 code2 ->
  iterate n cs1 code1 l s = iterate n cs2 code2 l s.
Proof.
  intros H. revert l s. induction n as [|n IH]; intros l s; simpl; [done|].
  rewrite (fmap_eq_len _ _ _ _ H), (body_ext cs1 cs2 code1 code2 l s H).
  destruct (_ <? _); [|done]. by destruct (body cs2 code2 l s).
Qed.

(** With eight distinct characters the bracket count of a character is
    that of its operation. *)
Lemma distinct_brackets cs :
  distinct cs ->
  Chars.lbracket cs <> Chars.rbracket cs /\
  Forall (fun x => x <> Chars.lbracket cs /\ x <> Chars.rbracket cs)
    [Chars.gt cs; Chars.lt cs; Chars.plus cs; Chars.minus cs;
     Chars.period cs; Chars.comma cs].
Proof.
  unfold distinct. rewrite !NoDup_cons, !not_elem_of_cons.
  intros H. split; [tauto|]. repeat constructor; intros E; rewrite E in H; tauto.
Qed.

Lemma distinct_delta cs char :
  distinct cs -> delta cs char = op_delta (resolve cs char).
Proof.
  intros (Hlr & Hrest)%distinct_brackets.
  repeat match goal with
         | H : Forall _ (_ :: _) |- _ =>
             apply Forall_cons in H as [[? ?] H]
         end.
  unfold delta, resolve.
  repeat match goal with
         | |- context [Ascii.eqb char ?x] =>
             destruct (Ascii.eqb_spec char x); try (simpl; congruence)
         end.
Qed.

Lemma distinct_reading cs1 cs2 code1 code2 :
  distinct cs1 -> distinct cs2 ->
  resolve cs1 <$> code1 = resolve cs2 <$> code2 ->
  reading cs1 code1 = reading cs2 code2.
Proof.
  intros H1 H2 H. unfold reading.
  rewrite (list_fmap_ext _ (fun c => (resolve cs1 c, op_delta (resolve cs1 c)))
             code1), (list_fmap_ext _
             (fun c => (resolve cs2 c, op_delta (resolve cs2 c))) code2).
  - change (((fun op => (op, op_delta op)) ∘ resolve cs1) <$> code1 =
            ((fun op => (op, op_delta op)) ∘ resolve cs2) <$> code2).
    by rewrite !list_fmap_compose, H.
  - intros ? c _. by rewrite distinct_delta.
  - intros ? c _. by rewrite distinct_delta.
Qed.

(** With distinct characters a run is determined by the operations. *)
Lemma distinct_ext cs1 cs2 code1 code2 fuel s :
  distinct cs1 -> distinct cs2 ->
  resolve cs1 <$> code1 = resolve cs2 <$> code2 ->
  interpret fuel cs1 code1 s = interpret fuel cs2 code2 s.
Proof.
  intros H1 H2 H. unfold interpret.
  by rewrite (iterate_ext cs1 cs2 code1 code2 fuel entry s
                (distinct_reading _ _ _ _ H1 H2 H)).
Qed.

Lemma apart_neq l1 l2 x y : apart l1 l2 = true -> x ∈ l1 -> y ∈ l2 -> x <> y.
Proof.
  unfold apart. rewrite forallb_forall. intros H Hx%list_elem_of_In Hy%list_elem_of_In.
  specialize (H x Hx). rewrite forallb_forall in H. specialize (H y Hy).
  intros ->. by rewrite Ascii.eqb_refl in H.
Qed.

(** The tables of [NiceInterpreter] and of the troll interpreters are
    made of distinct characters. *)
Lemma distinct_nice : distinct nice.
Proof.
  unfold distinct. simpl.
  repeat (apply NoDup_cons; split;
          [rewrite ?not_elem_of_cons; repeat split;
           (discriminate || apply not_elem_of_nil)|]).
  apply NoDup_nil_2.
Qed.

Lemma distinct_TrollInterpreter cs : TrollInterpreter_setChars cs -> distinct cs.
Proof.
  intros (? & ? & ? & ? & ? & ? & ? & ?). unfold distinct.
  repeat (apply NoDup_cons; split;
          [rewrite ?not_elem_of_cons; repeat split;
           (apply not_elem_of_nil ||
            (eapply apart_neq; [|eassumption|eassumption]; reflexivity))|]).
  apply NoDup_nil_2.
Qed.

Lemma troll_setChars : TrollInterpreter_setChars troll.
Proof.
  unfold TrollInterpreter_setChars, troll. simpl.
  repeat split; repeat (apply list_elem_of_here || apply list_elem_of_further).
Qed.

(** C10, as stated, fails: under a table where ">" is both [gt] and
    [lbracket], every character of "+>+<]" is executed as under the
    standard table, ">" as a move to the right; yet the closing bracket,
    unmatched under the standard table, finds ">" in its search and
    jumps back behind it, so that the text after ">" runs a second
    time. *)
Lemma shared_glyph_is_a_bracket :
  resolve shared <$> prog "+>+<]" = resolve nice <$> prog "+>+<]" /\
  resolve shared ">" = Some MoveRight /\
  scan_left shared (prog "+>+<]") 4 (-1) = Found 1 /\
  scan_left nice (prog "+>+<]") 4 (-1) = Unmatched /\
  execute 9 nice (prog "+>+<]") (initial []) =
    Some (Ok false, handleError side_right (set_ptr (two_cells 1 1 []) 0)) /\
  execute 9 shared (prog "+>+<]") (initial []) =
    Some (Ok false, set_ptr (two_cells 2 1 []) 29999) /\
  execute 9 shared (prog "+>+<]") (initial []) <>
  execute 9 nice (prog "+>+<]") (initial []).
Proof.
  assert (H1 : execute 9 nice (prog "+>+<]") (initial []) =
               Some (Ok false,
                     handleError side_right (set_ptr (two_cells 1 1 []) 0)))
    by by_vm.
  assert (H2 : execute 9 shared (prog "+>+<]") (initial []) =
               Some (Ok false, set_ptr (two_cells 2 1 []) 29999))
    by by_vm.
  do 4 (split; [by_vm|]).
  split; [exact H1|]. split; [exact H2|].
  rewrite H1, H2. intros E.
  apply (f_equal (fun res => events <$> (snd <$> res))) in E. discriminate E.
Qed.

Lemma resolve_find cs char :
  resolve cs char = find (fun op => Ascii.eqb char (glyph cs op)) ops.
Proof.
  unfold resolve. simpl. by repeat destruct (Ascii.eqb char _).
Qed.

(** C10, amended: the main loop resolves each character in the fixed
    order MoveRight, MoveLeft, Increment, Decrement, Output, Input,
    LoopOpen, LoopClose, so a character assigned to several operations
    is always executed as the earliest of them (one that is both
    MoveRight and LoopOpen moves the cursor and never runs the loop
    test); the bracket searches compare the characters they pass over
    with the LoopOpen character and then the LoopClose character only,
    so such a character still counts as a bracket there; a run is
    determined by what the main loop and the searches read. *)
Theorem dispatch_priority cs :
  (forall char,
     resolve cs char = find (fun op => Ascii.eqb char (glyph cs op)) ops) /\
  (forall code l s,
     body cs code l s =
     match py_getitem code (index l) with
     | Raise e => Leave (Raise e) s
     | Ok char => exec_op cs code (resolve cs char) l s
     end) /\
  (forall char paren,
     count_paren cs char paren =
     paren + (if Ascii.eqb char (Chars.lbracket cs) then 1
              else if Ascii.eqb char (Chars.rbracket cs) then -1 else 0)) /\
  (Chars.gt cs = Chars.lbracket cs ->
   resolve cs (Chars.lbracket cs) = Some MoveRight /\
   (forall code l s, exec_op cs code (resolve cs (Chars.lbracket cs)) l s =
                     do_gt l s) /\
   (forall paren, count_paren cs (Chars.lbracket cs) paren = paren + 1)) /\
  (forall cs2 code code2 fuel s,
     reading cs code = reading cs2 code2 ->
     execute fuel cs code s = execute fuel cs2 code2 s).
Proof.
  split; [apply resolve_find|]. split; [apply body_resolve|].
  split; [apply count_paren_delta|]. split.
  - intros Hshared.
    assert (Hr : resolve cs (Chars.lbracket cs) = Some MoveRight).
    { unfold resolve. by rewrite <- Hshared, Ascii.eqb_refl. }
    split; [done|]. split; [intros; by rewrite Hr|].
    intros paren. unfold count_paren. by rewrite Ascii.eqb_refl.
  - intros cs2 code code2 fuel s H. unfold execute, interpret.
    by rewrite (iterate_ext cs cs2 code code2 fuel entry s H).
Qed.

(** An instance of [dispatch_priority]: the table [shared]. *)
Lemma dispatch_priority_witness :
  Chars.gt shared = Chars.lbracket shared /\
  resolve shared (Chars.lbracket shared) = Some MoveRight /\
  (forall code l s,
     exec_op shared code (resolve shared (Chars.lbracket shared)) l s =
     do_gt l s) /\
  (forall paren, count_paren shared (Chars.lbracket shared) paren = paren + 1).
Proof.
  split; [reflexivity|].
  apply (proj1 (proj2 (proj2 (proj2 (dispatch_priority shared))))).
  reflexivity.
Defined.

(** ** Writes to the tape *)

(** C9, as stated, fails: "," contains neither [plus] nor [minus], and
    executing it stores the character read in the current cell. *)
Lemma input_writes_the_tape :
  resolve nice <$> prog "," = [Some Input] /\
  execute 2 nice (prog ",") (initial [65]) = Some (Ok false, seeded 65 []) /\
  array (initial [65]) !! 0%nat = Some 0 /\
  array (seeded 65 []) !! 0%nat = Some 65 /\
  array (seeded 65 []) <> array (initial [65]).
Proof.
  do 4 (split; [by_vm|]).
  intros E. apply (f_equal (fun a => a !! 0%nat)) in E. discriminate E.
Qed.

Lemma py_setitem_elsewhere {A} (l l' : list A) (i : Z) (x : A) :
  0 <= i -> py_setitem l i x = Ok l' -> l' = <[Z.to_nat i := x]> l.
Proof.
  intros Hi. unfold py_setitem.
  destruct (Z.ltb_spec i 0); [lia|]. destruct (_ && _); [|done].
  by intros [= <-].
Qed.

(** What one iteration of the main loop does to the tape. *)
Lemma body_array cs code l s :
  let s' := state_of (body cs code l s) in
  array s' = array s \/
  exists char v,
    py_getitem code (index l) = Ok char /\
    py_setitem (array s) (ptr s) v = Ok (array s') /\
    ((resolve cs char = Some Increment /\
      exists old, py_getitem (array s) (ptr s) = Ok old /\
                  v = (old + 1) mod 256) \/
     (resolve cs char = Some Decrement /\
      exists old, py_getitem (array s) (ptr s) = Ok old /\
                  v = (old - 1) mod 256) \/
     (resolve cs char = Some Input /\ exists rest, stdin s = v :: rest)).
Proof.
  simpl. rewrite body_resolve.
  destruct (py_getitem code (index l)) as [char|] eqn:Hchar; [|by left].
  destruct (resolve cs char) as [[]|] eqn:Hop; simpl.
  - left. unfold do_gt. by destruct (py_mod _ _).
  - left. unfold do_lt. by destruct (py_mod _ _).
  - unfold do_plus, do_add.
    destruct (py_getitem (array s) (ptr s)) as [old|] eqn:Hold; simpl;
      [|by left].
    destruct (py_setitem _ _ _) as [a|] eqn:Hset; simpl; [|by left].
    right. exists char, ((old + 1) mod 256). split; [done|]. split; [done|].
    left. split; [done|]. by exists old.
  - unfold do_minus, do_add.
    destruct (py_getitem (array s) (ptr s)) as [old|] eqn:Hold; simpl;
      [|by left].
    destruct (py_setitem _ _ _) as [a|] eqn:Hset; simpl; [|by left].
    right. exists char, ((old + -1) mod 256). split; [done|]. split; [done|].
    right. left. split; [done|]. by exists old.
  - left. unfold do_period, putChar.
    destruct (py_getitem (array s) (ptr s)); simpl; [|done].
    by destruct (_ && _).
  - unfold do_comma, getChar. destruct (stdin s) as [|v rest] eqn:Hin;
      simpl; [by left|].
    destruct (py_setitem _ _ _) as [a|] eqn:Hset; simpl; [|by left].
    right. exists char, v. split; [done|]. split; [done|].
    right. right. split; [done|]. by exists rest.
  - left. unfold do_lbracket. destruct (py_getitem (array s) (ptr s)); [|done].
    destruct (_ =? 0); [|done]. unfold do_jump.
    destruct (jumps l !! index l); [done|]. by destruct (scan_right _ _ _ _).
  - left. unfold do_rbracket. destruct (py_getitem (array s) (ptr s)); [|done].
    destruct (negb _); [|done]. unfold do_jump.
    destruct (jumps l !! index l); [done|]. by destruct (scan_left _ _ _ _).
  - by left.
Qed.

(** C9, amended: the main loop changes the tape through Increment,
    Decrement and Input only, each by one assignment to the cell under
    the cursor: the cell plus one modulo 256, the cell minus one modulo
    256, the code point read.  So a program without the characters of
    these three operations leaves every cell as it was, however long it
    runs. *)
Theorem tape_writes cs code :
  (forall l s,
     let s' := state_of (body cs code l s) in
     array s' = array s \/
     exists char v,
       py_getitem code (index l) = Ok char /\
       py_setitem (array s) (ptr s) v = Ok (array s') /\
       ((resolve cs char = Some Increment /\
         exists old, py_getitem (array s) (ptr s) = Ok old /\
                     v = (old + 1) mod 256) \/
        (resolve cs char = Some Decrement /\
         exists old, py_getitem (array s) (ptr s) = Ok old /\
                     v = (old - 1) mod 256) \/
        (resolve cs char = Some Input /\ exists rest, stdin s = v :: rest))) /\
  (forall (a a' : list Z) p v,
     0 <= p -> py_setitem a p v = Ok a' -> a' = <[Z.to_nat p := v]> a) /\
  (Chars.plus cs ∉ code -> Chars.minus cs ∉ code -> Chars.comma cs ∉ code ->
   forall n l s, array (state_of (iterate n cs code l s)) = array s).
Proof.
  split; [apply body_array|]. split; [apply py_setitem_elsewhere|].
  intros Hplus Hminus Hcomma.
  induction n as [|n IH]; intros l s; simpl; [done|].
  destruct (index l <? len code); [|done].
  pose proof (body_array cs code l s) as Hb. simpl in Hb.
  destruct Hb as [Hb|(char & v & Hchar & _ & Hop)].
  - destruct (body cs code l s); simpl in *; [by rewrite IH|done].
  - apply py_getitem_elem_of in Hchar.
    destruct Hop as [[Hop _]|[[Hop _]|[Hop _]]];
      apply resolve_glyph in Hop; simpl in Hop; by subst char.
Qed.

(** An instance of [tape_writes]: a loop that prints and moves. *)
Lemma tape_writes_witness :
  ((Chars.plus nice ∉ prog "[>.<]") /\ (Chars.minus nice ∉ prog "[>.<]") /\
   (Chars.comma nice ∉ prog "[>.<]")) /\
  forall n l s,
    array (state_of (iterate n nice (prog "[>.<]") l s)) = array s.
Proof.
  assert (H : forall c, c ∈ ["+"; "-"; ","]%char -> c ∉ prog "[>.<]").
  { intros c Hc Hin. simpl in Hin.
    repeat (apply elem_of_cons in Hin as [->|Hin];
            [repeat (apply elem_of_cons in Hc as [Hc|Hc]; [discriminate Hc|]);
             by apply elem_of_nil in Hc|]).
    by apply elem_of_nil in Hin. }
  assert (H1 := H "+"%char ltac:(repeat constructor)).
  assert (H2 := H "-"%char ltac:(repeat constructor)).
  assert (H3 := H ","%char ltac:(repeat constructor)).
  split; [done|]. exact (proj2 (proj2 (tape_writes nice (prog "[>.<]"))) H1 H2 H3).
Defined.

(** ** Comments *)

Lemma strip_app cs xs ys : strip cs (xs ++ ys) = strip cs xs ++ strip cs ys.
Proof.
  induction xs as [|x xs IH]; simpl; [done|].
  destruct (resolve cs x); by rewrite IH.
Qed.

Lemma strip_reverse cs xs : strip cs (reverse xs) = reverse (strip cs xs).
Proof.
  induction xs as [|x xs IH]; simpl; [done|].
  rewrite reverse_cons, strip_app, IH. simpl.
  destruct (resolve cs x); [by rewrite reverse_cons|by rewrite app_nil_r].
Qed.

Lemma resolve_None_delta cs char : resolve cs char = None -> delta cs char = 0.
Proof.
  unfold resolve, delta.
  repeat (destruct (Ascii.eqb char _); [congruence|]). done.
Qed.

Lemma strip_resolve cs code :
  resolve cs <$> strip cs code = Some <$> omap (resolve cs) code.
Proof.
  induction code as [|c code IH]; simpl; [done|].
  destruct (resolve cs c) eqn:E; simpl; [|exact IH].
  rewrite E. f_equal. exact IH.
Qed.

(** The run on a text and the run on the text without its comments,
    position [i] of the one going with position [pos cs code i] of the
    other. *)
Section Comments.

Variable cs : Chars.t.
Variable code : list ascii.

Lemma pos_nonneg i : 0 <= pos cs code i.
Proof. apply len_nonneg. Qed.

Lemma pos_succ i char :
  0 <= i -> code !! Z.to_nat i = Some char ->
  pos cs code (i + 1) =
  pos cs code i + match resolve cs char with Some _ => 1 | None => 0 end.
Proof.
  intros Hi Hc. unfold pos.
  replace (Z.to_nat (i + 1)) with (S (Z.to_nat i)) by lia.
  rewrite (take_S_r _ _ char Hc), strip_app. unfold len.
  rewrite length_app. simpl. destruct (resolve cs char); simpl; lia.
Qed.

Lemma pos_le i j : 0 <= i <= j -> pos cs code i <= pos cs code j.
Proof.
  intros Hij. unfold pos, len.
  replace (Z.to_nat j) with (Z.to_nat i + Z.to_nat (j - i))%nat by lia.
  rewrite <- take_take_drop, strip_app, length_app. lia.
Qed.

Lemma pos_lt i j :
  operation_at cs code i -> i < j -> pos cs code i < pos cs code j.
Proof.
  intros (Hi & char & Hc & Hop) Hij.
  pose proof (pos_succ i char Hi Hc) as Hs.
  pose proof (pos_le (i + 1) j ltac:(lia)).
  destruct (resolve cs char); [lia|done].
Qed.

Lemma pos_inj i j :
  operation_at cs code i -> operation_at cs code j ->
  pos cs code i = pos cs code j -> i = j.
Proof.
  intros Hi Hj Hp.
  destruct (Z.lt_trichotomy i j) as [Hlt|[Heq|Hgt]]; [|done|].
  - pose proof (pos_lt i j Hi Hlt). lia.
  - pose proof (pos_lt j i Hj Hgt). lia.
Qed.

Lemma pos_len : pos cs code (len code) = len (strip cs code).
Proof. unfold pos, len. by rewrite Nat2Z.id, firstn_all. Qed.

Lemma take_strip i :
  take (Z.to_nat (pos cs code i)) (strip cs code) =
  strip cs (take (Z.to_nat i) code).
Proof.
  rewrite <- (take_drop (Z.to_nat i) code) at 2. rewrite strip_app.
  unfold pos, len. by rewrite Nat2Z.id, take_app_length.
Qed.

Lemma drop_strip i :
  drop (Z.to_nat (pos cs code i)) (strip cs code) =
  strip cs (drop (Z.to_nat i) code).
Proof.
  rewrite <- (take_drop (Z.to_nat i) code) at 2. rewrite strip_app.
  unfold pos, len. by rewrite Nat2Z.id, drop_app_length.
Qed.

Lemma strip_lookup i char :
  0 <= i -> code !! Z.to_nat i = Some char -> resolve cs char <> None ->
  strip cs code !! Z.to_nat (pos cs code i) = Some char.
Proof.
  intros Hi Hc Hop.
  rewrite <- (Nat.add_0_r (Z.to_nat (pos cs code i))), <- lookup_drop, drop_strip.
  rewrite (drop_S _ _ _ Hc). simpl. by destruct (resolve cs char).
Qed.

Lemma operation_at_range i : operation_at cs code i -> 0 <= i < len code.
Proof.
  intros (Hi & char & Hc & _). apply lookup_lt_Some in Hc. unfold len. lia.
Qed.

(** Comments do not count in a search. *)
Lemma first_zero_strip rest paren :
  paren <> 0 ->
  match first_zero (delta cs <$> rest) paren with
  | Some k =>
      (1 <= k)%nat /\
      (exists char, rest !! (k - 1)%nat = Some char /\ resolve cs char <> None) /\
      first_zero (delta cs <$> strip cs rest) paren =
        Some (length (strip cs (take k rest)))
  | None => first_zero (delta cs <$> strip cs rest) paren = None
  end.
Proof.
  revert paren. induction rest as [|c rest IH]; intros paren Hp; [done|].
  cbn [fmap list_fmap first_zero strip].
  destruct (resolve cs c) as [op|] eqn:Hop.
  - cbn [fmap list_fmap first_zero].
    destruct (Z.eqb_spec (paren + delta cs c) 0) as [Hz|Hnz].
    + split; [lia|]. split; [exists c; by rewrite Hop|].
      simpl. by rewrite Hop.
    + specialize (IH (paren + delta cs c) Hnz).
      fold (fmap (M := list) (delta cs)) in *.
      destruct (first_zero (delta cs <$> rest) _) as [k|]; simpl.
      * destruct IH as (Hk & (char & Hchar & Hc) & ->). split; [lia|]. split.
        -- exists char. split; [|done].
           by replace (k - 0)%nat with (S (k - 1)) by lia.
        -- simpl. by rewrite Hop.
      * by rewrite IH.
  - rewrite (resolve_None_delta _ _ Hop), Z.add_0_r.
    destruct (Z.eqb_spec paren 0); [done|]. specialize (IH paren Hp).
    fold (fmap (M := list) (delta cs)) in *.
    destruct (first_zero (delta cs <$> rest) _) as [k|]; simpl; [|done].
    destruct IH as (Hk & (char & Hchar & Hc) & ->). split; [lia|]. split.
    + exists char. split; [|done].
      by replace (k - 0)%nat with (S (k - 1)) by lia.
    + by rewrite Hop.
Qed.

Lemma scan_right_strip i paren :
  operation_at cs code i -> paren <> 0 ->
  match scan_right cs code i paren with
  | Found q =>
      operation_at cs code q /\
      scan_right cs (strip cs code) (pos cs code i) paren =
        Found (pos cs code q)
  | Unmatched =>
      scan_right cs (strip cs code) (pos cs code i) paren = Unmatched
  | ScanRaise _ => False
  end.
Proof.
  intros Hop Hp. pose proof (operation_at_range _ Hop) as Hi.
  destruct Hop as (_ & ci & Hci & Hopi).
  assert (Hsucc : pos cs code (i + 1) = pos cs code i + 1).
  { rewrite (pos_succ i ci) by (lia || done).
    by destruct (resolve cs ci). }
  pose proof (pos_le (i + 1) (len code) ltac:(lia)) as Hle.
  rewrite pos_len in Hle. pose proof (pos_nonneg i).
  rewrite (scan_right_first_zero cs code) by (lia || done).
  rewrite (scan_right_first_zero cs (strip cs code)) by (lia || done).
  rewrite <- Hsucc, drop_strip.
  set (rest := drop (Z.to_nat (i + 1)) code).
  pose proof (first_zero_strip rest paren Hp) as Hfz.
  destruct (first_zero (delta cs <$> rest) paren) as [k|]; [|by rewrite Hfz].
  destruct Hfz as (Hk & (char & Hchar & Hc) & ->).
  assert (Hq : code !! Z.to_nat (i + Z.of_nat k) = Some char).
  { unfold rest in Hchar. rewrite lookup_drop in Hchar.
    by replace (Z.to_nat (i + Z.of_nat k))
      with (Z.to_nat (i + 1) + (k - 1))%nat by lia. }
  split; [split; [lia|by exists char]|]. f_equal.
  destruct k as [|k]; [lia|].
  replace (S k - 1)%nat with k in Hchar by lia.
  rewrite (take_S_r rest k char Hchar), strip_app, length_app.
  simpl. destruct (resolve cs char); [|done]. simpl.
  unfold pos at 2. unfold len.
  replace (Z.to_nat (i + Z.of_nat (S k)))
    with (Z.to_nat (i + 1) + k)%nat by lia.
  rewrite <- take_take_drop, strip_app, length_app.
  fold rest. unfold pos, len in Hsucc. unfold pos, len. lia.
Qed.

Lemma scan_left_strip i paren :
  operation_at cs code i -> paren <> 0 ->
  match scan_left cs code i paren with
  | Found q =>
      operation_at cs code q /\
      scan_left cs (strip cs code) (pos cs code i) paren =
        Found (pos cs code q)
  | Unmatched =>
      scan_left cs (strip cs code) (pos cs code i) paren = Unmatched
  | ScanRaise _ => False
  end.
Proof.
  intros Hop Hp. pose proof (operation_at_range _ Hop) as Hi.
  pose proof (pos_le i (len code) ltac:(lia)) as Hle.
  rewrite pos_len in Hle. pose proof (pos_nonneg i).
  rewrite (scan_left_first_zero cs code) by (lia || done).
  rewrite (scan_left_first_zero cs (strip cs code)) by (lia || done).
  rewrite take_strip, <- strip_reverse.
  set (rest := reverse (take (Z.to_nat i) code)).
  assert (Hlen : length (take (Z.to_nat i) code) = Z.to_nat i).
  { rewrite length_take. unfold len in Hi. lia. }
  pose proof (first_zero_strip rest paren Hp) as Hfz.
  pose proof (first_zero_spec (delta cs <$> rest) paren) as Hspec.
  destruct (first_zero (delta cs <$> rest) paren) as [k|]; [|by rewrite Hfz].
  destruct Hfz as (Hk & (char & Hchar & Hc) & ->).
  destruct (Hspec k eq_refl) as ((_ & Hkle) & _). clear Hspec.
  unfold rest in Hkle. rewrite length_fmap, length_reverse, Hlen in Hkle.
  assert (Hq : code !! Z.to_nat (i - Z.of_nat k) = Some char).
  { unfold rest in Hchar. rewrite reverse_lookup in Hchar by lia.
    rewrite Hlen, lookup_take_lt in Hchar by lia.
    by replace (Z.to_nat (i - Z.of_nat k))
      with (Z.to_nat i - S (k - 1))%nat by lia. }
  split; [split; [lia|by exists char]|]. f_equal.
  unfold rest. rewrite take_reverse, Hlen, strip_reverse, length_reverse.
  unfold pos at 1 2. unfold len.
  rewrite <- (take_drop (Z.to_nat i - k) (take (Z.to_nat i) code)) at 1.
  rewrite strip_app, length_app, take_take.
  replace ((Z.to_nat i - k) `min` Z.to_nat i)%nat
    with (Z.to_nat (i - Z.of_nat k)) by lia.
  lia.
Qed.

Lemma pos_operation i :
  operation_at cs code i -> pos cs code (i + 1) = pos cs code i + 1.
Proof.
  intros (Hi & char & Hc & Hop). rewrite (pos_succ i char Hi Hc).
  by destruct (resolve cs char).
Qed.

Lemma advance_strip l l' b t s :
  stripped cs code l l' -> operation_at cs code t ->
  step_stripped cs code
    (advance {| stdout := b; jumps := jumps l; index := t |} s)
    (advance {| stdout := b; jumps := jumps l'; index := pos cs code t |} s).
Proof.
  intros (Hout & Hrange & Hindex & Hvals & Hjumps) Ht.
  pose proof (operation_at_range _ Ht). eexists. split; [done|].
  unfold stripped. simpl.
  split; [done|]. split; [lia|]. split; [by rewrite pos_operation|done].
Qed.

Lemma do_jump_strip l l' s scan scan' side :
  stripped cs code l l' -> operation_at cs code (index l) ->
  match scan with
  | Found q => operation_at cs code q /\ scan' = Found (pos cs code q)
  | Unmatched => scan' = Unmatched
  | ScanRaise _ => False
  end ->
  step_stripped cs code (do_jump scan side l s) (do_jump scan' side l' s).
Proof.
  intros Hl Hop Hscan. pose proof Hl as (Hout & Hrange & Hindex & Hvals & Hjumps).
  unfold do_jump. rewrite Hindex, (Hjumps _ Hop).
  destruct (jumps l !! index l) as [t|] eqn:Ht; cbn [fmap option_fmap option_map].
  - unfold set_index. rewrite Hout.
    apply (advance_strip l l' _ t s Hl). by eapply Hvals.
  - destruct scan as [q| |e]; [|by rewrite Hscan, Hout|done].
    destruct Hscan as [Hq ->]. rewrite Hout.
    pose proof (operation_at_range _ Hq). eexists. split; [done|].
    unfold stripped. simpl.
    split; [done|]. split; [lia|]. split; [by rewrite pos_operation|]. split.
    + intros i t. rewrite !lookup_insert. repeat case_decide; try done.
      * by intros [= <-].
      * by intros [= <-].
      * apply Hvals.
    + intros i Hi. rewrite !lookup_insert.
      destruct (decide (q = i)) as [->|Hqi].
      { by rewrite decide_True. }
      rewrite decide_False by (intros E; by apply pos_inj in E).
      destruct (decide (index l = i)) as [<-|Hli].
      { by rewrite decide_True. }
      rewrite decide_False by (intros E; by apply pos_inj in E).
      by apply Hjumps.
Qed.

Lemma exec_op_strip op l l' s :
  stripped cs code l l' -> operation_at cs code (index l) ->
  step_stripped cs code (exec_op cs code (Some op) l s)
    (exec_op cs (strip cs code) (Some op) l' s).
Proof.
  intros Hl Hop. pose proof Hl as (Hout & Hrange & Hindex & Hvals & Hjumps).
  assert (Hadv : forall b s1,
    step_stripped cs code
      (advance {| stdout := b; jumps := jumps l; index := index l |} s1)
      (advance {| stdout := b; jumps := jumps l'; index := index l' |} s1)).
  { intros b s1. rewrite Hindex. by apply advance_strip. }
  assert (Hsame : forall s1, step_stripped cs code (advance l s1) (advance l' s1)).
  { intros s1. specialize (Hadv (stdout l) s1). rewrite <- Hout in Hadv at 2.
    by destruct l, l'. }
  destruct op; simpl.
  - unfold do_gt. by destruct (py_mod _ _).
  - unfold do_lt. by destruct (py_mod _ _).
  - unfold do_plus, do_add. by destruct (py_bind _ _).
  - unfold do_minus, do_add. by destruct (py_bind _ _).
  - unfold do_period. destruct (putChar s) as [[] s1]; [|done].
    rewrite Hindex. by apply advance_strip.
  - unfold do_comma. by destruct (getChar s) as [[] s1].
  - unfold do_lbracket. destruct (py_getitem (array s) (ptr s)); [|done].
    destruct (_ =? 0); [|done]. apply do_jump_strip; [done..|].
    rewrite Hindex. by apply scan_right_strip.
  - unfold do_rbracket. destruct (py_getitem (array s) (ptr s)); [|done].
    destruct (negb _); [|done]. apply do_jump_strip; [done..|].
    rewrite Hindex. by apply scan_left_strip.
Qed.

Lemma body_strip l l' s :
  stripped cs code l l' -> index l < len code ->
  (body cs code l s = Next (set_index l (index l + 1)) s /\
   stripped cs code (set_index l (index l + 1)) l') \/
  (index l' < len (strip cs code) /\
   step_stripped cs code (body cs code l s) (body cs (strip cs code) l' s)).
Proof.
  intros Hl Hlt. pose proof Hl as (Hout & Hrange & Hindex & Hvals & Hjumps).
  destruct (py_getitem_inside code (index l)) as (char & Hchar & Hget); [lia|].
  rewrite !body_resolve, Hget.
  destruct (resolve cs char) as [op|] eqn:Hop.
  - right.
    assert (Hat : operation_at cs code (index l)).
    { split; [lia|]. exists char. by rewrite Hop. }
    pose proof (pos_lt (index l) (len code) Hat Hlt) as Hpos.
    rewrite pos_len, <- Hindex in Hpos. split; [done|].
    rewrite (py_getitem_lookup _ _ char), Hop.
    + by apply exec_op_strip.
    + rewrite Hindex. apply pos_nonneg.
    + rewrite Hindex. apply strip_lookup; [lia|done|by rewrite Hop].
  - left. split; [done|]. unfold stripped. simpl.
    split; [done|]. split; [lia|]. split; [|done].
    rewrite (pos_succ (index l) char), Hop by (lia || done). lia.
Qed.

Lemma stripped_exit l l' :
  stripped cs code l l' -> len code <= index l ->
  len (strip cs code) <= index l' /\ stdout l' = stdout l.
Proof.
  intros (Hout & Hrange & Hindex & _) Hge. split; [|done].
  replace (index l) with (len code) in Hindex by lia.
  rewrite Hindex, pos_len. lia.
Qed.

(** A run on a text gives a run on the text without comments. *)
Lemma iterate_strip n l l' s r s1 :
  stripped cs code l l' ->
  iterate n cs code l s = Leave r s1 ->
  exists n', iterate n' cs (strip cs code) l' s = Leave r s1.
Proof.
  revert l l' s. induction n as [|n IH]; intros l l' s Hl; [done|].
  rewrite iterate_S. destruct (Z.ltb_spec (index l) (len code)) as [Hlt|Hge].
  - destruct (body_strip l l' s Hl Hlt) as [[-> Hl1]|[Hlt' Hst]].
    + by apply IH.
    + destruct (body cs code l s) as [l1 s2|r2 s2]; simpl in Hst.
      * destruct Hst as (l1' & Hb & Hl1). intros Hrun.
        destruct (IH _ _ _ Hl1 Hrun) as [n' Hn']. exists (S n').
        rewrite iterate_S, Hb.
        by destruct (Z.ltb_spec (index l') (len (strip cs code))); [|lia].
      * intros [= <- <-]. exists 1%nat. rewrite iterate_S, Hst.
        by destruct (Z.ltb_spec (index l') (len (strip cs code))); [|lia].
  - destruct (stripped_exit l l' Hl Hge) as [Hge' Hout].
    intros [= <- <-]. exists 1%nat. rewrite iterate_S, Hout.
    by destruct (Z.ltb_spec (index l') (len (strip cs code))); [lia|].
Qed.

(** A run on the text without comments gives a run on the text. *)
Lemma strip_iterate n' l l' s r s1 :
  stripped cs code l l' ->
  iterate n' cs (strip cs code) l' s = Leave r s1 ->
  exists n, iterate n cs code l s = Leave r s1.
Proof.
  revert l l' s. induction n' as [|n' IH]; intros l l' s Hl; [done|].
  remember (Z.to_nat (len code - index l)) as m eqn:Hm.
  revert l Hl Hm. induction m as [m IHm] using lt_wf_ind. intros l Hl Hm Hrun.
  destruct (Z.lt_ge_cases (index l) (len code)) as [Hlt|Hge].
  - destruct (body_strip l l' s Hl Hlt) as [[Hb Hl1]|[Hlt' Hst]].
    + destruct (IHm (Z.to_nat (len code - (index l + 1))) ltac:(lia)
                  _ Hl1 eq_refl Hrun) as [n Hn].
      exists (S n). rewrite iterate_S, Hb.
      by destruct (Z.ltb_spec (index l) (len code)); [|lia].
    + rewrite iterate_S in Hrun.
      destruct (Z.ltb_spec (index l') (len (strip cs code))); [|lia].
      destruct (body cs code l s) as [l1 s2|r2 s2] eqn:Hb; simpl in Hst.
      * destruct Hst as (l1' & Hb' & Hl1). rewrite Hb' in Hrun.
        destruct (IH _ _ _ Hl1 Hrun) as [n Hn]. exists (S n).
        rewrite iterate_S, Hb.
        by destruct (Z.ltb_spec (index l) (len code)); [|lia].
      * rewrite Hst in Hrun. exists 1%nat. rewrite iterate_S, Hb.
        by destruct (Z.ltb_spec (index l) (len code)); [|lia].
  - destruct (stripped_exit l l' Hl Hge) as [Hge' Hout].
    rewrite iterate_S in Hrun.
    destruct (Z.ltb_spec (index l') (len (strip cs code))); [lia|].
    rewrite Hout in Hrun. exists 1%nat. rewrite iterate_S.
    by destruct (Z.ltb_spec (index l) (len code)); [lia|].
Qed.

Lemma stripped_entry : stripped cs code entry entry.
Proof.
  unfold stripped. simpl. pose proof (len_nonneg code).
  split; [done|]. split; [lia|]. split; [done|]. split; [done|].
  intros i _. by rewrite !lookup_empty.
Qed.

Lemma interpret_strip s res :
  (exists n, interpret n cs code s = Some res) <->
  (exists n, interpret n cs (strip cs code) s = Some res).
Proof.
  unfold interpret. destruct res as [r s1]. split; intros [n Hn].
  - destruct (iterate n cs code entry s) as [|r' s'] eqn:Hrun; [done|].
    injection Hn as -> ->.
    destruct (iterate_strip _ _ _ _ _ _ stripped_entry Hrun)
      as [n' Hn'].
    exists n'. by rewrite Hn'.
  - destruct (iterate n cs (strip cs code) entry s) as [|r' s'] eqn:Hrun;
      [done|].
    injection Hn as -> ->.
    destruct (strip_iterate _ _ _ _ _ _ stripped_entry Hrun)
      as [n' Hn'].
    exists n'. by rewrite Hn'.
Qed.

End Comments.

(** C8: take two tables of eight pairwise distinct characters each and
    two programs, and run them from equal states on equal input.  If
    the programs spell the same operations position by position, the
    runs agree for every bound on their length: same result, tape,
    cursor, pending input and events.  If the programs spell the same
    sequence of operations once the comments are left out, one returns
    (or raises) exactly when the other does, with the same result and
    the same final state. *)
Theorem chars_substitution cs1 cs2 code1 code2 s :
  distinct cs1 -> distinct cs2 ->
  (resolve cs1 <$> code1 = resolve cs2 <$> code2 ->
   forall fuel,
     execute fuel cs1 code1 s = execute fuel cs2 code2 s) /\
  (operations cs1 code1 = operations cs2 code2 ->
   forall res,
     (exists fuel, execute fuel cs1 code1 s = Some res) <->
     (exists fuel, execute fuel cs2 code2 s = Some res)).
Proof.
  intros H1 H2. split.
  - intros H fuel. by apply distinct_ext.
  - intros H res. unfold execute.
    rewrite (interpret_strip cs1 code1), (interpret_strip cs2 code2).
    assert (Hs : resolve cs1 <$> strip cs1 code1 =
                 resolve cs2 <$> strip cs2 code2).
    { rewrite !strip_resolve. unfold operations in H. by rewrite H. }
    split; intros [fuel Hrun]; exists fuel.
    + by rewrite <- (distinct_ext cs1 cs2 _ _ fuel s H1 H2 Hs).
    + by rewrite (distinct_ext cs1 cs2 _ _ fuel s H1 H2 Hs).
Qed.

(** An instance of [chars_substitution]: the move loop with comments
    under [nice] and without under [troll]. *)
Lemma chars_substitution_witness :
  (distinct nice /\ distinct troll /\
   operations nice (prog "add 1: + then [->+<] moves it") =
   operations troll (prog "gsjagdv")) /\
  forall res,
    (exists fuel, execute fuel nice (prog "add 1: + then [->+<] moves it")
                    (initial []) = Some res) <->
    (exists fuel, execute fuel troll (prog "gsjagdv") (initial []) = Some res).
Proof.
  assert (Ht : distinct troll)
    by exact (distinct_TrollInterpreter _ troll_setChars).
  assert (Hops : operations nice (prog "add 1: + then [->+<] moves it") =
                 operations troll (prog "gsjagdv")).
  { transitivity [Increment; LoopOpen; Decrement; MoveRight; Increment;
                  MoveLeft; LoopClose]; by_vm. }
  split; [split; [apply distinct_nice|split; [exact Ht|exact Hops]]|].
  exact (proj2 (chars_substitution nice troll _ _ (initial [])
                  distinct_nice Ht) Hops).
Defined.

(** * Further properties of the interpreters and of the console *)

(** ** Bytes and exceptions *)

Lemma byte_mod v : byte (v mod 256).
Proof. unfold byte. by apply Z.mod_pos_bound. Qed.

Lemma py_setitem_inside {A} (l : list A) (i : Z) (x : A) :
  0 <= i < len l -> py_setitem l i x = Ok (<[Z.to_nat i := x]> l).
Proof.
  intros Hi. unfold py_setitem.
  destruct (Z.ltb_spec i 0); [lia|].
  destruct (Z.leb_spec 0 i); [|lia]. by destruct (Z.ltb_spec i (len l)); [|lia].
Qed.

(** The searches stay inside the text. *)
Lemma scan_right_range cs code index paren :
  -1 <= index < len code -> paren <> 0 ->
  match scan_right cs code index paren with
  | Found q => index < q < len code
  | Unmatched => True
  | ScanRaise _ => False
  end.
Proof.
  intros Hi Hp. rewrite scan_right_first_zero by done.
  destruct (first_zero _ _) as [k|] eqn:E; [|done].
  apply first_zero_spec in E as (Hr & _).
  rewrite length_fmap, length_drop in Hr. unfold len in *. lia.
Qed.

Lemma scan_left_range cs code index paren :
  0 <= index <= len code -> paren <> 0 ->
  match scan_left cs code index paren with
  | Found q => 0 <= q < index
  | Unmatched => True
  | ScanRaise _ => False
  end.
Proof.
  intros Hi Hp. rewrite scan_left_first_zero by done.
  destruct (first_zero _ _) as [k|] eqn:E; [|done].
  apply first_zero_spec in E as (Hr & _).
  rewrite length_fmap, length_reverse, length_take in Hr. unfold len in *. lia.
Qed.










(** ** Arithmetic on a cell *)

Lemma adds_cons cs char code :
  adds cs (char :: code) = add cs char + adds cs code.
Proof. done. Qed.

Lemma py_getitem_Ok_lookup {A} (l : list A) (i : Z) (x : A) :
  0 <= i -> py_getitem l i = Ok x -> l !! Z.to_nat i = Some x.
Proof.
  intros Hi. unfold py_getitem. destruct (Z.ltb_spec i 0); [lia|].
  destruct (Z.ltb_spec i 0); [lia|]. by destruct (l !! Z.to_nat i); intros [= ->].
Qed.

(** [do_add] on a well-formed engine. *)
Lemma do_add_well_formed d l s v :
  well_formed s -> array s !! Z.to_nat (ptr s) = Some v ->
  do_add d l s =
  advance l (set_array s (<[Z.to_nat (ptr s) := (v + d) mod 256]> (array s))).
Proof.
  intros [Hlen Hptr] Hv. unfold do_add.
  rewrite (py_getitem_lookup _ _ v) by (lia || done). simpl.
  by rewrite py_setitem_inside by lia.
Qed.

(** A run over increments and decrements only, from the [k]-th
    character on. *)
Lemma iterate_adds cs code (m k : nat) l s v :
  only_adds cs code -> well_formed s ->
  array s !! Z.to_nat (ptr s) = Some v -> byte v ->
  (k + m = length code)%nat -> index l = Z.of_nat k ->
  iterate (S m) cs code l s =
  Leave (Ok (stdout l))
    (set_array s (<[Z.to_nat (ptr s) := (v + adds cs (drop k code)) mod 256]>
                    (array s))).
Proof.
  intros Hadds. revert k l s v.
  induction m as [|m IH]; intros k l s v Hwf Hv Hbyte Hk Hl; rewrite iterate_S.
  - destruct (Z.ltb_spec (index l) (len code)); [unfold len in *; lia|].
    rewrite drop_ge by lia. unfold adds. simpl.
    rewrite Z.add_0_r, Z.mod_small by done.
    rewrite list_insert_id by done. by destruct s.
  - destruct (Z.ltb_spec (index l) (len code)); [|unfold len in *; lia].
    destruct (lookup_lt_is_Some_2 code k) as [char Hchar]; [lia|].
    assert (Hop : resolve cs char = Some Increment \/
                  resolve cs char = Some Decrement).
    { eapply (proj1 (Forall_forall _ _) Hadds), list_elem_of_lookup_2, Hchar. }
    rewrite (drop_S _ _ _ Hchar), adds_cons, body_resolve.
    rewrite (py_getitem_lookup _ _ char) by (lia || by rewrite Hl, Nat2Z.id).
    assert (Hstep : exec_op cs code (resolve cs char) l s =
                    advance l (set_array s
                      (<[Z.to_nat (ptr s) := (v + add cs char) mod 256]>
                         (array s)))).
    { unfold add. destruct Hop as [-> | ->]; simpl;
        by apply do_add_well_formed. }
    rewrite Hstep. unfold advance. cbv beta iota.
    set (s1 := set_array s _).
    assert (Hwf1 : well_formed s1).
    { destruct Hwf as [Hlen Hptr]. split; [|done]. unfold s1, len in *. simpl.
      by rewrite length_insert. }
    rewrite (IH (S k) _ s1 ((v + add cs char) mod 256));
      [|done| |apply byte_mod|lia|simpl; lia].
    + simpl. do 2 f_equal. unfold s1. simpl.
      rewrite list_insert_insert_eq. f_equal.
      by rewrite Zplus_mod_idemp_l, Z.add_assoc.
    + unfold s1. simpl. apply list_lookup_insert_eq.
      apply lookup_lt_Some in Hv. done.
Qed.

(** X2: a program of increments and decrements only, of any length,
    run on a well-formed engine whose current cell is a byte, returns
    after one pass with that cell changed by the sum of the steps modulo
    256 and nothing else changed; when the sum is a multiple of 256 (256
    increments, or an increment and a decrement) the engine is left as it
    was. *)
Theorem cell_wraps cs code s v :
  well_formed s -> only_adds cs code ->
  py_getitem (array s) (ptr s) = Ok v -> byte v ->
  execute (S (length code)) cs code s =
    Some (Ok false,
          set_array s (<[Z.to_nat (ptr s) := (v + adds cs code) mod 256]>
                         (array s))) /\
  (adds cs code mod 256 = 0 ->
   execute (S (length code)) cs code s = Some (Ok false, s)).
Proof.
  intros Hwf Hadds Hget Hbyte.
  assert (Hv : array s !! Z.to_nat (ptr s) = Some v).
  { apply py_getitem_Ok_lookup; [|done]. destruct Hwf as [_ ?]. lia. }
  assert (Hrun : execute (S (length code)) cs code s =
    Some (Ok false,
          set_array s (<[Z.to_nat (ptr s) := (v + adds cs code) mod 256]>
                         (array s)))).
  { unfold execute, interpret.
    by rewrite (iterate_adds cs code (length code) 0 entry s v). }
  split; [done|]. intros Hzero. rewrite Hrun. do 2 f_equal.
  rewrite <- Zplus_mod_idemp_r, Hzero, Z.add_0_r, Z.mod_small by done.
  rewrite list_insert_id by done. by destruct s.
Qed.

(** An instance of [cell_wraps]: a decrement of a cell that holds 0. *)
Lemma cell_wraps_witness :
  (well_formed (initial []) /\ only_adds nice (prog "-") /\
   py_getitem (array (initial [])) (ptr (initial [])) = Ok 0 /\ byte 0) /\
  execute 2 nice (prog "-") (initial []) =
    Some (Ok false,
          set_array (initial [])
            (<[Z.to_nat (ptr (initial [])) := (0 + adds nice (prog "-")) mod 256]>
               (array (initial [])))).
Proof.
  assert (Hwf : well_formed (initial [])) by apply well_formed_reset.
  assert (Hadds : only_adds nice (prog "-")).
  { constructor; [right; reflexivity|constructor]. }
  assert (Hget : py_getitem (array (initial [])) (ptr (initial [])) = Ok 0)
    by reflexivity.
  assert (Hbyte : byte 0) by (unfold byte; lia).
  split; [done|].
  exact (proj1 (cell_wraps nice (prog "-") (initial []) 0 Hwf Hadds Hget Hbyte)).
Defined.

(** ** Texts without brackets *)




Lemma inputs_cons cs char code :
  inputs cs (char :: code) =
  match resolve cs char with Some Input => 1 | _ => 0 end + inputs cs code.
Proof. done. Qed.

Lemma inputs_nonneg cs code : 0 <= inputs cs code.
Proof.
  induction code as [|char code IH]; [done|]. rewrite inputs_cons.
  destruct (resolve cs char) as [[]|]; lia.
Qed.






(** ** The events of a call *)

(** An iteration prints characters only, unless it leaves [interpret]
    through [handleError]. *)
Lemma body_events cs code ev0 l s :
  only_output ev0 (events s) ->
  match body cs code l s with
  | Next l' s' => only_output ev0 (events s')
  | Leave r s' => output_then_error ev0 (events s') r
  end.
Proof.
  intros Hev.
  assert (Hstay : forall r, output_then_error ev0 (events s) r).
  { intros r. destruct Hev as [out ->]. exists out. by left. }
  rewrite body_resolve.
  destruct (py_getitem code (index l)) as [char|]; [|done].
  destruct (resolve cs char) as [[]|]; simpl.
  - unfold do_gt. by destruct (py_mod _ _).
  - unfold do_lt. by destruct (py_mod _ _).
  - unfold do_plus, do_add. by destruct (py_bind _ _).
  - unfold do_minus, do_add. by destruct (py_bind _ _).
  - unfold do_period, putChar.
    destruct (py_getitem (array s) (ptr s)); simpl; [|done].
    destruct (_ && _); simpl; [|done]. by apply only_output_PutChar.
  - unfold do_comma, getChar. destruct (stdin s); simpl; [done|].
    by destruct (py_setitem _ _ _).
  - unfold do_lbracket. destruct (py_getitem (array s) (ptr s)); [|done].
    destruct (_ =? 0); [|done]. unfold do_jump.
    destruct (jumps l !! index l); [done|].
    destruct (scan_right _ _ _ _); simpl; [done| |done].
    destruct Hev as [out ->]. exists out. right. exists side_left, (stdout l).
    by rewrite app_assoc.
  - unfold do_rbracket. destruct (py_getitem (array s) (ptr s)); [|done].
    destruct (negb _); [|done]. unfold do_jump.
    destruct (jumps l !! index l); [done|].
    destruct (scan_left _ _ _ _); simpl; [done| |done].
    destruct Hev as [out ->]. exists out. right. exists side_right, (stdout l).
    by rewrite app_assoc.
  - done.
Qed.

(** X4: whatever the program, the table and the state, a call of
    [interpret] adds to the output a run of printed characters and then,
    at most, one call of [handleError], which is the last thing it does:
    while the main loop runs, [handleError] has not been called; at
    most one call is made; nothing is printed after it; and a call that
    ends with an exception has not made it. *)
Theorem handleError_is_last cs code s :
  (forall n l' s',
     iterate n cs code entry s = Next l' s' ->
     only_output (events s) (events s')) /\
  (forall fuel r s',
     execute fuel cs code s = Some (r, s') ->
     output_then_error (events s) (events s') r).
Proof.
  pose proof (iterate_inv cs code
                (fun _ s' => only_output (events s) (events s'))
                (fun r s' => output_then_error (events s) (events s') r))
    as Hinv.
  specialize (Hinv (fun l s0 H _ => body_events cs code _ l s0 H)).
  assert (Hexit : forall (l : Locals) s0,
             only_output (events s) (events s0) -> len code <= index l ->
             output_then_error (events s) (events s0) (Ok (stdout l))).
  { intros l s0 [out ->] _. exists out. by left. }
  specialize (Hinv Hexit). split.
  - intros n l' s' Hrun.
    specialize (Hinv n entry s (only_output_refl _)). by rewrite Hrun in Hinv.
  - intros fuel r s'. unfold execute, interpret.
    specialize (Hinv fuel entry s (only_output_refl _)).
    destruct (iterate fuel cs code entry s); [done|]. by intros [= <- <-].
Qed.

(** ** The input of a call *)

Lemma inputs_elem_of cs code char :
  inputs cs code = 0 -> char ∈ code -> resolve cs char <> Some Input.
Proof.
  induction code as [|c code IH]; [by intros _ ?%elem_of_nil|].
  rewrite inputs_cons. pose proof (inputs_nonneg cs code).
  intros Hz [->|Hin]%elem_of_cons.
  - intros Hop. rewrite Hop in Hz. lia.
  - apply IH; [|done]. destruct (resolve cs c) as [[]|]; lia.
Qed.

(** An iteration takes at most one code point from the input, and none
    unless the operation is an input. *)
Lemma body_stdin cs code l s :
  stdin (state_of (body cs code l s)) = stdin s \/
  exists char c,
    py_getitem code (index l) = Ok char /\ resolve cs char = Some Input /\
    stdin s = c :: stdin (state_of (body cs code l s)).
Proof.
  rewrite body_resolve.
  destruct (py_getitem code (index l)) as [char|]; [|by left].
  destruct (resolve cs char) as [[]|] eqn:Hop; simpl.
  - left. unfold do_gt. by destruct (py_mod _ _).
  - left. unfold do_lt. by destruct (py_mod _ _).
  - left. unfold do_plus, do_add. by destruct (py_bind _ _).
  - left. unfold do_minus, do_add. by destruct (py_bind _ _).
  - left. unfold do_period, putChar.
    destruct (py_getitem (array s) (ptr s)); simpl; [|done].
    by destruct (_ && _).
  - unfold do_comma, getChar.
    destruct (stdin s) as [|c rest] eqn:Hstdin; simpl; [by left|].
    right. exists char, c. split; [done|]. split; [done|].
    by destruct (py_setitem _ _ _).
  - left. unfold do_lbracket. destruct (py_getitem (array s) (ptr s)); [|done].
    destruct (_ =? 0); [|done]. unfold do_jump.
    destruct (jumps l !! index l); [done|]. by destruct (scan_right _ _ _ _).
  - left. unfold do_rbracket. destruct (py_getitem (array s) (ptr s)); [|done].
    destruct (negb _); [|done]. unfold do_jump.
    destruct (jumps l !! index l); [done|]. by destruct (scan_left _ _ _ _).
  - by left.
Qed.

Lemma iterate_stdin cs code n l s :
  exists used,
    stdin s = used ++ stdin (state_of (iterate n cs code l s)) /\
    (length used <= n)%nat /\
    (inputs cs code = 0 -> used = []).
Proof.
  revert l s. induction n as [|n IH]; intros l s; simpl.
  { by exists []. }
  destruct (index l <? len code);
    [|exists []; split; [done|split; [simpl; lia|done]]].
  pose proof (body_stdin cs code l s) as Hbody.
  destruct (body cs code l s) as [l' s'|r s'] eqn:Hb; simpl in Hbody.
  - destruct (IH l' s') as (used & Hused & Hlen & Hnone).
    destruct Hbody as [Hsame|(char & c & Hchar & Hop & Hcons)].
    + exists used. rewrite <- Hsame. split; [done|]. split; [lia|done].
    + exists (c :: used). rewrite Hcons, Hused. split; [done|].
      split; [simpl; lia|]. intros Hz.
      by destruct (inputs_elem_of cs code char Hz (py_getitem_elem_of _ _ _ Hchar)).
  - simpl. destruct Hbody as [Hsame|(char & c & Hchar & Hop & Hcons)].
    + exists []. split; [done|]. split; [simpl; lia|done].
    + exists [c]. split; [done|]. split; [simpl; lia|]. intros Hz.
      by destruct (inputs_elem_of cs code char Hz (py_getitem_elem_of _ _ _ Hchar)).
Qed.

(** X5: a call only ever takes code points from the front of the
    pending input, at most one per iteration of the main loop, so that
    what is left after any number of iterations is a suffix of what was
    there; a program in which no character is taken for the input
    operation leaves the input untouched. *)
Theorem input_is_consumed cs code s :
  (forall n, exists used,
     stdin s = used ++ stdin (state_of (iterate n cs code entry s)) /\
     (length used <= n)%nat) /\
  (forall fuel r s',
     execute fuel cs code s = Some (r, s') ->
     exists used, stdin s = used ++ stdin s' /\
                  (inputs cs code = 0 -> stdin s' = stdin s)).
Proof.
  split.
  - intros n. destruct (iterate_stdin cs code n entry s) as (used & ? & ? & _).
    by exists used.
  - intros fuel r s'. unfold execute, interpret.
    destruct (iterate_stdin cs code fuel entry s) as (used & Hused & _ & Hz).
    destruct (iterate fuel cs code entry s); [done|]. intros [= <- <-].
    exists used. split; [done|]. intros ->%Hz. by rewrite Hused.
Qed.

(** ** Jumps *)

Lemma scan_right_no_raise cs code (q : Z) e :
  -1 <= q < len code -> scan_right cs code q 1 <> ScanRaise e.
Proof.
  intros Hq. rewrite scan_right_first_zero by lia.
  by destruct (first_zero _ _).
Qed.

(** X6: when an opening bracket is executed with the current cell at 0
    and no entry in [jumps], the search to the right, whose counter
    starts at 1, stops exactly at the closing bracket that matches;
    it reports an unmatched bracket exactly when there is none; the
    main loop goes on after the bracket found, with the pair recorded in
    [jumps]; and with a non-zero cell the loop is entered. *)
Theorem scan_right_matching cs code (q : Z) o :
  0 <= q -> code !! Z.to_nat q = Some o -> delta cs o = 1 ->
  (forall p, scan_right cs code q 1 = Found p <-> matching cs code q p) /\
  (scan_right cs code q 1 = Unmatched <-> forall p, ~ matching cs code q p) /\
  (forall l s p,
     index l = q -> py_getitem (array s) (ptr s) = Ok 0 ->
     jumps l !! q = None -> matching cs code q p ->
     do_lbracket cs code l s =
     Next {| stdout := stdout l;
             jumps := <[p := q]> (<[q := p]> (jumps l));
             index := p + 1 |} s) /\
  (forall l s cell,
     py_getitem (array s) (ptr s) = Ok cell -> cell <> 0 ->
     do_lbracket cs code l s = advance l s).
Proof.
  intros Hq Ho Hd.
  pose proof (fun p => scan_right_Found cs code q p o Hq Ho Hd) as Hfound.
  split; [done|]. split; [|split].
  - split.
    + intros Hs p Hm. apply Hfound in Hm. congruence.
    + intros Hnone. destruct (scan_right cs code q 1) as [p| |e] eqn:Hs.
      * by apply (scan_right_Found cs code q p o Hq Ho Hd), Hnone in Hs.
      * done.
      * apply scan_right_no_raise in Hs; [done|].
        apply lookup_lt_Some in Ho. unfold len. lia.
  - intros l s p Hl Hcell Hj Hm. apply Hfound in Hm.
    unfold do_lbracket, do_jump. by rewrite Hcell, Hl, Hj, Hm.
  - intros l s cell Hcell Hnz. unfold do_lbracket. rewrite Hcell.
    by destruct (Z.eqb_spec cell 0).
Qed.

(** An instance of [scan_right_matching]: the opening bracket of
    "[->+<]". *)
Lemma scan_right_matching_witness :
  (0 <= 0 /\ prog "[->+<]" !! Z.to_nat 0 = Some "["%char /\
   delta nice "[" = 1) /\
  (forall p, scan_right nice (prog "[->+<]") 0 1 = Found p <->
             matching nice (prog "[->+<]") 0 p).
Proof.
  split; [repeat split; (lia || reflexivity)|].
  apply (scan_right_matching nice (prog "[->+<]") 0 "["); (lia || reflexivity).
Defined.

Lemma matching_range cs code q p : matching cs code q p -> 0 <= q < p.
Proof. by intros [? _]. Qed.

(** A jump records matching pairs only. *)
Lemma do_jump_paired cs code scan side l s :
  0 <= index l -> paired_jumps cs code (jumps l) ->
  (forall q, scan = Found q ->
     matching cs code (index l) q \/ matching cs code q (index l)) ->
  match do_jump scan side l s with
  | Next l' s' => 0 <= index l' /\ paired_jumps cs code (jumps l')
  | Leave _ _ => True
  end.
Proof.
  intros Hi Hj Hscan. unfold do_jump.
  destruct (jumps l !! index l) as [target|] eqn:Hjump.
  { simpl. split; [|done].
    destruct (Hj _ _ Hjump) as [?%matching_range|?%matching_range]; lia. }
  destruct scan as [q| |e]; [|done|done]. simpl.
  specialize (Hscan q eq_refl). split.
  { destruct Hscan as [?%matching_range|?%matching_range]; lia. }
  intros k v [[<- <-]|[_ [[<- <-]|[_ Hkv]]%lookup_insert_Some]]%lookup_insert_Some.
  - destruct Hscan; [by right|by left].
  - done.
  - by apply Hj.
Qed.

Lemma body_paired_jumps cs code l s :
  0 <= index l -> paired_jumps cs code (jumps l) ->
  match body cs code l s with
  | Next l' s' => 0 <= index l' /\ paired_jumps cs code (jumps l')
  | Leave _ _ => True
  end.
Proof.
  intros Hi Hj.
  assert (Hadv : 0 <= index l + 1 /\ paired_jumps cs code (jumps l))
    by (split; [lia|done]).
  rewrite body_resolve.
  destruct (py_getitem code (index l)) as [char|] eqn:Hchar; [|done].
  apply py_getitem_Ok_lookup in Hchar; [|done].
  destruct (resolve cs char) as [[]|] eqn:Hop; simpl.
  - unfold do_gt. by destruct (py_mod _ _).
  - unfold do_lt. by destruct (py_mod _ _).
  - unfold do_plus, do_add. by destruct (py_bind _ _).
  - unfold do_minus, do_add. by destruct (py_bind _ _).
  - unfold do_period. by destruct (putChar s) as [[] ?].
  - unfold do_comma. by destruct (getChar s) as [[] ?].
  - unfold do_lbracket. destruct (py_getitem (array s) (ptr s)); [|done].
    destruct (_ =? 0); [|done].
    apply do_jump_paired; [done..|]. intros q Hq. left.
    by apply (scan_right_Found cs code _ _ char Hi Hchar (resolve_LoopOpen _ _ Hop)).
  - unfold do_rbracket. destruct (py_getitem (array s) (ptr s)); [|done].
    destruct (negb _); [|done].
    apply do_jump_paired; [done..|]. intros q Hq. right.
    by apply (scan_left_Found cs code _ _ char Hi Hchar (resolve_LoopClose _ _ Hop)).
  - done.
Qed.

(** X7: the dictionary [jumps] is sound.  At any point of a run every
    entry of [jumps] joins two brackets that match each other; hence,
    when the main loop is at a bracket that has an entry, the index it
    takes from [jumps] is the one the search would have found. *)
Theorem jumps_are_matching_pairs cs code s n l s' :
  iterate n cs code entry s = Next l s' ->
  paired_jumps cs code (jumps l) /\
  (forall char target,
     py_getitem code (index l) = Ok char ->
     jumps l !! index l = Some target ->
     (delta cs char = 1 -> scan_right cs code (index l) 1 = Found target) /\
     (delta cs char = -1 -> scan_left cs code (index l) (-1) = Found target)).
Proof.
  intros Hrun.
  pose proof (iterate_inv cs code
                (fun l _ => 0 <= index l /\ paired_jumps cs code (jumps l))
                (fun _ _ => True)) as Hinv.
  specialize (Hinv (fun l s0 H _ =>
                      body_paired_jumps cs code l s0 (proj1 H) (proj2 H))).
  specialize (Hinv (fun _ _ _ _ => I) n entry s).
  rewrite Hrun in Hinv. destruct Hinv as [Hi Hj].
  { split; simpl; [lia|]. intros k v. by rewrite lookup_empty. }
  split; [done|]. intros char target Hchar Hjump.
  apply py_getitem_Ok_lookup in Hchar; [|done].
  pose proof (Hj _ _ Hjump) as Hpair. split; intros Hd.
  - apply (scan_right_Found cs code _ _ char Hi Hchar Hd).
    destruct Hpair as [?|(_ & _ & (c & Hc & Hdc) & _)]; [done|].
    rewrite Hchar in Hc. injection Hc as <-. lia.
  - apply (scan_left_Found cs code _ _ char Hi Hchar Hd).
    destruct Hpair as [(_ & (o & Ho & Hdo) & _)|?]; [|done].
    rewrite Hchar in Ho. injection Ho as <-. lia.
Qed.

(** An instance of [jumps_are_matching_pairs]: the second visit of the
    closing bracket of "++[-]". *)
Lemma jumps_are_matching_pairs_witness :
  let l := {| stdout := false; jumps := <[2 := 4]> (<[4 := 2]> ∅);
              index := 4 |} in
  iterate 6 nice (prog "++[-]") entry (initial []) = Next l (initial []) /\
  paired_jumps nice (prog "++[-]") (jumps l) /\
  scan_left nice (prog "++[-]") (index l) (-1) = Found 2.
Proof.
  intros l.
  assert (Hrun : iterate 6 nice (prog "++[-]") entry (initial []) =
                 Next l (initial [])) by by_vm.
  destruct (jumps_are_matching_pairs nice (prog "++[-]") (initial []) 6 l
              (initial []) Hrun) as [Hj Hscan].
  split; [exact Hrun|]. split; [exact Hj|].
  exact (proj2 (Hscan "]"%char 2 eq_refl eq_refl) eq_refl).
Defined.

(** ** Troll interpreters *)

(** The pairwise differences in a table of distinct characters. *)
Ltac distinct_chars H :=
  unfold distinct in H; rewrite !NoDup_cons, !not_elem_of_cons in H;
  destruct_and?.

Lemma distinct_resolve cs op : distinct cs -> resolve cs (glyph cs op) = Some op.
Proof.
  intros H. distinct_chars H. unfold resolve.
  destruct op; simpl;
    repeat match goal with
           | |- context [Ascii.eqb ?a ?b] =>
               destruct (Ascii.eqb_spec a b); [try done; congruence|]
           end; done.
Qed.

Lemma distinct_aliases cs op :
  distinct cs -> aliases cs !! glyph cs op = Some (glyph nice op).
Proof.
  intros H. distinct_chars H. unfold aliases.
  destruct op; simpl; by simplify_map_eq.
Qed.

Lemma aliases_lookup cs alias char :
  aliases cs !! alias = Some char ->
  exists op, alias = glyph cs op /\ char = glyph nice op.
Proof.
  unfold aliases. rewrite !lookup_insert_Some, lookup_empty.
  intros H. repeat (destruct_or? || destruct_and?); try done; subst.
  - by exists LoopClose.
  - by exists LoopOpen.
  - by exists Input.
  - by exists Output.
  - by exists Decrement.
  - by exists Increment.
  - by exists MoveLeft.
  - by exists MoveRight.
Qed.

Lemma distinct_size_aliases cs : distinct cs -> size (aliases cs) = 8%nat.
Proof.
  intros H. distinct_chars H. unfold aliases.
  rewrite !map_size_insert_None, map_size_empty; [done|by simplify_map_eq..].
Qed.

(** X8: whatever table [TrollInterpreter.setChars] draws, each of its
    eight characters is taken by the main loop for its own operation;
    the directive printed for "HELPPLZ!!!" has eight lines, one per
    operation, each made of the character drawn for the operation and
    the traditional character of that operation; so a line
    [alias --> char] is truthful: [alias] does under the table drawn
    what [char] does in [NiceInterpreter]. *)
Theorem directive_is_truthful cs :
  TrollInterpreter_setChars cs ->
  (forall op, resolve cs (glyph cs op) = Some op) /\
  (forall alias char,
     (alias, char) ∈ printDirective cs <->
     exists op, alias = glyph cs op /\ char = glyph nice op) /\
  (forall alias char,
     (alias, char) ∈ printDirective cs ->
     resolve cs alias = resolve nice char /\ resolve cs alias <> None) /\
  length (printDirective cs) = 8%nat.
Proof.
  intros Hd%distinct_TrollInterpreter.
  assert (Hiff : forall alias char,
             (alias, char) ∈ printDirective cs <->
             exists op, alias = glyph cs op /\ char = glyph nice op).
  { intros alias char. unfold printDirective. rewrite elem_of_map_to_list.
    split; [apply aliases_lookup|]. intros (op & -> & ->).
    by apply distinct_aliases. }
  split; [intros op; by apply distinct_resolve|]. split; [done|]. split.
  - intros alias char (op & -> & ->)%Hiff.
    by rewrite (distinct_resolve cs op Hd), (distinct_resolve nice op distinct_nice).
  - unfold printDirective. rewrite length_map_to_list.
    by apply distinct_size_aliases.
Qed.

(** An instance of [directive_is_truthful]: the table [troll]. *)
Lemma directive_is_truthful_witness :
  TrollInterpreter_setChars troll /\
  (forall alias char,
     (alias, char) ∈ printDirective troll <->
     exists op, alias = glyph troll op /\ char = glyph nice op) /\
  length (printDirective troll) = 8%nat.
Proof.
  pose proof (directive_is_truthful troll troll_setChars) as (_ & H1 & _ & H2).
  split; [exact troll_setChars|]. split; [exact H1|exact H2].
Defined.

Lemma agree_reset s : agree (reset s) (initial (stdin s)).
Proof. done. Qed.

Lemma troll_after_Reset r s cs :
  troll_after (Some (r, ResetTrollInterpreter_troll
                          {| engine := s; chars := cs |})) =
  Some (r, replicate (Z.to_nat 30000) 0, 0, stdin s, cs).
Proof. reflexivity. Qed.

(** X9: [ResetTrollInterpreter] forgets.  After every call of
    [execute] that returns a flag the tape is blank and the cursor on
    cell 0, while the table is the same; so the next call, whatever its
    program, gives the result and leaves the tape, the cursor and the
    input that it would on a new interpreter with the same table
    reading the rest of the input. *)
Theorem reset_troll_forgets fuel code self b self' :
  ResetTrollInterpreter_execute fuel code self = Some (Ok (Some b), self') ->
  array (engine self') = replicate (Z.to_nat 30000) 0 /\
  ptr (engine self') = 0 /\
  chars self' = chars self /\
  forall fuel2 code2,
    troll_after (ResetTrollInterpreter_execute fuel2 code2 self') =
    troll_after (ResetTrollInterpreter_execute fuel2 code2
                   {| engine := initial (stdin (engine self'));
                      chars := chars self |}).
Proof.
  unfold ResetTrollInterpreter_execute, TrollInterpreter_execute.
  case_decide; [done|].
  destruct (interpret fuel (chars self) code (engine self)) as [[[b'|e] s]|];
    [|done..].
  intros [= -> <-]. do 3 (split; [done|]).
  intros fuel2 code2. case_decide; [done|].
  cbn [engine chars ResetTrollInterpreter_troll].
  change (stdin (reset s)) with (stdin s).
  pose proof (interpret_agree (chars self) code2 fuel2 _ _ (agree_reset s))
    as Hagree.
  destruct (interpret fuel2 (chars self) code2 (reset s)) as [[[b1|e1] s1]|],
    (interpret fuel2 (chars self) code2 (initial (stdin s))) as [[[b2|e2] s2]|];
    try done; injection Hagree as ? ? ? ?; subst.
  - rewrite !troll_after_Reset. congruence.
  - unfold troll_after. cbn [engine chars]. congruence.
Qed.

(** An instance of [reset_troll_forgets]: a program that leaves 1 in
    cell 0 and prints it. *)
Lemma reset_troll_forgets_witness :
  let self := {| engine := initial []; chars := nice |} in
  let self' := {| engine := reset (emit (seeded 1 []) (PutChar 1));
                  chars := nice |} in
  ResetTrollInterpreter_execute 3 (prog "+.") self =
    Some (Ok (Some true), self') /\
  array (engine self') = replicate (Z.to_nat 30000) 0 /\
  ptr (engine self') = 0.
Proof.
  intros self self'.
  assert (Hrun : ResetTrollInterpreter_execute 3 (prog "+.") self =
                 Some (Ok (Some true), self')) by by_vm.
  destruct (reset_troll_forgets 3 (prog "+.") self true self' Hrun)
    as (Ha & Hp & _).
  split; [exact Hrun|]. split; [exact Ha|exact Hp].
Defined.

(** ** The console *)

Lemma after_Some prefix text rest :
  after prefix text = Some rest <-> text = prefix ++ rest.
Proof.
  revert text. induction prefix as [|p prefix IH]; intros text; simpl.
  { split; [by intros [= ->]|by intros ->]. }
  destruct text as [|c text]; [done|].
  destruct (Ascii.eqb_spec p c) as [->|Hne].
  - rewrite IH. split; [by intros ->|by intros [= ->]].
  - split; [done|]. by intros [= -> _].
Qed.

Lemma digits_spec text ds rest :
  digits text = (ds, rest) <->
  text = ds ++ rest /\ forallb is_digit ds = true /\ no_digit rest.
Proof.
  revert ds rest. induction text as [|c text IH]; intros ds rest; simpl.
  { split.
    - by intros [= <- <-].
    - intros (Happ & _ & _). symmetry in Happ.
      by apply app_eq_nil in Happ as [-> ->]. }
  destruct (is_digit c) eqn:Hc.
  - destruct (digits text) as [ds' rest'] eqn:Hd.
    pose proof (proj1 (IH ds' rest') eq_refl) as (-> & Hds' & Hrest').
    split.
    + intros [= <- <-]. simpl. by rewrite Hc.
    + intros (Happ & Hds & Hrest). destruct ds as [|d ds]; simpl in *.
      * subst rest. simpl in Hrest. congruence.
      * injection Happ as <- Happ. apply andb_true_iff in Hds as [_ Hds].
        pose proof (proj2 (IH ds rest) (conj Happ (conj Hds Hrest))) as Heq.
        by injection Heq as -> ->.
  - split.
    + intros [= <- <-]. by repeat split.
    + intros (Happ & Hds & Hrest). destruct ds as [|d ds]; simpl in *.
      * by subst rest.
      * injection Happ as <- Happ. apply andb_true_iff in Hds as [Hd _].
        congruence.
Qed.

Lemma at_end_spec text :
  at_end text = true <-> text = [] \/ text = ["010"%char].
Proof.
  destruct text as [|c [|c' text]]; simpl.
  - split; [by left|done].
  - destruct (Ascii.eqb_spec c "010") as [->|Hne].
    + split; [by right|done].
    + split; [done|]. by intros [?|[= ->]].
  - split; [done|]. by intros [?|?].
Qed.

Lemma match_slice_spec code idx :
  match_slice code = Some idx <->
  exists lower upper nl,
    idx = Slice lower upper /\ (nl = [] \/ nl = ["010"%char]) /\
    forallb is_digit lower = true /\ forallb is_digit upper = true /\
    code = prog "ARRPLZ[" ++ lower ++ ":"%char :: upper ++ "]"%char :: nl.
Proof.
  unfold match_slice. split.
  - destruct (after _ code) as [rest|] eqn:Hafter; [|done].
    apply after_Some in Hafter as ->.
    destruct (digits rest) as [lower rest1] eqn:Hl.
    apply digits_spec in Hl as (-> & Hlower & _).
    destruct rest1 as [|c rest1]; [done|].
    destruct (Ascii.eqb_spec c ":") as [->|Hne];
      [|by destruct c as [[] [] [] [] [] [] [] []]].
    destruct (digits rest1) as [upper rest2] eqn:Hu.
    apply digits_spec in Hu as (-> & Hupper & _).
    destruct rest2 as [|c rest2]; [done|].
    destruct (Ascii.eqb_spec c "]") as [->|Hne];
      [|by destruct c as [[] [] [] [] [] [] [] []]].
    destruct (at_end rest2) eqn:Hend; [|done]. intros [= <-].
    apply at_end_spec in Hend. by exists lower, upper, rest2.
  - intros (lower & upper & nl & -> & Hnl & Hlower & Hupper & ->).
    rewrite (proj2 (after_Some _ _ _) eq_refl).
    rewrite (proj2 (digits_spec _ lower (":"%char :: upper ++ "]"%char :: nl)));
      [|done].
    rewrite (proj2 (digits_spec _ upper ("]"%char :: nl))); [|done].
    by rewrite (proj2 (at_end_spec nl) Hnl).
Qed.

Lemma match_item_spec code idx :
  match_item code = Some idx <->
  exists i nl,
    idx = Item i /\ (nl = [] \/ nl = ["010"%char]) /\ i <> [] /\
    forallb is_digit i = true /\
    code = prog "ARRPLZ[" ++ i ++ "]"%char :: nl.
Proof.
  unfold match_item. split.
  - destruct (after _ code) as [rest|] eqn:Hafter; [|done].
    apply after_Some in Hafter as ->.
    destruct (digits rest) as [i rest1] eqn:Hi.
    apply digits_spec in Hi as (-> & Hdigits & _).
    destruct i as [|d i]; [done|].
    destruct rest1 as [|c rest1]; [done|].
    destruct (Ascii.eqb_spec c "]") as [->|Hne];
      [|by destruct c as [[] [] [] [] [] [] [] []]].
    destruct (at_end rest1) eqn:Hend; [|done]. intros [= <-].
    apply at_end_spec in Hend. by exists (d :: i), rest1.
  - intros (i & nl & -> & Hnl & Hne & Hdigits & ->).
    rewrite (proj2 (after_Some _ _ _) eq_refl).
    rewrite (proj2 (digits_spec _ i ("]"%char :: nl))); [|done].
    destruct i as [|d i]; [done|].
    by rewrite (proj2 (at_end_spec nl) Hnl).
Qed.

(** Lines of the two shapes are taken for the command ARRPLZ. *)
Lemma ARRPLZ_Slice lower upper nl :
  nl = [] \/ nl = ["010"%char] ->
  forallb is_digit lower = true -> forallb is_digit upper = true ->
  ARRPLZ (prog "ARRPLZ[" ++ lower ++ ":"%char :: upper ++ "]"%char :: nl) =
  Some (Slice lower upper).
Proof.
  intros Hnl Hlower Hupper. unfold ARRPLZ.
  rewrite (proj2 (match_slice_spec _ (Slice lower upper))); [done|].
  by exists lower, upper, nl.
Qed.

Lemma ARRPLZ_Item i nl :
  nl = [] \/ nl = ["010"%char] -> i <> [] -> forallb is_digit i = true ->
  ARRPLZ (prog "ARRPLZ[" ++ i ++ "]"%char :: nl) = Some (Item i).
Proof.
  intros Hnl Hne Hdigits. unfold ARRPLZ.
  assert (Hs : match_slice (prog "ARRPLZ[" ++ i ++ "]"%char :: nl) = None).
  { unfold match_slice. rewrite (proj2 (after_Some _ _ _) eq_refl).
    by rewrite (proj2 (digits_spec _ i ("]"%char :: nl))). }
  rewrite Hs. apply match_item_spec. by exists i, nl.
Qed.

(** X10: the lines the console takes for the command ARRPLZ, and so
    the only texts it ever passes to [eval], are the text "ARRPLZ["
    followed by digits, a colon, digits and "]", with either run of
    digits possibly empty, or by at least one digit and "]"; in both
    cases a newline may end the line, and nothing else may follow. *)
Theorem ARRPLZ_lines code idx :
  ARRPLZ code = Some idx <->
  exists nl, (nl = [] \/ nl = ["010"%char]) /\
    match idx with
    | Slice lower upper =>
        forallb is_digit lower = true /\ forallb is_digit upper = true /\
        code = prog "ARRPLZ[" ++ lower ++ ":"%char :: upper ++ "]"%char :: nl
    | Item i =>
        i <> [] /\ forallb is_digit i = true /\
        code = prog "ARRPLZ[" ++ i ++ "]"%char :: nl
    end.
Proof.
  split.
  - unfold ARRPLZ. destruct (match_slice code) as [idx'|] eqn:Hs.
    + intros [= <-].
      apply match_slice_spec in Hs as (lower & upper & nl & -> & ? & ? & ? & ?).
      by exists nl.
    + intros (i & nl & -> & ? & ? & ? & ?)%match_item_spec. by exists nl.
  - intros (nl & Hnl & Hshape). destruct idx as [lower upper|i].
    + destruct Hshape as (Hlower & Hupper & ->). by apply ARRPLZ_Slice.
    + destruct Hshape as (Hne & Hdigits & ->). by apply ARRPLZ_Item.
Qed.





Lemma py_getitem_Raise {A} (l : list A) (i : Z) e :
  py_getitem l i = Raise e -> e = IndexError.
Proof.
  unfold py_getitem. destruct (_ <? 0); [by intros [= <-]|].
  destruct (l !! _); [done|by intros [= <-]].
Qed.



Section ConsoleProperties.

Context {Self : Type}.
Variable python2 : bool.
Variable interpreter_execute :
  nat -> list ascii -> Self -> option (Py (option bool) * Self).
Variable interpreter_ptr : Self -> Z.
Variable interpreter_array : Self -> list Z.
Variable is_nice : bool.

Local Abbreviation console :=
  (turn python2 interpreter_execute interpreter_ptr interpreter_array is_nice).



(** X12: the commands GMTFOH, PTRPLZ and ARRPLZ are never run as
    programs, whether the console answers them or not: the iteration
    does not depend on the method [execute], it ends at the next prompt
    with the interpreter and the flag [stdout] as they were, or with
    [sys.exit(0)] for GMTFOH, or with the exception of a subscript,
    which the interpreter survives unchanged; and when the console does
    not answer, nothing at all happens. *)
Theorem special_commands lucky fuel code stdout self :
  special code = true ->
  (exists t,
     console lucky fuel code stdout self = Some t /\
     match t with
     | Exit status => status = 0 /\ code = prog "GMTFOH"
     | Prompt _ stdout' self' => stdout' = stdout /\ self' = self
     | Traceback e self' =>
         self' = self /\ (e = SyntaxError \/ e = Raised IndexError)
     end) /\
  (is_nice || lucky = false ->
   console lucky fuel code stdout self = Some (Prompt None stdout self)) /\
  (forall execute2 fuel2,
     turn python2 execute2 interpreter_ptr interpreter_array is_nice lucky
       fuel2 code stdout self =
     console lucky fuel code stdout self).
Proof.
  unfold special. intros Hspecial.
  assert (Hturn : forall ex fu,
    turn python2 ex interpreter_ptr interpreter_array is_nice lucky fu code
      stdout self =
    Some (if decide (code = prog "GMTFOH")
          then if is_nice || lucky then Exit 0 else Prompt None stdout self
          else if decide (code = prog "PTRPLZ")
          then if is_nice || lucky
               then Prompt (Some (ShowInt (interpreter_ptr self))) stdout self
               else Prompt None stdout self
          else match ARRPLZ code with
               | Some idx =>
                   if is_nice || lucky
                   then match subscript python2 idx (interpreter_array self) with
                        | inr shown => Prompt (Some shown) stdout self
                        | inl e => Traceback e self
                        end
                   else Prompt None stdout self
               | None => Prompt None stdout self
               end)).
  { intros ex fu. unfold turn.
    destruct (decide (code = prog "GMTFOH")); [done|].
    destruct (decide (code = prog "PTRPLZ")); [done|].
    rewrite !bool_decide_eq_false_2 in Hspecial by done.
    by destruct (ARRPLZ code). }
  split; [|split].
  - rewrite Hturn. eexists. split; [done|].
    destruct (decide (code = prog "GMTFOH"));
      [by destruct (is_nice || lucky); simpl|].
    destruct (decide (code = prog "PTRPLZ"));
      [by destruct (is_nice || lucky); simpl|].
    destruct (ARRPLZ code) as [idx|]; [|done].
    destruct (is_nice || lucky); [|done].
    unfold subscript. destruct idx as [lower upper|i].
    + destruct (bound python2 lower 0),
        (bound python2 upper (len (interpreter_array self)));
        simpl; split; (done || by left).
    + destruct (literal python2 i); simpl; [|split; (done || by left)].
      destruct (py_getitem _ _) eqn:Hget; simpl; [done|].
      apply py_getitem_Raise in Hget as ->. split; (done || by right).
  - intros Hignored. rewrite Hturn, Hignored.
    destruct (decide (code = prog "GMTFOH")); [done|].
    destruct (decide (code = prog "PTRPLZ")); [done|].
    by destruct (ARRPLZ code).
  - intros execute2 fuel2. by rewrite !Hturn.
Qed.

End ConsoleProperties.

Lemma existsb_PutChar_app new c :
  existsb is_PutChar (new ++ [PutChar c]) = true.
Proof. rewrite existsb_app. simpl. by rewrite orb_true_r. Qed.

(** X13: in the console of [NiceInterpreter], a line that is not a
    command is run as a program, and when it returns the next prompt is
    preceded by a newline exactly when the program has printed a
    character. *)
Theorem prompt_follows_output python2 lucky fuel code stdout s shown stdout'
    s' :
  special code = false ->
  nice_turn python2 lucky fuel code stdout s =
    Some (Prompt shown stdout' s') ->
  shown = None /\
  (exists b, execute fuel nice code s = Some (Ok b, s') /\ stdout' = Some b) /\
  exists new,
    events s' = events s ++ new /\
    (prompt stdout' = String "010" ">>> " <-> existsb is_PutChar new = true).
Proof.
  unfold special, nice_turn, turn, NiceInterpreter_execute.
  intros [[Hg Hp]%orb_false_iff Ha]%orb_false_iff.
  apply bool_decide_eq_false in Hg. apply bool_decide_eq_false in Hp.
  destruct (decide (code = prog "GMTFOH")); [done|].
  destruct (decide (code = prog "PTRPLZ")); [done|].
  destruct (ARRPLZ code); [done|].
  pose proof (iterate_flagged nice code fuel s) as Hflag.
  unfold execute, interpret.
  destruct (iterate fuel nice code entry s) as [|[b|e] s1]; [done| |done].
  intros [= <- <- <-]. split; [done|]. split; [by exists b|].
  destruct Hflag as (new & Hnew & Hb). exists new. split; [done|].
  rewrite <- (Hb b eq_refl). simpl. by destruct b.
Qed.

(** An instance of [prompt_follows_output]: a program that prints. *)
Lemma prompt_follows_output_witness :
  special (prog "+.") = false /\
  nice_turn true false 3 (prog "+.") None (initial []) =
    Some (Prompt None (Some true) (emit (seeded 1 []) (PutChar 1))) /\
  prompt (Some true) = String "010" ">>> ".
Proof.
  assert (Hs : special (prog "+.") = false) by reflexivity.
  assert (Hrun : nice_turn true false 3 (prog "+.") None (initial []) =
                 Some (Prompt None (Some true)
                         (emit (seeded 1 []) (PutChar 1)))) by by_vm.
  split; [exact Hs|]. split; [exact Hrun|].
  destruct (prompt_follows_output true false 3 (prog "+.") None (initial []) None
              (Some true) _ Hs Hrun) as (_ & _ & _).
  reflexivity.
Defined.


(** An instance of [special_commands]: PTRPLZ in a console that does
    not answer. *)
Lemma special_commands_witness :
  let self := {| engine := initial []; chars := troll |} in
  special (prog "PTRPLZ") = true /\
  reset_turn true false 0 (prog "PTRPLZ") None self =
    Some (Prompt None None self).
Proof.
  intros self. split; [reflexivity|].
  exact (proj1 (proj2 (special_commands true ResetTrollInterpreter_execute
                         (fun self => ptr (engine self))
                         (fun self => array (engine self)) false false 0
                         (prog "PTRPLZ") None self eq_refl)) eq_refl).
Defined.

(** ** A text inside a longer text *)

Lemma iterate_add n m cs code l s :
  iterate (n + m) cs code l s =
  match iterate n cs code l s with
  | Next l' s' => iterate m cs code l' s'
  | Leave r s' => Leave r s'
  end.
Proof.
  revert l s. induction n as [|n IH]; intros l s; simpl; [done|].
  destruct (index l <? len code); [|done].
  destruct (body cs code l s); [apply IH|done].
Qed.

(** An entry of a sound dictionary is what the search finds. *)
Lemma paired_jumps_target cs code J i char t :
  paired_jumps cs code J -> 0 <= i ->
  code !! Z.to_nat i = Some char -> J !! i = Some t ->
  (delta cs char = 1 -> scan_right cs code i 1 = Found t) /\
  (delta cs char = -1 -> scan_left cs code i (-1) = Found t).
Proof.
  intros Hj Hi Hchar Hjump. pose proof (Hj _ _ Hjump) as Hpair.
  split; intros Hd.
  - apply (scan_right_Found cs code _ _ char Hi Hchar Hd).
    destruct Hpair as [?|(_ & _ & (c & Hc & Hdc) & _)]; [done|].
    rewrite Hchar in Hc. injection Hc as <-. lia.
  - apply (scan_left_Found cs code _ _ char Hi Hchar Hd).
    destruct Hpair as [(_ & (o & Ho & Hdo) & _)|?]; [|done].
    rewrite Hchar in Ho. injection Ho as <-. lia.
Qed.

(** With a dictionary that agrees with the search, a jump goes where
    the search says. *)
Lemma do_jump_target scan side l s :
  (forall t, jumps l !! index l = Some t -> scan = Found t) ->
  exists J,
    do_jump scan side l s =
    match scan with
    | Found q => Next {| stdout := stdout l; jumps := J; index := q + 1 |} s
    | Unmatched => Leave (Ok (stdout l)) (handleError side s)
    | ScanRaise e => Leave (Raise e) s
    end.
Proof.
  intros Hmemo. unfold do_jump.
  destruct (jumps l !! index l) as [t|].
  - rewrite (Hmemo t eq_refl). by exists (jumps l).
  - destruct scan; [eexists; reflexivity|by exists ∅|by exists ∅].
Qed.

Lemma first_zero_app_Some ds1 ds2 p k :
  first_zero ds1 p = Some k -> first_zero (ds1 ++ ds2) p = Some k.
Proof.
  revert p k. induction ds1 as [|d ds1 IH]; intros p k; simpl; [done|].
  destruct (p + d =? 0); [done|].
  destruct (first_zero ds1 (p + d)) as [k'|] eqn:E; [|done].
  by rewrite (IH _ _ E).
Qed.

Lemma first_zero_app_None ds1 ds2 p :
  first_zero ds1 p = None ->
  first_zero (ds1 ++ ds2) p =
  (fun k => length ds1 + k)%nat <$> first_zero ds2 (p + total ds1).
Proof.
  revert p. induction ds1 as [|d ds1 IH]; intros p; simpl.
  { intros _. rewrite Z.add_0_r. by destruct (first_zero ds2 p). }
  destruct (p + d =? 0); [done|].
  destruct (first_zero ds1 (p + d)) as [k'|] eqn:E; [done|]. intros _.
  rewrite (IH _ E), Z.add_assoc. by destruct (first_zero ds2 _).
Qed.

(** A search that never finds zero stays on its side of it. *)
Lemma first_zero_None_negative ds p :
  small ds -> p < 0 -> first_zero ds p = None -> p + total ds < 0.
Proof.
  intros Hsmall Hp Hnone.
  destruct (Z.lt_ge_cases (p + total ds) 0) as [?|Hge]; [done|].
  destruct (first_zero_below ds p Hsmall Hp Hge) as [k Hk]. congruence.
Qed.

Lemma first_zero_stays_negative ds p :
  p < 0 -> (forall j, p + total (take j ds) < 0) -> first_zero ds p = None.
Proof.
  intros Hp Hneg. destruct (first_zero ds p) as [k|] eqn:E; [|done].
  apply first_zero_spec in E as (_ & Hz & _). specialize (Hneg k). lia.
Qed.

Section Embedding.

Variables (cs : Chars.t) (codeA codeB : list ascii) (d : Z) (b0 : bool).
Hypothesis Hinside : inside cs codeA codeB d.

Lemma embedded_char la lb :
  embedded cs codeA codeB d b0 la lb -> index la < len codeA ->
  exists char,
    codeA !! Z.to_nat (index la) = Some char /\
    codeB !! Z.to_nat (index lb) = Some char /\
    py_getitem codeA (index la) = Ok char /\
    py_getitem codeB (index lb) = Ok char /\
    0 <= index lb < len codeB.
Proof.
  intros (Hi & _ & Hrange & _) Hlt.
  destruct Hinside as (Hd & Hlen & Hchars & _).
  destruct (py_getitem_inside codeA (index la)) as (char & Hchar & Hget); [lia|].
  exists char. rewrite Hi, Hchars by lia.
  split; [done|]. split; [done|]. split; [done|].
  split; [|lia]. apply py_getitem_lookup; [lia|]. by rewrite Hchars by lia.
Qed.

Lemma embedded_advance la lb :
  embedded cs codeA codeB d b0 la lb -> index la < len codeA ->
  embedded cs codeA codeB d b0 (set_index la (index la + 1))
    (set_index lb (index lb + 1)).
Proof.
  intros (Hi & Hout & Hrange & HJa & HJb) Hlt.
  repeat split; simpl; (lia || done).
Qed.

(** An iteration on the shorter text and the iteration on the longer
    one that goes with it. *)
Lemma body_embedded la lb s :
  embedded cs codeA codeB d b0 la lb -> index la < len codeA ->
  match body cs codeA la s with
  | Next la' s' =>
      exists lb', body cs codeB lb s = Next lb' s' /\
                  embedded cs codeA codeB d b0 la' lb'
  | Leave r s' => body cs codeB lb s = Leave (lift b0 r) s'
  end.
Proof.
  intros Hemb Hlt.
  destruct (embedded_char la lb Hemb Hlt)
    as (char & HcharA & HcharB & HgetA & HgetB & HrangeB).
  pose proof (embedded_advance la lb Hemb Hlt) as Hadv.
  destruct Hemb as (Hi & Hout & Hrange & HJa & HJb).
  destruct Hinside as (Hd & Hlen & _ & Hright & Hleft).
  pose proof (body_paired_jumps cs codeA la s (proj1 Hrange) HJa) as HA.
  pose proof (body_paired_jumps cs codeB lb s (proj1 HrangeB) HJb) as HB.
  rewrite body_resolve, HgetA in HA |- *. rewrite body_resolve, HgetB in HB |- *.
  destruct (resolve cs char) as [[]|] eqn:Hop; simpl in HA, HB |- *.
  - unfold do_gt. destruct (py_mod _ _); simpl; eauto.
  - unfold do_lt. destruct (py_mod _ _); simpl; eauto.
  - unfold do_plus, do_add. destruct (py_bind _ _); simpl; eauto.
  - unfold do_minus, do_add. destruct (py_bind _ _); simpl; eauto.
  - unfold do_period. destruct (putChar s) as [[] s']; simpl; [|done].
    eexists. split; [done|].
    repeat split; simpl; try (lia || done).
  - unfold do_comma. destruct (getChar s) as [[] s']; simpl; eauto.
  - unfold do_lbracket in *.
    destruct (py_getitem (array s) (ptr s)) as [cell|]; [|done].
    destruct (cell =? 0); [|simpl; eauto].
    pose proof (resolve_LoopOpen _ _ Hop) as Hdelta.
    destruct (do_jump_target (scan_right cs codeA (index la) 1) side_left la s)
      as [JA HdA].
    { intros t Ht.
      by apply (paired_jumps_target cs codeA _ _ char t HJa (proj1 Hrange)). }
    destruct (do_jump_target (scan_right cs codeB (index lb) 1) side_left lb s)
      as [JB HdB].
    { intros t Ht.
      by apply (paired_jumps_target cs codeB _ _ char t HJb (proj1 HrangeB)). }
    rewrite HdA in HA |- *. rewrite HdB in HB |- *.
    rewrite Hi, (Hright _ char (proj1 Hrange) HcharA Hdelta) in HB |- *.
    pose proof (scan_right_range cs codeA (index la) 1 ltac:(lia) ltac:(lia))
      as Hscan.
    destruct (scan_right cs codeA (index la) 1) as [q| |e]; simpl in *.
    + eexists. split; [done|]. repeat split; simpl; (lia || tauto).
    + by rewrite Hout.
    + done.
  - unfold do_rbracket in *.
    destruct (py_getitem (array s) (ptr s)) as [cell|]; [|done].
    destruct (negb (cell =? 0)); [|simpl; eauto].
    pose proof (resolve_LoopClose _ _ Hop) as Hdelta.
    destruct (do_jump_target (scan_left cs codeA (index la) (-1)) side_right la s)
      as [JA HdA].
    { intros t Ht.
      by apply (paired_jumps_target cs codeA _ _ char t HJa (proj1 Hrange)). }
    destruct (do_jump_target (scan_left cs codeB (index lb) (-1)) side_right lb s)
      as [JB HdB].
    { intros t Ht.
      by apply (paired_jumps_target cs codeB _ _ char t HJb (proj1 HrangeB)). }
    rewrite HdA in HA |- *. rewrite HdB in HB |- *.
    rewrite Hi, (Hleft _ char (proj1 Hrange) HcharA Hdelta) in HB |- *.
    pose proof (scan_left_range cs codeA (index la) (-1) ltac:(lia) ltac:(lia))
      as Hscan.
    destruct (scan_left cs codeA (index la) (-1)) as [q| |e]; simpl in *.
    + eexists. split; [done|]. repeat split; simpl; (lia || tauto).
    + by rewrite Hout.
    + done.
  - eauto.
Qed.

(** A run on the shorter text and the run on the longer one: they go
    together until the first one is over; if it has run off its end,
    the second one is at the corresponding position; otherwise the
    second one is over as well, with the same outcome. *)
Lemma iterate_embedded n la lb s :
  embedded cs codeA codeB d b0 la lb ->
  match iterate n cs codeA la s with
  | Next la' s' =>
      exists lb', iterate n cs codeB lb s = Next lb' s' /\
                  embedded cs codeA codeB d b0 la' lb'
  | Leave r s' =>
      (exists b k lb',
         r = Ok b /\ (k < n)%nat /\
         iterate k cs codeB lb s = Next lb' s' /\
         index lb' = d + len codeA /\ stdout lb' = b0 || b /\
         paired_jumps cs codeB (jumps lb')) \/
      (iterate n cs codeB lb s = Leave (lift b0 r) s' /\
       forall b, r = Ok b ->
         exists l0 s0 side,
           0 <= index l0 < len codeA /\ unmatched cs codeA l0 s0 side)
  end.
Proof.
  revert la lb s. induction n as [|n IH]; intros la lb s Hemb; [by exists lb|].
  rewrite !iterate_S.
  destruct (Z.ltb_spec (index la) (len codeA)) as [Hlt|Hge].
  - destruct (embedded_char la lb Hemb Hlt) as (_ & _ & _ & _ & _ & HrangeB).
    destruct (Z.ltb_spec (index lb) (len codeB)); [|lia].
    pose proof (body_embedded la lb s Hemb Hlt) as Hbody.
    destruct (body cs codeA la s) as [la' s'|r s'] eqn:HbodyA.
    + destruct Hbody as (lb' & HbodyB & Hemb'). rewrite HbodyB.
      specialize (IH la' lb' s' Hemb').
      destruct (iterate n cs codeA la' s') as [la2 s2|r s2]; [done|].
      destruct IH as [(b & k & lb2 & -> & Hk & Hrun & Hrest)|?]; [|by right].
      left. exists b, (S k), lb2. split; [done|]. split; [lia|].
      split; [|done]. rewrite iterate_S, HbodyB.
      by destruct (Z.ltb_spec (index lb) (len codeB)); [|lia].
    + right. rewrite Hbody. split; [done|]. intros b ->.
      apply body_returns in HbodyA as (side & Hun & _).
      destruct Hemb as (_ & _ & Hrange & _). exists la, s, side.
      split; [lia|done].
  - left. destruct Hemb as (Hi & Hout & Hrange & _ & HJb).
    exists (stdout la), 0%nat, lb. repeat split; (lia || done).
Qed.

End Embedding.

(** The searches of a text placed inside a longer one. *)
Lemma len_app {A} (l1 l2 : list A) : len (l1 ++ l2) = len l1 + len l2.
Proof. unfold len. rewrite length_app. lia. Qed.

Ltac len_lia := unfold len in *; rewrite ?length_app; lia.

Lemma scan_right_inside cs pre codeA post i p q :
  -1 <= i < len codeA -> p <> 0 ->
  scan_right cs codeA i p = Found q ->
  scan_right cs (pre ++ codeA ++ post) (len pre + i) p = Found (len pre + q).
Proof.
  intros Hi Hp. rewrite !scan_right_first_zero; [|len_lia|done..].
  replace (drop (Z.to_nat (len pre + i + 1)) (pre ++ codeA ++ post))
    with (drop (Z.to_nat (i + 1)) codeA ++ post).
  - rewrite fmap_app.
    destruct (first_zero (delta cs <$> drop _ codeA) p) as [k|] eqn:E; [|done].
    rewrite (first_zero_app_Some _ _ _ _ E). intros [= <-]. f_equal. lia.
  - rewrite drop_app_ge by (unfold len; lia).
    rewrite drop_app_le by (unfold len in *; lia). do 2 f_equal.
    unfold len. lia.
Qed.

Lemma scan_left_parts cs pre codeA post i :
  0 <= i <= len codeA ->
  delta cs <$> reverse (take (Z.to_nat (len pre + i)) (pre ++ codeA ++ post)) =
  (delta cs <$> reverse (take (Z.to_nat i) codeA)) ++
  (delta cs <$> reverse pre).
Proof.
  intros Hi. rewrite take_app_ge by (unfold len; lia).
  rewrite take_app_le by (unfold len in *; lia).
  rewrite reverse_app, fmap_app. do 4 f_equal. unfold len. lia.
Qed.

Lemma scan_left_inside cs pre codeA post i p q :
  0 <= i <= len codeA -> p <> 0 ->
  scan_left cs codeA i p = Found q ->
  scan_left cs (pre ++ codeA ++ post) (len pre + i) p = Found (len pre + q).
Proof.
  intros Hi Hp. rewrite !scan_left_first_zero; [|len_lia|done..].
  rewrite scan_left_parts by done.
  destruct (first_zero (delta cs <$> reverse _) p) as [k|] eqn:E; [|done].
  rewrite (first_zero_app_Some _ _ _ _ E). intros [= <-]. f_equal. lia.
Qed.

Lemma scan_right_suffix cs pre codeA i p :
  -1 <= i < len codeA -> p <> 0 ->
  scan_right cs (pre ++ codeA) (len pre + i) p =
  shift (len pre) (scan_right cs codeA i p).
Proof.
  intros Hi Hp. rewrite !scan_right_first_zero; [|len_lia..].
  rewrite drop_app_ge by (unfold len; lia).
  replace (Z.to_nat (len pre + i + 1) - length pre)%nat
    with (Z.to_nat (i + 1)) by (unfold len; lia).
  destruct (first_zero _ p); simpl; [f_equal; lia|done].
Qed.

(** To the left of a balanced text the counter of a search that has
    found nothing stays below zero. *)
Lemma first_zero_balanced cs pre p :
  balanced cs pre = true -> p < 0 ->
  first_zero (delta cs <$> reverse pre) p = None.
Proof.
  intros Hb Hp. apply first_zero_stays_negative; [done|]. intros j.
  pose proof (balanced_paired cs pre Hb) as Hpaired.
  assert (Hle : forall k, (k <= length pre)%nat ->
            total (take k (delta cs <$> reverse pre)) <= 0).
  { intros k Hk.
    pose proof (total_take_reverse cs pre (length pre) k ltac:(lia)) as Ht.
    rewrite (take_ge pre) in Ht by lia. rewrite Ht.
    apply paired_suffix, Hpaired. }
  destruct (Nat.le_gt_cases j (length pre)) as [Hj|Hj].
  - specialize (Hle j Hj). lia.
  - specialize (Hle (length pre) ltac:(lia)).
    rewrite take_ge by (rewrite length_fmap, length_reverse; lia).
    rewrite take_ge in Hle by (rewrite length_fmap, length_reverse; lia).
    lia.
Qed.

Lemma scan_left_suffix cs pre codeA post i :
  balanced cs pre = true -> 0 <= i <= len codeA ->
  scan_left cs (pre ++ codeA ++ post) (len pre + i) (-1) =
  shift (len pre) (scan_left cs codeA i (-1)).
Proof.
  intros Hb Hi. rewrite !scan_left_first_zero; [|len_lia..].
  rewrite scan_left_parts by done.
  set (ds := delta cs <$> reverse (take (Z.to_nat i) codeA)).
  destruct (first_zero ds (-1)) as [k|] eqn:E.
  - rewrite (first_zero_app_Some _ _ _ _ E). simpl. f_equal. lia.
  - rewrite (first_zero_app_None _ _ _ E).
    rewrite first_zero_balanced; [done..|].
    pose proof (first_zero_None_negative ds (-1)) as Hneg.
    apply Hneg; [apply small_delta|lia|done].
Qed.

(** A text is inside itself. *)
Lemma inside_refl cs code : inside cs code code 0.
Proof.
  split; [lia|]. split; [lia|]. split; [by intros i _|]. split.
  - intros i o _ _ _. change (0 + i) with i.
    by destruct (scan_right cs code i 1).
  - intros i c _ _ _. change (0 + i) with i.
    by destruct (scan_left cs code i (-1)).
Qed.

(** A balanced text is inside any text built around it. *)
Lemma inside_balanced cs pre codeA post :
  balanced cs codeA = true -> inside cs codeA (pre ++ codeA ++ post) (len pre).
Proof.
  intros Hb. split; [apply len_nonneg|]. split.
  { len_lia. }
  split.
  { intros i Hi. rewrite lookup_app_r by (unfold len; lia).
    rewrite lookup_app_l by (unfold len in *; lia). f_equal. unfold len. lia. }
  split.
  - intros i o Hi Ho Hd. pose proof (lookup_lt_Some _ _ _ Ho) as Hlt.
    destruct (scan_right_balanced cs codeA (Z.to_nat i) o Hb Ho Hd)
      as (q & Hq & _).
    rewrite Z2Nat.id in Hq by done. rewrite Hq. simpl.
    apply scan_right_inside; [unfold len; lia|lia|done].
  - intros i c Hi Hc Hd. pose proof (lookup_lt_Some _ _ _ Hc) as Hlt.
    destruct (scan_left_balanced cs codeA (Z.to_nat i) c Hb Hc Hd)
      as (q & Hq & _).
    rewrite Z2Nat.id in Hq by done. rewrite Hq. simpl.
    apply scan_left_inside; [unfold len; lia|lia|done].
Qed.

(** Any text is inside the text made of a balanced text and itself. *)
Lemma inside_suffix cs pre codeA :
  balanced cs pre = true -> inside cs codeA (pre ++ codeA) (len pre).
Proof.
  intros Hb. split; [apply len_nonneg|]. split; [len_lia|].
  split.
  { intros i Hi. rewrite lookup_app_r by (unfold len; lia).
    f_equal. unfold len. lia. }
  split.
  - intros i o Hi Ho Hd. pose proof (lookup_lt_Some _ _ _ Ho) as Hlt.
    apply scan_right_suffix; [unfold len; lia|lia].
  - intros i c Hi Hc Hd. pose proof (lookup_lt_Some _ _ _ Hc) as Hlt.
    pose proof (scan_left_suffix cs pre codeA [] i Hb) as Hs.
    rewrite app_nil_r in Hs. apply Hs. unfold len. lia.
Qed.

(** In a balanced text no search fails. *)
Lemma balanced_unmatched cs code l s side :
  balanced cs code = true -> 0 <= index l ->
  ~ unmatched cs code l s side.
Proof.
  intros Hb Hi (char & cell & Hchar & _ & _ & Hside).
  apply py_getitem_Ok_lookup in Hchar; [|done].
  destruct side.
  - destruct Hside as (Hop%resolve_LoopOpen & _ & Hscan).
    destruct (scan_right_balanced cs code _ char Hb Hchar Hop) as (q & Hq & _).
    rewrite Z2Nat.id in Hq by done. congruence.
  - destruct Hside as (Hop%resolve_LoopClose & _ & Hscan).
    destruct (scan_left_balanced cs code _ char Hb Hchar Hop) as (q & Hq & _).
    rewrite Z2Nat.id in Hq by done. congruence.
Qed.

Lemma lift_false r : lift false r = r.
Proof. by destruct r. Qed.

Lemma paired_jumps_empty cs code : paired_jumps cs code ∅.
Proof. intros k v. by rewrite lookup_empty. Qed.

(** Once the reading position is at the end of the text, the call
    returns. *)
Lemma iterate_exit cs code n l s :
  len code <= index l ->
  iterate (S n) cs code l s = Leave (Ok (stdout l)) s.
Proof.
  intros Hge. rewrite iterate_S.
  by destruct (Z.ltb_spec (index l) (len code)); [lia|].
Qed.

(** X15: the dictionary [jumps] is a pure optimisation.  From the same
    position, flag and state, two runs whose dictionaries hold matching
    pairs only, whichever they are, go through the same positions,
    flags and states, and end with the same result: what [jumps] holds
    never changes what a program does. *)
Theorem jumps_never_matter cs code J1 J2 b i n s :
  0 <= i <= len code ->
  paired_jumps cs code J1 -> paired_jumps cs code J2 ->
  match iterate n cs code {| stdout := b; jumps := J1; index := i |} s,
        iterate n cs code {| stdout := b; jumps := J2; index := i |} s with
  | Next l1 s1, Next l2 s2 =>
      stdout l1 = stdout l2 /\ index l1 = index l2 /\ s1 = s2
  | Leave r1 s1, Leave r2 s2 => r1 = r2 /\ s1 = s2
  | _, _ => False
  end.
Proof.
  intros Hi H1 H2.
  assert (Hemb : embedded cs code code 0 false
                   {| stdout := b; jumps := J1; index := i |}
                   {| stdout := b; jumps := J2; index := i |})
    by (repeat split; simpl; (lia || done)).
  pose proof (iterate_embedded cs code code 0 false (inside_refl cs code) n
                _ _ s Hemb) as Hrun.
  destruct (iterate n cs code {| stdout := b; jumps := J1; index := i |} s)
    as [l1 s1|r1 s1].
  - destruct Hrun as (l2 & -> & Hl2 & Hout & _).
    split; [done|]. split; [|done]. rewrite Hl2. lia.
  - destruct Hrun as [(b' & k & l2 & -> & Hk & Hrun & Hl2 & Hout & _)|[-> _]];
      [|by rewrite lift_false].
    rewrite (iterate_Leave_more cs code (S k) n _ s (Ok (stdout l2)) s1);
      [by rewrite Hout|..|lia].
    replace (S k) with (k + 1)%nat by lia. rewrite iterate_add, Hrun.
    apply iterate_exit. lia.
Qed.

(** An instance of [jumps_never_matter]: the loop of "++[-]" entered
    with an empty dictionary and with the dictionary of its pair. *)
Lemma jumps_never_matter_witness :
  let J := <[2 := 4]> (<[4 := 2]> (∅ : gmap Z Z)) in
  (0 <= 3 <= len (prog "++[-]") /\
   paired_jumps nice (prog "++[-]") ∅ /\ paired_jumps nice (prog "++[-]") J) /\
  match iterate 5 nice (prog "++[-]")
          {| stdout := false; jumps := ∅; index := 3 |} (seeded 2 []),
        iterate 5 nice (prog "++[-]")
          {| stdout := false; jumps := J; index := 3 |} (seeded 2 []) with
  | Next l1 s1, Next l2 s2 =>
      stdout l1 = stdout l2 /\ index l1 = index l2 /\ s1 = s2
  | Leave r1 s1, Leave r2 s2 => r1 = r2 /\ s1 = s2
  | _, _ => False
  end.
Proof.
  intros J.
  assert (Hm : matching nice (prog "++[-]") 2 4).
  { split; [lia|]. split; [by exists "["%char|]. split; [by exists "]"%char|done]. }
  assert (HJ : paired_jumps nice (prog "++[-]") J).
  { intros k v
      [[<- <-]|[_ [[<- <-]|[_ ?]]%lookup_insert_Some]]%lookup_insert_Some;
      [by left|by right|done]. }
  assert (Hi : 0 <= 3 <= len (prog "++[-]")) by (by vm_compute).
  split; [by repeat split; try apply paired_jumps_empty|].
  exact (jumps_never_matter nice (prog "++[-]") ∅ J false 3 5 (seeded 2 []) Hi
           (paired_jumps_empty _ _) HJ).
Defined.

(** X16: programs compose.  When a program with properly nested
    brackets returns, running a second program on the engine as the
    first one left it gives the result and the state of running the two
    texts joined into one, the flag being set if either has printed;
    and when the first program raises, so does the joined one, from the
    same state. *)
Theorem programs_compose cs code1 code2 s :
  balanced cs code1 = true ->
  (forall fuel1 e s1,
     execute fuel1 cs code1 s = Some (Raise e, s1) ->
     execute fuel1 cs (code1 ++ code2) s = Some (Raise e, s1)) /\
  (forall fuel1 b1 s1 fuel2 r2 s2,
     execute fuel1 cs code1 s = Some (Ok b1, s1) ->
     execute fuel2 cs code2 s1 = Some (r2, s2) ->
     execute (fuel1 + fuel2) cs (code1 ++ code2) s = Some (lift b1 r2, s2)).
Proof.
  intros Hb.
  assert (Hentry : forall codeA codeB, embedded cs codeA codeB 0 false entry entry).
  { intros codeA codeB. pose proof (len_nonneg codeA).
    repeat split; simpl; try lia; apply paired_jumps_empty. }
  pose proof (fun n => iterate_embedded cs code1 (code1 ++ code2) 0 false
                (inside_balanced cs [] code1 code2 Hb) n entry entry s
                (Hentry _ _)) as Hfirst.
  unfold execute, interpret. split.
  - intros fuel1 e s1. specialize (Hfirst fuel1).
    destruct (iterate fuel1 cs code1 entry s) as [|r s']; [done|].
    intros [= -> ->].
    by destruct Hfirst as [(b & k & lb & [=] & _)|[-> _]].
  - intros fuel1 b1 s1 fuel2 r2 s2. specialize (Hfirst fuel1).
    destruct (iterate fuel1 cs code1 entry s) as [|r s']; [done|].
    intros [= -> ->].
    destruct Hfirst as [(b & k & lb & [= <-] & Hk & Hrun & Hlb & Hout & HJ)
                       |[_ Hun]].
    2: { destruct (Hun b1 eq_refl) as (l0 & s0 & side & Hl0 & Hun').
         by apply balanced_unmatched in Hun'; [|done|lia]. }
    assert (Hemb : embedded cs code2 (code1 ++ code2) (len code1) b1 entry lb).
    { pose proof (len_nonneg code2). simpl in Hout.
      repeat split; simpl; try (lia || done). by rewrite orb_false_r. }
    pose proof (iterate_embedded cs code2 (code1 ++ code2) (len code1) b1
                  (inside_suffix cs code1 code2 Hb) fuel2 entry lb s1 Hemb)
      as Hsecond.
    destruct (iterate fuel2 cs code2 entry s1) as [|r s'] eqn:Hrun2; [done|].
    intros [= -> ->].
    assert (Hrest : iterate fuel2 cs (code1 ++ code2) lb s1 =
                    Leave (lift b1 r2) s2).
    { destruct Hsecond
        as [(b2 & k2 & lb2 & -> & Hk2 & Hrun3 & Hlb2 & Hout2 & _)|[-> _]];
        [|done].
      apply (iterate_Leave_more _ _ (S k2)); [|lia].
      replace (S k2) with (k2 + 1)%nat by lia.
      rewrite iterate_add, Hrun3. cbn [lift]. rewrite <- Hout2.
      apply iterate_exit. rewrite len_app. lia. }
    rewrite (iterate_Leave_more cs (code1 ++ code2) (k + fuel2) (fuel1 + fuel2)
               entry s (lift b1 r2) s2); [done| |lia].
    by rewrite iterate_add, Hrun.
Qed.

(** An instance of [programs_compose]: a program that sets cell 0 and
    a program that prints it. *)
Lemma programs_compose_witness :
  balanced nice (prog "+") = true /\
  execute 2 nice (prog "+") (initial []) = Some (Ok false, seeded 1 []) /\
  execute 2 nice (prog ".") (seeded 1 []) =
    Some (Ok true, emit (seeded 1 []) (PutChar 1)) /\
  execute (2 + 2) nice (prog "+" ++ prog ".") (initial []) =
    Some (lift false (Ok true), emit (seeded 1 []) (PutChar 1)).
Proof.
  assert (Hb : balanced nice (prog "+") = true) by reflexivity.
  assert (H1 : execute 2 nice (prog "+") (initial []) =
               Some (Ok false, seeded 1 [])) by by_vm.
  assert (H2 : execute 2 nice (prog ".") (seeded 1 []) =
               Some (Ok true, emit (seeded 1 []) (PutChar 1))) by by_vm.
  split; [exact Hb|]. split; [exact H1|]. split; [exact H2|].
  exact (proj2 (programs_compose nice (prog "+") (prog ".") (initial []) Hb)
           2%nat false _ 2%nat _ _ H1 H2).
Defined.

(** ** Loops *)

Lemma iterate_step cs code n l s l' s' :
  index l < len code -> body cs code l s = Next l' s' ->
  iterate (S n) cs code l s = iterate n cs code l' s'.
Proof.
  intros Hlt Hbody. rewrite iterate_S, Hbody.
  by destruct (Z.ltb_spec (index l) (len code)); [|lia].
Qed.

Lemma iterate_step_Leave cs code n l s r s' :
  index l < len code -> body cs code l s = Leave r s' ->
  iterate (S n) cs code l s = Leave r s'.
Proof.
  intros Hlt Hbody. rewrite iterate_S, Hbody.
  by destruct (Z.ltb_spec (index l) (len code)); [|lia].
Qed.

Section Loop.

Variables (cs : Chars.t) (ob cb : ascii) (inner : list ascii).
Hypothesis Hob : resolve cs ob = Some LoopOpen.
Hypothesis Hcb : resolve cs cb = Some LoopClose.
Hypothesis Hbal : balanced cs inner = true.

Local Abbreviation loop := (ob :: inner ++ [cb]).

Lemma len_loop : len loop = len inner + 2.
Proof. unfold len. simpl. rewrite length_app. simpl. lia. Qed.

Lemma loop_open : loop !! Z.to_nat 0 = Some ob.
Proof. done. Qed.

Lemma loop_close : loop !! Z.to_nat (len inner + 1) = Some cb.
Proof.
  replace (Z.to_nat (len inner + 1)) with (S (length inner + 0))
    by (unfold len; lia).
  simpl. by rewrite lookup_app_r, Nat.add_0_r, Nat.sub_diag by lia.
Qed.

Lemma loop_matching : matching cs loop 0 (len inner + 1).
Proof.
  pose proof (len_nonneg inner). split; [lia|].
  split; [exists ob; split; [done|by apply resolve_LoopOpen]|].
  split; [exists cb; split; [apply loop_close|by apply resolve_LoopClose]|].
  unfold slice.
  replace (Z.to_nat (len inner + 1 - (0 + 1))) with (length inner)
    by (unfold len; lia).
  change (Z.to_nat (0 + 1)) with 1%nat. simpl. rewrite drop_0.
  by rewrite take_app_length.
Qed.

Lemma loop_scan_right : scan_right cs loop 0 1 = Found (len inner + 1).
Proof.
  apply (scan_right_Found cs loop 0 _ ob); [lia|done| |apply loop_matching].
  by apply resolve_LoopOpen.
Qed.

Lemma loop_scan_left : scan_left cs loop (len inner + 1) (-1) = Found 0.
Proof.
  pose proof (len_nonneg inner).
  apply (scan_left_Found cs loop _ _ cb); [lia|apply loop_close| |].
  - by apply resolve_LoopClose.
  - apply loop_matching.
Qed.

Lemma loop_inside : inside cs inner loop 1.
Proof. exact (inside_balanced cs [ob] inner [cb] Hbal). Qed.

(** The opening bracket of the loop. *)
Lemma loop_bracket_open l s :
  index l = 0 -> paired_jumps cs loop (jumps l) ->
  exists J,
    paired_jumps cs loop J /\
    body cs loop l s =
    match py_getitem (array s) (ptr s) with
    | Raise e => Leave (Raise e) s
    | Ok cell =>
        if cell =? 0
        then Next {| stdout := stdout l; jumps := J; index := len inner + 2 |} s
        else Next (set_index l 1) s
    end.
Proof.
  intros Hl HJ.
  pose proof (body_paired_jumps cs loop l s ltac:(lia) HJ) as Hsound.
  rewrite body_resolve, Hl in *.
  rewrite (py_getitem_lookup _ _ ob) in * by (lia || done).
  rewrite Hob in *. simpl in *. unfold do_lbracket in *.
  destruct (py_getitem (array s) (ptr s)) as [cell|]; [|by exists ∅].
  destruct (cell =? 0).
  - destruct (do_jump_target (scan_right cs loop (index l) 1) side_left l s)
      as [J HJ'].
    { intros t Ht. rewrite Hl in *.
      apply (paired_jumps_target cs loop _ _ ob t HJ); [lia|done..|].
      by apply resolve_LoopOpen. }
    rewrite HJ', Hl, loop_scan_right in *. exists J. split; [tauto|].
    do 2 f_equal. lia.
  - exists (jumps l). split; [done|]. unfold advance, set_index. by rewrite Hl.
Qed.

(** The closing bracket of the loop. *)
Lemma loop_bracket_close l s :
  index l = len inner + 1 -> paired_jumps cs loop (jumps l) ->
  exists J,
    paired_jumps cs loop J /\
    body cs loop l s =
    match py_getitem (array s) (ptr s) with
    | Raise e => Leave (Raise e) s
    | Ok cell =>
        if cell =? 0
        then Next (set_index l (len inner + 2)) s
        else Next {| stdout := stdout l; jumps := J; index := 1 |} s
    end.
Proof.
  intros Hl HJ. pose proof (len_nonneg inner).
  pose proof (body_paired_jumps cs loop l s ltac:(lia) HJ) as Hsound.
  rewrite body_resolve, Hl in *.
  rewrite (py_getitem_lookup _ _ cb) in * by (lia || apply loop_close).
  rewrite Hcb in *. simpl in *. unfold do_rbracket in *.
  destruct (py_getitem (array s) (ptr s)) as [cell|]; [|by exists ∅].
  destruct (cell =? 0); simpl in *.
  - exists (jumps l). split; [done|]. unfold advance, set_index.
    rewrite Hl. do 2 f_equal. lia.
  - destruct (do_jump_target (scan_left cs loop (index l) (-1)) side_right l s)
      as [J HJ'].
    { intros t Ht. rewrite Hl in *.
      apply (paired_jumps_target cs loop _ _ cb t HJ);
        [lia|apply loop_close|done|].
      by apply resolve_LoopClose. }
    rewrite HJ', Hl, loop_scan_left in *. exists J. split; [tauto|done].
Qed.

End Loop.

(** X17: a loop is a while loop.  For an inner text with properly
    nested brackets, the program made of an opening bracket, the inner
    text and a closing bracket returns at once, leaving the engine as it
    is, when the current cell is 0; when it is not, running the loop is
    running the inner text once and then the loop again on the engine
    as the inner text has left it, the flag being set if either has
    printed; and when the inner text raises, so does the loop, from the
    same state. *)
Theorem loop_unrolls cs ob cb inner s :
  resolve cs ob = Some LoopOpen -> resolve cs cb = Some LoopClose ->
  balanced cs inner = true ->
  let loop := ob :: inner ++ [cb] in
  (py_getitem (array s) (ptr s) = Ok 0 ->
   forall n, execute (S (S n)) cs loop s = Some (Ok false, s)) /\
  (forall cell,
     py_getitem (array s) (ptr s) = Ok cell -> cell <> 0 ->
     (forall fuel e s1,
        execute fuel cs inner s = Some (Raise e, s1) ->
        execute (S fuel) cs loop s = Some (Raise e, s1)) /\
     (forall fuel1 b s1 fuel2 r s2,
        execute fuel1 cs inner s = Some (Ok b, s1) ->
        execute fuel2 cs loop s1 = Some (r, s2) ->
        execute (fuel1 + fuel2) cs loop s = Some (lift b r, s2))).
Proof.
  intros Hob Hcb Hbal loop.
  pose proof (len_loop ob cb inner) as Hlen. fold loop in Hlen.
  pose proof (len_nonneg inner) as Hnn.
  assert (Hopen : forall l s0, index l = 0 -> paired_jumps cs loop (jumps l) ->
            exists J, paired_jumps cs loop J /\
              body cs loop l s0 =
              match py_getitem (array s0) (ptr s0) with
              | Raise e => Leave (Raise e) s0
              | Ok cell =>
                  if cell =? 0
                  then Next {| stdout := stdout l; jumps := J;
                               index := len inner + 2 |} s0
                  else Next (set_index l 1) s0
              end)
    by (intros; by apply loop_bracket_open).
  assert (Hclose : forall l s0, index l = len inner + 1 ->
            paired_jumps cs loop (jumps l) ->
            exists J, paired_jumps cs loop J /\
              body cs loop l s0 =
              match py_getitem (array s0) (ptr s0) with
              | Raise e => Leave (Raise e) s0
              | Ok cell =>
                  if cell =? 0
                  then Next (set_index l (len inner + 2)) s0
                  else Next {| stdout := stdout l; jumps := J; index := 1 |} s0
              end)
    by (intros; by apply loop_bracket_close).
  assert (Hentry : index entry = 0 /\ paired_jumps cs loop (jumps entry))
    by (split; [done|apply paired_jumps_empty]).
  assert (Hlt0 : index entry < len loop) by (rewrite Hlen; simpl; lia).
  unfold execute, interpret. split.
  - intros Hcell n.
    destruct (Hopen entry s (proj1 Hentry) (proj2 Hentry)) as (J & _ & Hbody).
    rewrite Hcell in Hbody. simpl in Hbody.
    rewrite (iterate_step _ _ _ _ _ _ _ Hlt0 Hbody).
    by rewrite iterate_exit by (simpl; lia).
  - intros cell Hcell Hnz.
    destruct (Hopen entry s (proj1 Hentry) (proj2 Hentry)) as (J & _ & Hbody).
    rewrite Hcell in Hbody.
    destruct (Z.eqb_spec cell 0) as [?|_]; [done|].
    assert (Hfirst : forall n,
              iterate (S n) cs loop entry s =
              iterate n cs loop (set_index entry 1) s)
      by (intros n; by apply iterate_step).
    assert (Hemb : embedded cs inner loop 1 false entry (set_index entry 1)).
    { repeat split; simpl; try (lia || done); apply paired_jumps_empty. }
    pose proof (fun n => iterate_embedded cs inner loop 1 false
                  (loop_inside cs ob cb inner Hbal) n _ _ s Hemb) as Hinner.
    split.
    + intros fuel e s1. specialize (Hinner fuel).
      destruct (iterate fuel cs inner entry s) as [|r s']; [done|].
      intros [= -> ->]. rewrite Hfirst.
      by destruct Hinner as [(b & k & lb & [=] & _)|[-> _]].
    + intros fuel1 b s1 fuel2 r s2. specialize (Hinner fuel1).
      destruct (iterate fuel1 cs inner entry s) as [|r' s']; [done|].
      intros [= -> ->].
      destruct Hinner as [(b' & k & lb & [= <-] & Hk & Hrun & Hlb & Hout & HJ)
                         |[_ Hun]].
      2: { destruct (Hun b eq_refl) as (l0 & s0 & side & Hl0 & Hun').
           by apply balanced_unmatched in Hun'; [|done|lia]. }
      simpl in Hout.
      (* the closing bracket, and the run that starts again *)
      destruct (Hclose lb s1 ltac:(lia) HJ) as (J1 & HJ1 & Hback).
      destruct (Hopen entry s1 (proj1 Hentry) (proj2 Hentry))
        as (J2 & HJ2 & Hagain).
      assert (Hltb : index lb < len loop) by lia.
      destruct fuel2 as [|m]; [done|].
      assert (Hrest : iterate (S m) cs loop entry s1 = Leave r s2 ->
                      iterate (S m) cs loop lb s1 = Leave (lift b r) s2).
      { destruct (py_getitem (array s1) (ptr s1)) as [cell1|e1].
        2: { rewrite (iterate_step_Leave _ _ _ _ _ _ _ Hlt0 Hagain).
             intros [= <- <-].
             by rewrite (iterate_step_Leave _ _ _ _ _ _ _ Hltb Hback). }
        destruct (cell1 =? 0).
        - rewrite (iterate_step _ _ _ _ _ _ _ Hlt0 Hagain).
          rewrite (iterate_step _ _ _ _ _ _ _ Hltb Hback).
          destruct m as [|m]; [done|].
          rewrite !iterate_exit by (simpl; lia). intros [= <- <-]. simpl.
          by rewrite Hout, orb_false_r.
        - rewrite (iterate_step _ _ _ _ _ _ _ Hlt0 Hagain).
          rewrite (iterate_step _ _ _ _ _ _ _ Hltb Hback).
          assert (Hemb2 : embedded cs loop loop 0 b (set_index entry 1)
                            {| stdout := stdout lb; jumps := J1; index := 1 |}).
          { repeat split; simpl; try (lia || done).
            by rewrite Hout, orb_false_r. }
          pose proof (iterate_embedded cs loop loop 0 b (inside_refl cs loop)
                        m _ _ s1 Hemb2) as Hsame.
          intros Hrun2. rewrite Hrun2 in Hsame.
          destruct Hsame
            as [(b2 & k2 & lb2 & -> & Hk2 & Hrun3 & Hlb2 & Hout2 & _)|[-> _]];
            [|done].
          apply (iterate_Leave_more _ _ (S k2)); [|lia].
          replace (S k2) with (k2 + 1)%nat by lia.
          rewrite iterate_add, Hrun3. cbn [lift]. rewrite <- Hout2.
          apply iterate_exit. lia. }
      intros Hrun2.
      destruct (iterate (S m) cs loop entry s1) as [|r0 s0] eqn:Hfresh; [done|].
      injection Hrun2 as -> ->. specialize (Hrest eq_refl).
      rewrite (iterate_Leave_more cs loop (S k + S m) (fuel1 + S m) entry s
                 (lift b r) s2); [done| |lia].
      change (S k + S m)%nat with (S (k + S m)).
      by rewrite Hfirst, iterate_add, Hrun.
Qed.

(** An instance of [loop_unrolls]: the loop "[-]" on a cell that holds
    2 is a decrement followed by the loop on a cell that holds 1. *)
Lemma loop_unrolls_witness :
  (resolve nice "[" = Some LoopOpen /\ resolve nice "]" = Some LoopClose /\
   balanced nice (prog "-") = true) /\
  (py_getitem (array (seeded 2 [])) (ptr (seeded 2 [])) = Ok 2 /\ 2 <> 0 /\
   execute 2 nice (prog "-") (seeded 2 []) = Some (Ok false, seeded 1 []) /\
   execute 4 nice (prog "[-]") (seeded 1 []) = Some (Ok false, initial [])) /\
  execute (2 + 4) nice (prog "[-]") (seeded 2 []) =
    Some (lift false (Ok false), initial []).
Proof.
  assert (H1 : execute 2 nice (prog "-") (seeded 2 []) =
               Some (Ok false, seeded 1 [])) by by_vm.
  assert (H2 : execute 4 nice (prog "[-]") (seeded 1 []) =
               Some (Ok false, initial [])) by by_vm.
  assert (Hcell : py_getitem (array (seeded 2 [])) (ptr (seeded 2 [])) = Ok 2)
    by reflexivity.
  split; [by repeat split|]. split; [by repeat split|].
  exact (proj2 (proj2 (loop_unrolls nice "[" "]" (prog "-") (seeded 2 [])
                         eq_refl eq_refl eq_refl) 2 Hcell ltac:(lia))
           2%nat false _ 4%nat _ _ H1 H2).
Defined.

(** ** Runs that never end *)

(** The flag [stdout] is never cleared. *)
Lemma body_stdout_mono cs code l s l' s' :
  body cs code l s = Next l' s' -> stdout l = true -> stdout l' = true.
Proof.
  rewrite body_resolve. destruct (py_getitem code (index l)) as [char|]; [|done].
  destruct (resolve cs char) as [[]|]; simpl.
  - unfold do_gt. destruct (py_mod _ _); [|done]. by intros [= <- _].
  - unfold do_lt. destruct (py_mod _ _); [|done]. by intros [= <- _].
  - unfold do_plus, do_add. destruct (py_bind _ _); [|done]. by intros [= <- _].
  - unfold do_minus, do_add. destruct (py_bind _ _); [|done]. by intros [= <- _].
  - unfold do_period. destruct (putChar s) as [[] ?]; [|done]. by intros [= <- _].
  - unfold do_comma. destruct (getChar s) as [[] ?]; [|done]. by intros [= <- _].
  - unfold do_lbracket. destruct (py_getitem (array s) (ptr s)); [|done].
    destruct (_ =? 0); [|by intros [= <- _]]. unfold do_jump.
    destruct (jumps l !! index l); [by intros [= <- _]|].
    destruct (scan_right _ _ _ _); [|done..]. by intros [= <- _].
  - unfold do_rbracket. destruct (py_getitem (array s) (ptr s)); [|done].
    destruct (negb _); [|by intros [= <- _]]. unfold do_jump.
    destruct (jumps l !! index l); [by intros [= <- _]|].
    destruct (scan_left _ _ _ _); [|done..]. by intros [= <- _].
  - by intros [= <- _].
Qed.

Lemma iterate_stdout_mono cs code n l s l' s' :
  iterate n cs code l s = Next l' s' -> stdout l = true -> stdout l' = true.
Proof.
  revert l s. induction n as [|n IH]; intros l s; simpl; [by intros [= <- _]|].
  destruct (index l <? len code); [|done].
  destruct (body cs code l s) as [l1 s1|] eqn:Hbody; [|done].
  intros Hrun Hout. apply (IH _ _ Hrun). by eapply body_stdout_mono.
Qed.

(** The dictionary of a run stays sound. *)
Lemma iterate_paired cs code n l s l' s' :
  0 <= index l -> paired_jumps cs code (jumps l) ->
  iterate n cs code l s = Next l' s' ->
  0 <= index l' /\ paired_jumps cs code (jumps l').
Proof.
  intros Hi HJ Hrun.
  pose proof (iterate_inv cs code
                (fun l _ => 0 <= index l /\ paired_jumps cs code (jumps l))
                (fun _ _ => True)) as Hinv.
  specialize (Hinv (fun l s0 H _ =>
                      body_paired_jumps cs code l s0 (proj1 H) (proj2 H))).
  specialize (Hinv (fun _ _ _ _ => I) n l s (conj Hi HJ)).
  by rewrite Hrun in Hinv.
Qed.

(** A run that goes on has gone on so far. *)
Lemma iterate_Next_less cs code n m l s l' s' :
  iterate n cs code l s = Next l' s' -> (m <= n)%nat ->
  exists l2 s2, iterate m cs code l s = Next l2 s2.
Proof.
  intros Hrun Hm. destruct (iterate m cs code l s) as [l2 s2|r s2] eqn:E; [eauto|].
  rewrite (iterate_Leave_more _ _ _ _ _ _ _ _ E Hm) in Hrun. done.
Qed.

Lemma iterate_Next_index cs code n l s l' s' :
  iterate (S n) cs code l s = Next l' s' -> index l < len code.
Proof.
  rewrite iterate_S. by destruct (Z.ltb_spec (index l) (len code)).
Qed.

(** A run that comes back to a position with the tape, the cursor and
    the input it had there goes on for ever. *)
Lemma cycle cs code l s k l' s' :
  (0 < k)%nat -> 0 <= index l -> paired_jumps cs code (jumps l) ->
  iterate k cs code l s = Next l' s' -> index l' = index l -> agree s s' ->
  forall n, exists l2 s2, iterate n cs code l s = Next l2 s2.
Proof.
  intros Hk Hi HJ Hrun Hl Hagree n.
  induction (lt_wf n) as [n _ IH].
  destruct (Nat.le_gt_cases n k) as [Hle|Hgt].
  { by apply (iterate_Next_less _ _ _ _ _ _ _ _ Hrun). }
  replace n with (k + (n - k))%nat by lia. rewrite iterate_add, Hrun.
  destruct (IH (n - k)%nat ltac:(lia)) as (la & sa & Ha).
  destruct (iterate_paired _ _ _ _ _ _ _ Hi HJ Hrun) as [_ HJ'].
  assert (Hlt : index l < len code).
  { destruct k as [|k]; [lia|]. by eapply iterate_Next_index. }
  assert (Hemb : embedded cs code code 0 (stdout l') l l').
  { repeat split; try (lia || done).
    destruct (stdout l) eqn:Hout.
    - by rewrite (iterate_stdout_mono _ _ _ _ _ _ _ Hrun Hout).
    - by rewrite orb_false_r. }
  pose proof (iterate_embedded cs code code 0 (stdout l') (inside_refl cs code)
                (n - k) l l' s Hemb) as Hsame.
  rewrite Ha in Hsame. destruct Hsame as (lb & Hb & _).
  pose proof (iterate_agree cs code (n - k) l' s s' Hagree) as Hstep.
  rewrite Hb in Hstep.
  destruct (iterate (n - k) cs code l' s') as [l2 s2|]; [eauto|done].
Qed.

(** X18: a run that comes back to a reading position with the tape,
    the cursor and the pending input it had there the time before never
    ends: the call neither returns nor raises, whatever it has printed
    in between. *)
Theorem a_cycle_never_ends cs code s0 n0 l s k l' s' :
  iterate n0 cs code entry s0 = Next l s ->
  (0 < k)%nat -> iterate k cs code l s = Next l' s' ->
  index l' = index l -> agree s s' ->
  forall fuel, execute fuel cs code s0 = None.
Proof.
  intros Hstart Hk Hrun Hl Hagree fuel. unfold execute, interpret.
  destruct (iterate_paired cs code n0 entry s0 l s) as [Hi HJ];
    [done|apply paired_jumps_empty|done|].
  destruct (Nat.le_gt_cases fuel n0) as [Hle|Hgt].
  - by destruct (iterate_Next_less _ _ _ _ _ _ _ _ Hstart Hle) as (l2 & s2 & ->).
  - replace fuel with (n0 + (fuel - n0))%nat by lia.
    rewrite iterate_add, Hstart.
    by destruct (cycle cs code l s k l' s' Hk Hi HJ Hrun Hl Hagree (fuel - n0)%nat)
      as (l2 & s2 & ->).
Qed.

(** An instance of [a_cycle_never_ends]: the loop of "+[.]" prints for
    ever. *)
Lemma a_cycle_never_ends_witness :
  let l := {| stdout := false; jumps := ∅; index := 2 |} in
  let l' := {| stdout := true; jumps := <[1 := 3]> (<[3 := 1]> ∅);
               index := 2 |} in
  let s := seeded 1 [] in
  let s' := emit (seeded 1 []) (PutChar 1) in
  (iterate 2 nice (prog "+[.]") entry (initial []) = Next l s /\
   (0 < 2)%nat /\ iterate 2 nice (prog "+[.]") l s = Next l' s' /\
   index l' = index l /\ agree s s') /\
  forall fuel, execute fuel nice (prog "+[.]") (initial []) = None.
Proof.
  intros l l' s s'.
  assert (H1 : iterate 2 nice (prog "+[.]") entry (initial []) = Next l s)
    by by_vm.
  assert (H2 : iterate 2 nice (prog "+[.]") l s = Next l' s') by by_vm.
  assert (Hagree : agree s s') by exact (conj eq_refl (conj eq_refl eq_refl)).
  split; [split; [exact H1|split; [lia|split; [exact H2|split; [reflexivity|exact Hagree]]]]|].
  exact (a_cycle_never_ends nice (prog "+[.]") (initial []) 2 l s 2 l' s'
           H1 ltac:(lia) H2 eq_refl Hagree).
Defined.

(** ** Moves of the cursor *)

(** An iteration leaves the cursor where it is, unless the operation is
    a move. *)
Lemma body_ptr cs code l s :
  let s' := state_of (body cs code l s) in
  ptr s' = ptr s \/
  exists char,
    py_getitem code (index l) = Ok char /\
    ((resolve cs char = Some MoveRight /\
      py_mod (ptr s + 1) (len (array s)) = Ok (ptr s')) \/
     (resolve cs char = Some MoveLeft /\
      py_mod (ptr s - 1) (len (array s)) = Ok (ptr s'))).
Proof.
  simpl. rewrite body_resolve.
  destruct (py_getitem code (index l)) as [char|] eqn:Hchar; [|by left].
  destruct (resolve cs char) as [[]|] eqn:Hop; simpl.
  - unfold do_gt. destruct (py_mod _ _) eqn:E; simpl; [|by left].
    right. exists char. split; [done|]. by left.
  - unfold do_lt. destruct (py_mod _ _) eqn:E; simpl; [|by left].
    right. exists char. split; [done|]. by right.
  - left. unfold do_plus, do_add. by destruct (py_bind _ _).
  - left. unfold do_minus, do_add. by destruct (py_bind _ _).
  - left. unfold do_period, putChar.
    destruct (py_getitem (array s) (ptr s)); simpl; [|done].
    by destruct (_ && _).
  - left. unfold do_comma, getChar. destruct (stdin s); simpl; [done|].
    by destruct (py_setitem _ _ _).
  - left. unfold do_lbracket. destruct (py_getitem (array s) (ptr s)); [|done].
    destruct (_ =? 0); [|done]. unfold do_jump.
    destruct (jumps l !! index l); [done|]. by destruct (scan_right _ _ _ _).
  - left. unfold do_rbracket. destruct (py_getitem (array s) (ptr s)); [|done].
    destruct (negb _); [|done]. unfold do_jump.
    destruct (jumps l !! index l); [done|]. by destruct (scan_left _ _ _ _).
  - by left.
Qed.

(** X19: the cursor is moved by the two move operations only, by one
    cell modulo the length of the tape: every other iteration of the
    main loop, jumps and failed searches included, leaves it where it
    is, and a program without the two move characters leaves it where
    it is through any number of iterations. *)
Theorem cursor_moves cs code :
  (forall l s,
     let s' := state_of (body cs code l s) in
     ptr s' = ptr s \/
     exists char,
       py_getitem code (index l) = Ok char /\
       ((resolve cs char = Some MoveRight /\
         py_mod (ptr s + 1) (len (array s)) = Ok (ptr s')) \/
        (resolve cs char = Some MoveLeft /\
         py_mod (ptr s - 1) (len (array s)) = Ok (ptr s')))) /\
  (Chars.gt cs ∉ code -> Chars.lt cs ∉ code ->
   forall n l s, ptr (state_of (iterate n cs code l s)) = ptr s).
Proof.
  split; [apply body_ptr|]. intros Hgt Hlt.
  induction n as [|n IH]; intros l s; simpl; [done|].
  destruct (index l <? len code); [|done].
  pose proof (body_ptr cs code l s) as Hbody. simpl in Hbody.
  destruct (body cs code l s) as [l' s'|r s'] eqn:Hb; simpl in *.
  - rewrite IH. destruct Hbody as [?|(char & Hchar & Hmove)]; [done|].
    apply py_getitem_elem_of in Hchar.
    destruct Hmove as [[->%resolve_glyph _]|[->%resolve_glyph _]]; done.
  - destruct Hbody as [?|(char & Hchar & Hmove)]; [done|].
    apply py_getitem_elem_of in Hchar.
    destruct Hmove as [[->%resolve_glyph _]|[->%resolve_glyph _]]; done.
Qed.

(** An instance of [cursor_moves]: the loop "[-]". *)
Lemma cursor_moves_witness :
  ((Chars.gt nice ∉ prog "[-]") /\ (Chars.lt nice ∉ prog "[-]")) /\
  forall n l s, ptr (state_of (iterate n nice (prog "[-]") l s)) = ptr s.
Proof.
  assert (H : forall c, c ∈ [">"; "<"]%char -> c ∉ prog "[-]").
  { intros c Hc Hin. simpl in Hin.
    repeat (apply elem_of_cons in Hin as [->|Hin];
            [repeat (apply elem_of_cons in Hc as [Hc|Hc]; [discriminate Hc|]);
             by apply elem_of_nil in Hc|]).
    by apply elem_of_nil in Hin. }
  assert (Hgt := H ">"%char ltac:(repeat constructor)).
  assert (Hlt := H "<"%char ltac:(repeat constructor)).
  split; [done|].
  exact (proj2 (cursor_moves nice (prog "[-]")) Hgt Hlt).
Defined.
